(** * The stand-alone driver of the SAT solver satch (main.c)

    A shallow embedding of the DIMACS parser, of the witness printer, of the
    signal handler and of the option handling of [main.c], with the
    properties its description states about them.

    The solver library itself (satch.c) is not part of this development: the
    parser's calls of [satch_add] are recorded as a trace. *)

From Stdlib Require Import ZArith Ascii String List Bool Lia.
Import ListNotations.
Local Open Scope Z_scope.

(** ** Characters and C integer types *)

(** [getc] returns the next byte as an [int] in 0..255, or [EOF]. *)
Definition code (c : ascii) : Z := Z.of_N (N_of_ascii c).

Definition EOF : Z := -1.

Definition LF : ascii := "010"%char.
Definition CR : ascii := "013"%char.
Definition TAB : ascii := "009"%char.

(** [int] is 32 bits wide, [size_t] and [uint64_t] are 64 bits wide. *)
Definition INT_MAX : Z := 2147483647.
Definition INT_MIN : Z := -2147483648.
Definition MAX_SIZE_T : Z := 18446744073709551615.

(** Unsigned 64-bit arithmetic wraps around. *)
Definition wrap64 (z : Z) : Z := z mod 2 ^ 64.

(** [isdigit] of ctype.h in the C locale. *)
Definition isdigit (ch : Z) : bool := (code "0" <=? ch) && (ch <=? code "9").

(** ** Parser state and the monad of the parser *)

(** The globals of main.c the parser reads and writes, and the trace of the
    literals handed to [satch_add], oldest first. *)
Record state := mkState {
  file : list ascii;      (* unread part of the input stream *)
  lineno : Z;             (* line number for parse error messages *)
  bytes : Z;              (* read bytes *)
  variables : Z;          (* declared number of variables *)
  added : list Z          (* arguments of the satch_add calls so far *)
}.

Definition initial (input : list ascii) : state :=
  mkState input 1 0 0 [].

(** Ways in which a run can go wrong in C itself. *)
Inductive fault :=
| AssertionFailed (expr : string)
| SignedOverflow
| OutOfBounds.

(** [ParseError fmt args s]: [parse_error (fmt, args...)] was called in state
    [s]; it reports [lineno s] and exits with status 1. *)
Inductive result (A : Type) : Type :=
| Ok (a : A) (s : state)
| ParseError (fmt : string) (args : list Z) (s : state)
| Fault (f : fault)
| OutOfFuel.

Arguments Ok {A} a s.
Arguments ParseError {A} fmt args s.
Arguments Fault {A} f.
Arguments OutOfFuel {A}.

Definition M (A : Type) : Type := state -> result A.

Definition ret {A} (a : A) : M A := fun s => Ok a s.

Definition bind {A B} (m : M A) (k : A -> M B) : M B :=
  fun s =>
    match m s with
    | Ok a s' => k a s'
    | ParseError fmt args s' => ParseError fmt args s'
    | Fault f => Fault f
    | OutOfFuel => OutOfFuel
    end.

Declare Scope parser_scope.
Delimit Scope parser_scope with parser.
Notation "x <- m ;; k" := (bind m (fun x => k))
  (at level 61, m at next level, right associativity) : parser_scope.
Notation "' p <- m ;; k" := (bind m (fun x => match x with p => k end))
  (at level 61, p pattern, m at next level, right associativity) : parser_scope.
Notation "m ;; k" := (bind m (fun _ => k))
  (at level 61, right associativity) : parser_scope.
Local Open Scope parser_scope.

Definition parse_error {A} (fmt : string) (args : list Z) : M A :=
  fun s => ParseError fmt args s.

Definition assert (expr : string) (b : bool) : M unit :=
  fun s => if b then Ok tt s else Fault (AssertionFailed expr).

(** A statement guarded by [if (b)] without [else]. *)
Definition when (b : bool) (m : M unit) : M unit :=
  if b then m else ret tt.

(** Signed [int] arithmetic: a result outside of the range is undefined. *)
Definition int_val (z : Z) : M Z :=
  fun s => if (INT_MIN <=? z) && (z <=? INT_MAX) then Ok z s
           else Fault SignedOverflow.

(** A loop bounded by the unread input: every iteration that does not leave
    the loop reads at least one byte. *)
Definition fueled {A} (loop : nat -> M A) : M A :=
  fun s => loop (S (length (file s))) s.

(** ** Reading characters: [next] *)

Definition getc : M Z :=
  fun s =>
    match file s with
    | [] => Ok EOF s
    | c :: rest =>
        Ok (code c) (mkState rest (lineno s) (bytes s) (variables s) (added s))
    end.

Definition incr_bytes : M unit :=
  fun s => Ok tt (mkState (file s) (lineno s) (wrap64 (bytes s + 1))
                          (variables s) (added s)).

Definition incr_lineno : M unit :=
  fun s => Ok tt (mkState (file s) (lineno s + 1) (bytes s)
                          (variables s) (added s)).

Definition set_variables (v : Z) : M unit :=
  fun s => Ok tt (mkState (file s) (lineno s) (bytes s) v (added s)).

Definition get_variables : M Z := fun s => Ok (variables s) s.

Definition satch_add (lit : Z) : M unit :=
  fun s => Ok tt (mkState (file s) (lineno s) (bytes s) (variables s)
                          (added s ++ [lit])).

Definition next : M Z :=
  res <- getc ;;
  res <- (if res =? code CR
          then incr_bytes ;;
               res <- getc ;;
               if negb (res =? code LF)
               then parse_error "expected new line after carriage return" []
               else ret res
          else ret res) ;;
  when (res =? code LF) incr_lineno ;;
  when (negb (res =? EOF)) incr_bytes ;;
  ret res.

(** ** The DIMACS parser: [parse] *)

(** [while ((ch = next ()) != '\n') if (ch == EOF) parse_error (msg);] *)
Fixpoint skip_line (msg : string) (fuel : nat) : M unit :=
  match fuel with
  | O => fun _ => OutOfFuel
  | S fuel' =>
      ch <- next ;;
      if negb (ch =? code LF)
      then (if ch =? EOF then parse_error msg [] else skip_line msg fuel')
      else ret tt
  end.

(** [while ((ch = next ()) == 'c') { skip the line }], giving the last [ch]. *)
Fixpoint header_comments (fuel : nat) : M Z :=
  match fuel with
  | O => fun _ => OutOfFuel
  | S fuel' =>
      ch <- next ;;
      if ch =? code "c"
      then fueled (skip_line "unexpected end-of-file in header comment") ;;
           header_comments fuel'
      else ret ch
  end.

(** [while ((ch = next ()) == ' ' || ch == '\t');], giving the last [ch]. *)
Fixpoint skip_blanks (fuel : nat) : M Z :=
  match fuel with
  | O => fun _ => OutOfFuel
  | S fuel' =>
      ch <- next ;;
      if (ch =? code " ") || (ch =? code TAB) then skip_blanks fuel'
      else ret ch
  end.

(** The digits of the number of variables after the first one, accumulated
    in the global [variables]; gives the character after the number. *)
Fixpoint variables_digits (fuel : nat) : M Z :=
  match fuel with
  | O => fun _ => OutOfFuel
  | S fuel' =>
      ch <- next ;;
      if isdigit ch then
        v <- get_variables ;;
        when (v =? 0)
          (parse_error "invalid digit after '0' while parsing maximum variable" []) ;;
        when (INT_MAX ÷ 10 <? v)
          (parse_error "maximum variable number way too big" []) ;;
        v <- int_val (v * 10) ;;
        set_variables v ;;
        digit <- int_val (ch - code "0") ;;
        when (INT_MAX - digit <? v)
          (parse_error "maximum variable number too big" []) ;;
        v <- int_val (v + digit) ;;
        set_variables v ;;
        variables_digits fuel'
      else ret ch
  end.

(** The digits of the number of clauses after the first one, in [size_t]. *)
Fixpoint clauses_digits (fuel : nat) (specified_clauses : Z) : M (Z * Z) :=
  match fuel with
  | O => fun _ => OutOfFuel
  | S fuel' =>
      ch <- next ;;
      if isdigit ch then
        when (specified_clauses =? 0)
          (parse_error "invalid digit after '0' while parsing number of clauses" []) ;;
        when (MAX_SIZE_T / 10 <? specified_clauses)
          (parse_error "way too many clauses specified" []) ;;
        let specified_clauses := wrap64 (specified_clauses * 10) in
        digit <- int_val (ch - code "0") ;;
        when (wrap64 (MAX_SIZE_T - digit) <? specified_clauses)
          (parse_error "too many clauses specified" []) ;;
        clauses_digits fuel' (wrap64 (specified_clauses + digit))
      else ret (specified_clauses, ch)
  end.

(** The digits of a literal after the first one. *)
Fixpoint literal_digits (fuel : nat) (lit : Z) : M (Z * Z) :=
  match fuel with
  | O => fun _ => OutOfFuel
  | S fuel' =>
      ch <- next ;;
      if isdigit ch then
        when (lit =? 0) (parse_error "invalid digit after '0' in number" []) ;;
        when (INT_MAX ÷ 10 <? lit) (parse_error "number way too large" []) ;;
        lit <- int_val (lit * 10) ;;
        digit <- int_val (ch - code "0") ;;
        when (INT_MAX - digit <? lit) (parse_error "number too large" []) ;;
        lit <- int_val (lit + digit) ;;
        literal_digits fuel' lit
      else ret (lit, ch)
  end.

(** The two numbers of the header line and its end, [ch] being the first
    character behind [p cnf] and the blanks that follow it.  Sets
    [variables] and gives [specified_clauses]. *)
Definition parse_numbers (ch : Z) : M Z :=
  when (negb (isdigit ch)) (parse_error "expected digit after 'p cnf '" []) ;;
  v <- int_val (ch - code "0") ;;
  set_variables v ;;
  ch <- fueled variables_digits ;;
  v <- get_variables ;;
  when (negb (ch =? code " ")) (parse_error "expected space after 'p cnf %d'" [v]) ;;
  ch <- fueled skip_blanks ;;
  when (negb (isdigit ch)) (parse_error "expected digit after 'p cnf %d '" [v]) ;;
  '(specified_clauses, ch) <-
     fueled (fun fuel => clauses_digits fuel (wrap64 (ch - code "0"))) ;;
  ch <- (if (ch =? code " ") || (ch =? code TAB)
         then fueled skip_blanks else ret ch) ;;
  when (negb (ch =? code LF))
    (parse_error "expected new line after 'p cnf %d %zu'" [v; specified_clauses]) ;;
  ret specified_clauses.

(** The header: leading comment lines and the line [p cnf <variables>
    <clauses>]. *)
Definition parse_header : M Z :=
  ch <- fueled header_comments ;;
  when (negb (ch =? code "p")) (parse_error "expected 'p' or 'c'" []) ;;
  ch <- next ;;
  when (negb (ch =? code " ")) (parse_error "expected space after 'p'" []) ;;
  ch <- next ;;
  when (negb (ch =? code "c")) (parse_error "expected 'c' after 'p '" []) ;;
  ch <- next ;;
  when (negb (ch =? code "n")) (parse_error "expected 'n' after 'p c'" []) ;;
  ch <- next ;;
  when (negb (ch =? code "f")) (parse_error "expected 'f' after 'p cn'" []) ;;
  ch <- next ;;
  when (negb (ch =? code " ")) (parse_error "expected space after 'p cnf'" []) ;;
  ch <- fueled skip_blanks ;;
  parse_numbers ch.

(** The locals of the clause loop that live across its iterations. *)
Record locals := mkLocals {
  parsed_clauses : Z;
  lit : Z
}.

Inductive control := Continue | Break.

(** The part of an iteration of the clause loop that reads a literal, from
    the check of the number of clauses on: [sign] is set and [ch] is the
    first digit.  The jump to the label [COMMENT] is its last step. *)
Definition parse_literal (specified_clauses : Z) (l : locals) (sign ch : Z)
  : M (control * locals) :=
  assert "parsed_clauses <= specified_clauses"
         (parsed_clauses l <=? specified_clauses) ;;
  when (parsed_clauses l =? specified_clauses)
    (parse_error "more clauses than specified" []) ;;
  lit0 <- int_val (ch - code "0") ;;
  '(lit1, ch) <- fueled (fun fuel => literal_digits fuel lit0) ;;
  assert "lit != INT_MIN" (negb (lit1 =? INT_MIN)) ;;
  lit2 <- int_val (lit1 * sign) ;;
  when (negb (ch =? code " ") && negb (ch =? code TAB)
        && negb (ch =? code LF) && negb (ch =? code "c"))
    (parse_error "unexpected character after '%d'" [lit2]) ;;
  assert "lit != INT_MIN" (negb (lit2 =? INT_MIN)) ;;
  v <- get_variables ;;
  a <- int_val (Z.abs lit2) ;;
  when (v <? a)
    (parse_error "literal '%d' exceeds maximum variable index '%d'" [lit2; v]) ;;
  let parsed := if lit2 =? 0 then wrap64 (parsed_clauses l + 1)
                else parsed_clauses l in
  satch_add lit2 ;;
  when (ch =? code "c")
    (fueled (skip_line "unexpected end-of-file in comment")) ;;
  ret (Continue, mkLocals parsed lit2).

(** One iteration of the [for (;;)] loop over the body. *)
Definition body_iteration (specified_clauses : Z) (l : locals)
  : M (control * locals) :=
  ch <- next ;;
  if (ch =? code " ") || (ch =? code TAB) || (ch =? code LF)
  then ret (Continue, l)
  else if ch =? EOF then ret (Break, l)
  else if ch =? code "c" then
    fueled (skip_line "unexpected end-of-file in comment") ;;
    ret (Continue, l)
  else
    '(sign, ch) <-
       (if ch =? code "-" then
          ch <- next ;;
          when (negb (isdigit ch)) (parse_error "expected digit after '-'" []) ;;
          ret (-1, ch)
        else
          when (negb (isdigit ch)) (parse_error "expected number" []) ;;
          ret (1, ch)) ;;
    parse_literal specified_clauses l sign ch.

Fixpoint body_loop (fuel : nat) (specified_clauses : Z) (l : locals)
  : M locals :=
  match fuel with
  | O => fun _ => OutOfFuel
  | S fuel' =>
      '(c, l') <- body_iteration specified_clauses l ;;
      match c with
      | Continue => body_loop fuel' specified_clauses l'
      | Break => ret l'
      end
  end.

(** The checks behind the clause loop, at the end of the file. *)
Definition end_of_file (specified_clauses : Z) (l : locals) : M locals :=
  when (negb (lit l =? 0))
    (parse_error "terminating zero after literal '%d' missing" [lit l]) ;;
  when (parsed_clauses l <? specified_clauses)
    (if wrap64 (parsed_clauses l + 1) =? specified_clauses
     then parse_error "single clause missing" []
     else parse_error "%zu clauses missing"
            [wrap64 (specified_clauses - parsed_clauses l)]) ;;
  ret l.

(** The clauses after the header. *)
Definition parse_body (specified_clauses : Z) : M locals :=
  l <- fueled (fun fuel => body_loop fuel specified_clauses (mkLocals 0 0)) ;;
  end_of_file specified_clauses l.

(** [parse]: gives the specified and the parsed number of clauses. *)
Definition parse : M (Z * Z) :=
  specified_clauses <- parse_header ;;
  l <- parse_body specified_clauses ;;
  ret (specified_clauses, parsed_clauses l).

(** ** The witness printer: [print_value] and [flush_printed_values] *)

Definition NUL : ascii := "000"%char.

(** What a function of the printer leaves: it works on a buffer of fixed
    size, behind an assertion. *)
Inductive outcome (A : Type) : Type :=
| Done (a : A)
| Failed (f : fault).

Arguments Done {A} a.
Arguments Failed {A} f.

(** The line buffer [buffer] of 80 characters with its fill [size_buffer],
    and what has been written to [stdout], oldest byte first. *)
Record printer := mkPrinter {
  buffer : list ascii;
  size_buffer : Z;
  stdout : list ascii
}.

Definition printer_start (out : list ascii) : printer :=
  mkPrinter (repeat NUL 80) 0 out.

(** The decimal digits of a number that is not negative, as [printf]
    prints them for [%d]. *)
Definition digit_char (d : Z) : ascii := ascii_of_N (Z.to_N (code "0" + d)).

Fixpoint decimal_fuel (fuel : nat) (n : Z) : list ascii :=
  match fuel with
  | O => []
  | S fuel' =>
      (if n <? 10 then [] else decimal_fuel fuel' (n / 10))
      ++ [digit_char (n mod 10)]
  end.

Definition decimal (n : Z) : list ascii :=
  decimal_fuel (S (Z.to_nat (Z.log2 n))) n.

(** [sprintf (tmp, " %d", lit)], without the terminating zero. *)
Definition format_value (lit : Z) : list ascii :=
  " "%char :: (if lit <? 0 then "-"%char :: decimal (- lit) else decimal lit).

(** The characters of a C string: those in front of the first zero. *)
Fixpoint c_string (b : list ascii) : list ascii :=
  match b with
  | [] => []
  | c :: rest => if code c =? code NUL then [] else c :: c_string rest
  end.

(** [memcpy (dst + offset, src, length src)] within the bounds of [dst]. *)
Definition memcpy (dst : list ascii) (offset : nat) (src : list ascii)
  : list ascii :=
  firstn offset dst ++ src ++ skipn (offset + length src) dst.

Definition flush_printed_values (p : printer) : outcome printer :=
  if size_buffer p =? 0 then Done p
  else if negb (wrap64 (size_buffer p + 1) <? 80)
  then Failed (AssertionFailed "size_buffer + 1 < sizeof buffer")
  else
    let terminated := memcpy (buffer p) (Z.to_nat (size_buffer p)) [NUL] in
    Done (mkPrinter terminated 0
            (stdout p ++ "v"%char :: c_string terminated ++ [LF])).

Definition print_value (lit : Z) (p : printer) : outcome printer :=
  let tmp := format_value lit in
  let size_tmp := Z.of_nat (length tmp) in
  if 32 <=? size_tmp then Failed OutOfBounds      (* char tmp[32] *)
  else
    match (if 77 <? wrap64 (size_buffer p + size_tmp)
           then flush_printed_values p else Done p) with
    | Failed f => Failed f
    | Done p1 =>
        if 80 <? size_buffer p1 + size_tmp then Failed OutOfBounds
        else Done (mkPrinter
                     (memcpy (buffer p1) (Z.to_nat (size_buffer p1)) tmp)
                     (wrap64 (size_buffer p1 + size_tmp))
                     (stdout p1))
    end.

(** [print_value] for value after value. *)
Fixpoint print_values (lits : list Z) (p : printer) : outcome printer :=
  match lits with
  | [] => Done p
  | lit :: rest =>
      match print_value lit p with
      | Done p' => print_values rest p'
      | Failed f => Failed f
      end
  end.

(** The values, and then the flush that [main] ends the witness with. *)
Definition print_and_flush (lits : list Z) (p : printer) : outcome printer :=
  match print_values lits p with
  | Done p' => flush_printed_values p'
  | Failed f => Failed f
  end.

(** The witness as [main] prints it: the values of the variables, a zero,
    and the flush. *)
Definition print_witness (values : list Z) (p : printer) : outcome printer :=
  print_and_flush (values ++ [0]) p.

(** An output line of the witness made of the text [l]. *)
Definition v_line (l : list ascii) : list ascii := "v"%char :: l ++ [LF].

Definition int_range (x : Z) : Prop := INT_MIN <= x <= INT_MAX.

(** What is in the buffer and not yet written. *)
Definition pending (p : printer) : list ascii :=
  firstn (Z.to_nat (size_buffer p)) (buffer p).

(** A character of the text of a value: neither the end of a C string nor
    the end of a line. *)
Definition plain (c : ascii) : Prop := c <> NUL /\ c <> LF.

(** The buffer is one of 80 characters, filled with at most 77 characters
    of values. *)
Definition printer_ok (p : printer) : Prop :=
  length (buffer p) = 80%nat /\ 0 <= size_buffer p <= 77
  /\ Forall plain (pending p).

(** A line of the witness, without its [v] and its end: with the [v] it is
    at most 78 characters long. *)
Definition line_ok (l : list ascii) : Prop :=
  (1 + length l <= 78)%nat /\ l <> [] /\ Forall plain l.

(** ** Signals: [catch_signal] *)

(** The numbers of the signals that are caught: those of signal.h, in the
    order of the macro [SIGNALS]. *)
Record signal_numbers := mkSignals {
  SIGABRT : Z;
  SIGBUS : Z;
  SIGINT : Z;
  SIGSEGV : Z;
  SIGTERM : Z
}.

Definition SIGNALS (n : signal_numbers) : list (Z * string) :=
  [ (SIGABRT n, "SIGABRT"%string); (SIGBUS n, "SIGBUS"%string);
    (SIGINT n, "SIGINT"%string); (SIGSEGV n, "SIGSEGV"%string);
    (SIGTERM n, "SIGTERM"%string) ].







(** [name = "SIGNUNKNOWN"; if (sig == SIG) name = "SIG";] for each signal. *)
Definition signal_name (n : signal_numbers) (sig : Z) : string :=
  fold_left (fun name s => if sig =? fst s then snd s else name)
            (SIGNALS n) "SIGNUNKNOWN"%string.








Definition watched (n : signal_numbers) (sig : Z) : Prop :=
  In sig (map fst (SIGNALS n)).


(** ** The options of [main] *)

Record options := mkOptions {
  witness : bool;
  opt_quiet : bool;
  verbose : Z;
  logging : bool;
  path : option string
}.

(** The values of the globals and locals before the loop over [argv]. *)
Definition default_options : options := mkOptions true false 1 false None.

(** How the handling of the options ends: the process exits, with a status
    and a message, or [main] goes on with the options. *)
Inductive startup :=
| Exit (status : Z) (fmt : string) (args : list string)
| Proceed (o : options).

(** [error (fmt, ...)]: the message goes to stderr, the status is 1. *)
Definition error (fmt : string) (args : list string) : startup :=
  Exit 1 fmt args.

(** The option summary [usage], written as in the source ([\n] for a line
    feed); the line on logging is there unless [NDEBUG] is defined. *)
Definition usage (ndebug : bool) : string :=
  ("usage: satch [ <option> ... ] [ <dimacs> ]\n"
   ++ "\n"
   ++ "where '<option>' is one of the following\n"
   ++ "\n"
   ++ "  -h                   print this option summary\n"
   ++ "  --version            print solver version and exit\n"
   ++ "  -n | --no-witness    disable printing of model / satisfying assignment\n"
   ++ "  -q | --quiet         disable verbose messages\n"
   ++ "  -v | --verbose       increment verbose level\n"
   ++ (if ndebug then EmptyString
       else "  -l | --log           enable logging messages\n")
   ++ "\n"
   ++ "where '<dimacs>' is an optionally compressed CNF in DIMACS format by\n"
   ++ "default read from '<stdin>'.  For decompression the solver relies on\n"
   ++ "external tools 'gzip', 'bunzip2' and 'xz' determined by the path suffix.\n"
  )%string.

(** The loop over the arguments; [ndebug] tells whether the solver was
    compiled with [NDEBUG], that is without logging.  [-h] writes [usage]
    and [--version] the version of the library to stdout. *)
Fixpoint parse_arguments (ndebug : bool) (argv : list string) (o : options)
  : startup :=
  match argv with
  | [] => Proceed o
  | arg :: rest =>
      if (arg =? "-h")%string then Exit 0 (usage ndebug) []
      else if (arg =? "--version")%string then Exit 0 "%s\n" ["satch_version"%string]
      else if ((arg =? "-n") || (arg =? "--no-witness"))%string then
        parse_arguments ndebug rest
          (mkOptions false (opt_quiet o) (verbose o) (logging o) (path o))
      else if ((arg =? "-q") || (arg =? "--quiet"))%string then
        parse_arguments ndebug rest
          (mkOptions (witness o) true (verbose o) (logging o) (path o))
      else if ((arg =? "-v") || (arg =? "--verbose"))%string then
        parse_arguments ndebug rest
          (mkOptions (witness o) (opt_quiet o)
                     (verbose o + (if verbose o <? INT_MAX then 1 else 0))
                     (logging o) (path o))
      else if ((arg =? "-l") || (arg =? "--log"))%string then
        if ndebug then error "solver configured without logging support" []
        else parse_arguments ndebug rest
               (mkOptions (witness o) (opt_quiet o) (verbose o) true (path o))
      else if match arg with
              | String c _ => (c =? "-")%char
              | EmptyString => false
              end
      then error "invalid command option '%s' (try '-h')" [arg]
      else match path o with
           | Some p => error "multiple files '%s' and '%s' (try '-h')" [p; arg]
           | None =>
               parse_arguments ndebug rest
                 (mkOptions (witness o) (opt_quiet o) (verbose o) (logging o)
                            (Some arg))
           end
  end.

(** The checks of the options behind the loop. *)
Definition check_options (ndebug : bool) (o : options) : startup :=
  if negb ndebug && (opt_quiet o && logging o)
  then error "can not combine '--quiet' and '--log'" []
  else if opt_quiet o && (1 <? verbose o)
  then error "can not combine '--quiet' and '--verbose'" []
  else Proceed o.

(** [main] up to the initialization of the solver; [argv] without the name
    of the program. *)
Definition main_options (ndebug : bool) (argv : list string) : startup :=
  match parse_arguments ndebug argv default_options with
  | Proceed o => check_options ndebug o
  | Exit status fmt args => Exit status fmt args
  end.

(** An argument that asks for the option. *)
Definition asks_quiet (argv : list string) : Prop :=
  In "-q"%string argv \/ In "--quiet"%string argv.

Definition asks_verbose (argv : list string) : Prop :=
  In "-v"%string argv \/ In "--verbose"%string argv.

Definition asks_log (argv : list string) : Prop :=
  In "-l"%string argv \/ In "--log"%string argv.

(** ** Well-formed DIMACS files

    The text of a DIMACS file, described without reference to the parser:
    leading comment lines, the header line, and then literals, each one
    followed by white space or by a comment. *)

Definition is_digit (c : ascii) : Prop := isdigit (code c) = true.

(** The number a string of digits denotes. *)
Definition value_from (acc : Z) (ds : list ascii) : Z :=
  fold_left (fun a c => 10 * a + (code c - code "0")) ds acc.

Definition value (ds : list ascii) : Z := value_from 0 ds.

(** A decimal numeral: digits, not empty, [0] in front only of itself. *)
Definition numeral (ds : list ascii) : Prop :=
  ds <> [] /\ Forall is_digit ds /\ (forall r, ds = "0"%char :: r -> r = []).

Inductive eol := Unix | Dos.

Definition render_eol (e : eol) : list ascii :=
  match e with Unix => [LF] | Dos => [CR; LF] end.

(** Space and tabulator, as allowed inside the header line. *)
Definition blanks (ws : list ascii) : Prop :=
  Forall (fun c => c = " "%char \/ c = TAB) ws.

(** The text of a comment after its [c], up to the end of the line. *)
Definition comment_text (t : list ascii) : Prop :=
  Forall (fun c => c <> LF /\ c <> CR) t.

Definition render_comment (t : list ascii) (e : eol) : list ascii :=
  "c"%char :: t ++ render_eol e.

(** What may follow a literal and what may stand between literals. *)
Inductive delimiter :=
| Space
| Tabulator
| Newline (e : eol)
| Comment (t : list ascii) (e : eol).

Definition render_delimiter (d : delimiter) : list ascii :=
  match d with
  | Space => [" "%char]
  | Tabulator => [TAB]
  | Newline e => render_eol e
  | Comment t e => render_comment t e
  end.

Definition delimiter_ok (d : delimiter) : Prop :=
  match d with
  | Comment t _ => comment_text t
  | _ => True
  end.

Definition render_literal (negative : bool) (ds : list ascii) : list ascii :=
  (if negative then ["-"%char] else []) ++ ds.

Definition literal_value (negative : bool) (ds : list ascii) : Z :=
  if negative then - value ds else value ds.

Inductive item :=
| Skip (d : delimiter)
| Lit (negative : bool) (ds : list ascii) (d : delimiter).

Definition render_item (i : item) : list ascii :=
  match i with
  | Skip d => render_delimiter d
  | Lit negative ds d => render_literal negative ds ++ render_delimiter d
  end.

Definition render_items (items : list item) : list ascii :=
  flat_map render_item items.

(** The literals of a body, in the order of the text. *)
Fixpoint literals (items : list item) : list Z :=
  match items with
  | [] => []
  | Skip _ :: rest => literals rest
  | Lit negative ds _ :: rest => literal_value negative ds :: literals rest
  end.

Definition item_ok (V : Z) (i : item) : Prop :=
  match i with
  | Skip d => delimiter_ok d
  | Lit negative ds d =>
      numeral ds /\ value ds <= V /\ delimiter_ok d
  end.

Record header := mkHeader {
  leading : list (list ascii * eol);   (* comment lines before the header *)
  blanks1 : list ascii;                (* after "p cnf " *)
  declared_variables : list ascii;
  blanks2 : list ascii;                (* after the space behind the variables *)
  declared_clauses : list ascii;
  blanks3 : list ascii;                (* before the end of the header line *)
  header_eol : eol
}.

Definition render_header (h : header) : list ascii :=
  flat_map (fun l => render_comment (fst l) (snd l)) (leading h)
  ++ list_ascii_of_string "p cnf " ++ blanks1 h
  ++ declared_variables h ++ " "%char :: blanks2 h
  ++ declared_clauses h ++ blanks3 h ++ render_eol (header_eol h).

(** The shape of a header that declares [V] variables and [M] clauses. *)
Definition header_shape (V M : Z) (h : header) : Prop :=
  Forall (fun l => comment_text (fst l)) (leading h)
  /\ blanks (blanks1 h) /\ blanks (blanks2 h) /\ blanks (blanks3 h)
  /\ numeral (declared_variables h) /\ value (declared_variables h) = V
  /\ numeral (declared_clauses h) /\ value (declared_clauses h) = M
  /\ M <= MAX_SIZE_T.

(** A header whose number of variables is an [int]. *)
Definition header_ok (V M : Z) (h : header) : Prop :=
  header_shape V M h /\ V <= INT_MAX.

(** The literals form [M] clauses, each one closed by a zero. *)
Definition clauses_closed (M : Z) (lits : list Z) : Prop :=
  Z.of_nat (count_occ Z.eq_dec lits 0) = M /\ last lits 0 = 0.

(** A literal at the very end of the file, with nothing behind it. *)
Definition render_final (final : option (bool * list ascii)) : list ascii :=
  match final with
  | None => []
  | Some (negative, ds) => render_literal negative ds
  end.

Definition final_literals (final : option (bool * list ascii)) : list Z :=
  match final with
  | None => []
  | Some (negative, ds) => [literal_value negative ds]
  end.

Definition final_ok (V : Z) (final : option (bool * list ascii)) : Prop :=
  match final with
  | None => True
  | Some (_, ds) => numeral ds /\ value ds <= V
  end.

(** White-space separated literals in [M] zero-terminated clauses over the
    variables [1..V], behind a header that declares [V] and [M].  The last
    literal may ([final = Some _]) or may not be the last byte of the file. *)
Definition dimacs (V M : Z) (h : header) (items : list item)
    (final : option (bool * list ascii)) : Prop :=
  header_ok V M h /\ Forall (item_ok V) items /\ final_ok V final
  /\ clauses_closed M (literals items ++ final_literals final).

Definition render (h : header) (items : list item)
    (final : option (bool * list ascii)) : list ascii :=
  render_header h ++ render_items items ++ render_final final.

(** The state after the byte [c] has been read. *)
Definition advance (s : state) (c : ascii) : state :=
  mkState (tl (file s))
          (if code c =? code LF then lineno s + 1 else lineno s)
          (wrap64 (bytes s + 1)) (variables s) (added s).

(** The state after the bytes [k] have been read, one after the other. *)
Definition consume (k : list ascii) (s : state) : state :=
  fold_left advance k s.


(** The number of line feeds in a text. *)
Definition newlines (k : list ascii) : Z :=
  Z.of_nat (count_occ ascii_dec k LF).

(** [s'] is [s] after exactly the bytes [k] have been read from the file:
    they are gone from the stream, their lines are counted and so are they,
    each of them once, in the 64 bits of [bytes]. *)
Definition reads (k : list ascii) (s s' : state) : Prop :=
  file s = k ++ file s' /\ lineno s' = lineno s + newlines k
  /\ wrap64 (bytes s') = wrap64 (bytes s + Z.of_nat (length k)).

(** The text does not go on with a digit. *)
Definition not_digit_head (rest : list ascii) : Prop :=
  match rest with
  | [] => True
  | c :: _ => ~ is_digit c
  end.

(** Every literal starts while fewer than [M] clauses are closed, [pc]
    being closed before the first one. *)
Fixpoint room (M pc : Z) (lits : list Z) : Prop :=
  match lits with
  | [] => True
  | l :: rest => pc < M /\ room M (if l =? 0 then pc + 1 else pc) rest
  end.

(** The locals of the clause loop after the literals [lits]. *)
Definition locals_after (l : locals) (lits : list Z) : locals :=
  mkLocals (parsed_clauses l + Z.of_nat (count_occ Z.eq_dec lits 0))
           (last lits (lit l)).

(** [s'] is [s] after the bytes [k] have been read and nothing else has
    happened. *)
Definition follows (k : list ascii) (s s' : state) : Prop :=
  reads k s s' /\ variables s' = variables s /\ added s' = added s.

(** The text does not go on with a space or a tabulator. *)
Definition not_blank_head (rest : list ascii) : Prop :=
  match rest with
  | [] => True
  | c :: _ => c <> " "%char /\ c <> TAB
  end.

(** What [parse_error] prints behind the line number: the format and its
    arguments. *)
Definition message {A} (r : result A) : option (string * list Z) :=
  match r with
  | ParseError fmt args _ => Some (fmt, args)
  | _ => None
  end.

(** The number of zeros among literals: the clauses they close. *)
Definition closed (lits : list Z) : Z :=
  Z.of_nat (count_occ Z.eq_dec lits 0).

(** The error about too many clauses is raised on reading a zero: the last
    byte that was read is a [0]. *)
Definition raised_at_zero (input : list ascii) : Prop :=
  exists before s',
    input = before ++ "0"%char :: file s'
    /\ parse (initial input) = ParseError "more clauses than specified" [] s'.

(** ** Specifications of runs

    [post m s Q E]: run in [s], [m] either returns a value and a state that
    satisfy [Q], or calls [parse_error] in a state that satisfies [E]; it
    neither faults nor runs out of fuel. *)
Definition post {A} (m : M A) (s : state) (Q : A -> state -> Prop)
    (E : state -> Prop) : Prop :=
  match m s with
  | Ok a s' => Q a s'
  | ParseError _ _ s' => E s'
  | Fault _ => False
  | OutOfFuel => False
  end.

(** [s'] comes behind [s] in a run that has added no literal and has not
    touched [variables]: what is unread has not grown. *)
Definition steady (s s' : state) : Prop :=
  added s' = added s /\ variables s' = variables s
  /\ (length (file s') <= length (file s))%nat.

(** A state of the header: no literal has been added, and [variables] is
    a number of variables an [int] can hold. *)
Definition in_header (s0 s : state) : Prop :=
  added s = added s0 /\ 0 <= variables s <= INT_MAX
  /\ (length (file s) <= length (file s0))%nat.

(** Every literal added is a variable below [variables] or its negation. *)
Definition bounded (s : state) : Prop :=
  Forall (fun x => Z.abs x <= variables s) (added s)
  /\ 0 <= variables s <= INT_MAX.

(** A literal of the range the parser allows: an [int] other than
    [INT_MIN]. *)
Definition literal_range (x : Z) : Prop := - INT_MAX <= x <= INT_MAX.

(** ** Files to try the parser on *)

Definition text (s : string) : list ascii := list_ascii_of_string s.

(** A line: its text and a line feed. *)
Definition line (s : string) : list ascii := text s ++ [LF].

(** The header [p cnf V M] with single spaces, ended by a line feed. *)
Definition plain_header (V M : string) : header :=
  mkHeader [] [] (text V) [] (text M) [] Unix.


(** ** What a run leaves behind, if it ends

    [holds m s Q E]: a run of [m] in [s] that returns leaves a value and a
    state that satisfy [Q], and one that calls [parse_error] leaves a state
    that satisfies [E]. *)
Definition holds {A} (m : M A) (s : state) (Q : A -> state -> Prop)
    (E : state -> Prop) : Prop :=
  match m s with
  | Ok a s' => Q a s'
  | ParseError _ _ s' => E s'
  | Fault _ => True
  | OutOfFuel => True
  end.

(** [m] keeps [P] up to its return, and leaves [PE] at a parse error. *)
Definition keeps (P PE : state -> Prop) {A} (m : M A) : Prop :=
  forall s, P s -> holds m s (fun _ s' => P s') PE.

(** Every carriage return of the text has a line feed behind it. *)
Fixpoint paired (k : list ascii) : bool :=
  match k with
  | [] => true
  | c :: rest =>
      (negb (c =? CR)%char
       || match rest with
          | d :: _ => (d =? LF)%char
          | [] => false
          end)
      && paired rest
  end.

(** [k] is what has been read of [input], and [lineno] is the number of
    the line behind it. *)
Definition read_so_far (input k : list ascii) (s : state) : Prop :=
  input = k ++ file s /\ lineno s = 1 + newlines k.

(** The counters of the stream are those of the part of [input] that has
    been read, a part in which every carriage return has its line feed. *)
Definition counted (input : list ascii) (s : state) : Prop :=
  exists k, read_so_far input k s
            /\ bytes s = wrap64 (Z.of_nat (length k))
            /\ paired k = true.

(** The line number is that of the part of [input] that has been read. *)
Definition located (input : list ascii) (s : state) : Prop :=
  exists k, read_so_far input k s.

(** The locals of the clause loop agree with the literals added so far:
    the clauses that are closed, and the last literal. *)
Definition tallied (l : locals) (s : state) : Prop :=
  parsed_clauses l = closed (added s) /\ lit l = last (added s) 0.

(** ** The input of [main]: [has_suffix], [open_pipe] and the choice of
    the stream *)

Definition strlen (str : string) : Z := Z.of_nat (String.length str).

(** [str + n]: the string from its character [n] on. *)
Fixpoint string_from (n : nat) (str : string) : string :=
  match n, str with
  | O, _ => str
  | S n', String _ rest => string_from n' rest
  | S _, EmptyString => EmptyString
  end.

(** [l >= k && !strcmp (str + l - k, suffix)] *)
Definition has_suffix (str suffix : string) : bool :=
  let l := strlen str in
  let k := strlen suffix in
  (l >=? k) && (string_from (Z.to_nat (l - k)) str =? suffix)%string.

(** [sprintf (cmd, fmt, arg)] for a format whose only conversion is [%s]:
    the text that is written, without the zero that ends it. *)
Fixpoint sprintf (fmt arg : string) : string :=
  match fmt with
  | String c (String d rest as tail) =>
      if ((c =? "%") && (d =? "s"))%char
      then (arg ++ sprintf rest arg)%string
      else String c (sprintf tail arg)
  | String c EmptyString => String c EmptyString
  | EmptyString => EmptyString
  end.

(** What [main] asks of the system it runs on. *)
Record system := mkSystem {
  readable : string -> bool;   (* stat and access (path, R_OK) succeed *)
  malloc : Z -> bool;          (* malloc gives a buffer of this size *)
  fopen : string -> bool;      (* fopen (path, "r") gives a stream *)
  popen : string -> bool       (* popen (cmd, "r") gives a stream *)
}.

Inductive stream :=
| Stdin
| File (name : string)
| Pipe (cmd : string).

(** How the choice of the input ends: with [error] and the status 1, with
    a fault, or with [path], [file] ([None] for a null pointer) and
    [close_file] set. *)
Inductive input_choice :=
| InputError (fmt : string) (args : list string)
| InputFault (f : fault)
| Input (name : string) (opened : option stream) (close_file : Z).

Definition file_readable (os : system) (name : option string) : bool :=
  match name with
  | None => false
  | Some p => readable os p
  end.

(** [open_pipe (fmt)], [name] being the global [path]: the buffer of the
    command is as long as the format and the path together. *)
Definition open_pipe (os : system) (fmt name : string) : input_choice :=
  let size := wrap64 (strlen fmt + strlen name) in
  if negb (malloc os size)
  then InputError "out-of-memory allocating command buffer" []
  else
    let cmd := sprintf fmt name in
    if size <? strlen cmd + 1 then InputFault OutOfBounds
    else Input name (if popen os cmd then Some (Pipe cmd) else None) 2.

(** [if (!file) error ("can not open '%s'", path);] *)
Definition check_opened (chosen : input_choice) : input_choice :=
  match chosen with
  | Input p None _ => InputError "can not open '%s'" [p]
  | _ => chosen
  end.

(** The choice of the input in [main], from [if (!path)] to the check of
    [file]. *)
Definition open_input (os : system) (name : option string) : input_choice :=
  check_opened
    match name with
    | None => Input "<stdin>" (Some Stdin) 0
    | Some p =>
        if negb (file_readable os (Some p))
        then InputError "can not access '%s'" [p]
        else if has_suffix p ".gz" then open_pipe os "gzip -c -d %s" p
        else if has_suffix p ".bz2" then open_pipe os "bzip2 -c -d %s" p
        else if has_suffix p ".xz" then open_pipe os "xz -c -d %s" p
        else Input p (if fopen os p then Some (File p) else None) 1
    end.

(** How [parse] lets go of the input when it has read it. *)
Inductive release := Fclose | Pclose.

Definition close_input (close_file : Z) : list release :=
  (if close_file =? 1 then [Fclose] else [])
  ++ (if close_file =? 2 then [Pclose] else []).

(** The decompression tools of [main], each with the suffix it is for. *)
Definition tools : list (string * string) :=
  [ (".gz", "gzip -c -d "); (".bz2", "bzip2 -c -d "); (".xz", "xz -c -d ") ]%string.

(** The text has no conversion: no [%]. *)
Fixpoint plain_text (t : string) : bool :=
  match t with
  | EmptyString => true
  | String c rest => negb (c =? "%")%char && plain_text rest
  end.

(** ** The command line as a whole *)

(** The argument is one of the names of an option. *)
Definition named (names : list string) (arg : string) : bool :=
  existsb (String.eqb arg) names.

(** [arg[0] == '-'] *)
Definition is_option (arg : string) : bool :=
  match arg with
  | String c _ => (c =? "-")%char
  | EmptyString => false
  end.

(** An argument the loop of [main] goes on behind: an option that sets
    something, [-l] only with logging compiled in, or a path. *)
Definition taken (ndebug : bool) (arg : string) : bool :=
  named ["-n"; "--no-witness"; "-q"; "--quiet"; "-v"; "--verbose"]%string arg
  || (negb ndebug && named ["-l"; "--log"]%string arg)
  || negb (is_option arg).

(** The arguments that are paths. *)
Definition files (argv : list string) : list string :=
  filter (fun arg => negb (is_option arg)) argv.

(** The options after the arguments [argv], all of them taken, from the
    options [o] before them. *)
Definition merge (o : options) (argv : list string) : options :=
  mkOptions
    (witness o && negb (existsb (named ["-n"; "--no-witness"]%string) argv))
    (opt_quiet o || existsb (named ["-q"; "--quiet"]%string) argv)
    (Z.min INT_MAX
       (verbose o
        + Z.of_nat (length (filter (named ["-v"; "--verbose"]%string) argv))))
    (logging o || existsb (named ["-l"; "--log"]%string) argv)
    (match path o with
     | Some p => Some p
     | None => head (files argv)
     end).

(** The number of paths the loop can still take: none if [path] is set. *)
Definition paths_left (o : options) : nat :=
  match path o with
  | Some _ => 0
  | None => 1
  end.

(** A command line that [main] goes on with: every argument is taken, and
    at most one of them is a path. *)
Definition accepted (ndebug : bool) (argv : list string) : bool :=
  forallb (taken ndebug) argv && (length (files argv) <=? 1)%nat.

(** ** The witness in [main] *)

(** [for (int i = 1; i <= variables; i++) print_value (satch_val (solver, i));]
    from the value [i] of its counter on, [val] being what [satch_val]
    gives for the solver.  [None]: the fuel does not suffice. *)
Fixpoint print_values_from (fuel : nat) (val : Z -> Z) (variables i : Z)
    (p : printer) : option (outcome printer) :=
  match fuel with
  | O => None
  | S fuel' =>
      if i <=? variables then
        match print_value (val i) p with
        | Failed f => Some (Failed f)
        | Done p' =>
            if INT_MAX <? i + 1 then Some (Failed SignedOverflow)
            else print_values_from fuel' val variables (i + 1) p'
        end
      else Some (Done p)
  end.

(** The witness of [main]: the loop, [print_value (0)] and
    [flush_printed_values ()]. *)
Definition print_model (val : Z -> Z) (variables : Z) (p : printer)
  : option (outcome printer) :=
  match print_values_from (S (Z.to_nat variables)) val variables 1 p with
  | Some (Done p1) =>
      match print_value 0 p1 with
      | Done p2 => Some (flush_printed_values p2)
      | Failed f => Some (Failed f)
      end
  | r => r
  end.

(** The numbers [i], [i + 1], ..., [n] of them. *)
Definition numbers_from (i : Z) (n : nat) : list Z :=
  map (fun k => i + Z.of_nat k) (seq 0 n).

(** ** The values of a witness as a text for the parser *)

(** The values as the items of a body: each one a literal with its
    decimal digits, a space behind it, a line feed behind the last one. *)
Fixpoint value_items (lits : list Z) : list item :=
  match lits with
  | [] => []
  | lit :: rest =>
      Lit (lit <? 0) (decimal (Z.abs lit))
          (match rest with
           | [] => Newline Unix
           | _ :: _ => Space
           end)
      :: value_items rest
  end.

(** The line of the values: the space in front of the first one, or the
    line feed alone if there is none, and the values. *)
Definition values_line (lits : list Z) : list item :=
  match lits with
  | [] => [Skip (Newline Unix)]
  | _ :: _ => Skip Space :: value_items lits
  end.

(** ** The values of the lines of a witness *)

(** The text of the values of a line. *)
Definition values_text (g : list Z) : list ascii := flat_map format_value g.

(** Every line but the last one is full: the first value of the next line
    would have taken it beyond its 77 characters. *)
Fixpoint filled (groups : list (list Z)) : Prop :=
  match groups with
  | g :: (next :: _) as rest =>
      match next with
      | x :: _ =>
          (77 < length (values_text g) + length (format_value x))%nat
      | [] => False
      end
      /\ filled rest
  | _ => True
  end.

(** ** The text behind a run of the parser *)

(** [s'] is [s] after the bytes [k] have been taken from the stream, with
    the same variables and literals. *)
Definition took (k : list ascii) (s s' : state) : Prop :=
  file s = k ++ file s' /\ variables s' = variables s /\ added s' = added s.

(** The bytes [next] takes for the character it gives: the byte itself, if
    it is not a carriage return, or a carriage return and the line feed. *)
Definition token (ch : Z) (k : list ascii) : Prop :=
  (exists c, k = [c] /\ c <> CR /\ ch = code c)
  \/ (k = [CR; LF] /\ ch = code LF).

(** What [next] has done when it returns [ch]. *)
Definition next_result (s : state) (ch : Z) (s' : state) : Prop :=
  (ch = EOF /\ file s = [] /\ s' = s)
  \/ (exists k, token ch k /\ took k s s').

(** ** Headers and bodies that go wrong *)

(** The shape of a header that declares [V] variables and [M] clauses,
    whatever the size of [M]. *)
Definition header_form (V M : Z) (h : header) : Prop :=
  Forall (fun l => comment_text (fst l)) (leading h)
  /\ blanks (blanks1 h) /\ blanks (blanks2 h) /\ blanks (blanks3 h)
  /\ numeral (declared_variables h) /\ value (declared_variables h) = V
  /\ numeral (declared_clauses h) /\ value (declared_clauses h) = M
  /\ V <= INT_MAX.

(** The end of [parse_numbers], from the number of clauses on: [v] is the
    number of variables and [first] the first digit of the clauses. *)
Definition parse_clauses (v first : Z) : M Z :=
  '(specified_clauses, ch) <-
     fueled (fun fuel => clauses_digits fuel (wrap64 (first - code "0"))) ;;
  ch <- (if (ch =? code " ") || (ch =? code TAB)
         then fueled skip_blanks else ret ch) ;;
  when (negb (ch =? code LF))
    (parse_error "expected new line after 'p cnf %d %zu'" [v; specified_clauses]) ;;
  ret specified_clauses.

(** The text of a header up to its number of clauses. *)
Definition render_header_start (h : header) : list ascii :=
  flat_map (fun l => render_comment (fst l) (snd l)) (leading h)
  ++ list_ascii_of_string "p cnf " ++ blanks1 h
  ++ declared_variables h ++ " "%char :: blanks2 h.

(** The text does not go on with a comment or with the header line: it is at
    its end, or its next character is neither [c] nor [p]. *)
Definition not_header_start (rest : list ascii) : Prop :=
  match rest with
  | [] => True
  | c :: r => c <> "c"%char /\ c <> "p"%char
              /\ (c = CR -> exists r', r = LF :: r')
  end.

(** ** Basic facts on characters and on [next] *)

Lemma code_range (c : ascii) : 0 <= code c < 256.
Proof.
  unfold code. pose proof (N_ascii_bounded c). lia.
Qed.

Lemma code_inj (c d : ascii) : code c = code d -> c = d.
Proof.
  unfold code. intros H.
  rewrite <- (ascii_N_embedding c), <- (ascii_N_embedding d).
  f_equal. lia.
Qed.

Lemma code_neq (c d : ascii) : c <> d -> code c <> code d.
Proof.
  intros H E. apply H, code_inj, E.
Qed.

Lemma isdigit_iff (ch : Z) : isdigit ch = true <-> 48 <= ch <= 57.
Proof.
  unfold isdigit. change (code "0") with 48. change (code "9") with 57.
  rewrite andb_true_iff, !Z.leb_le. tauto.
Qed.

Lemma isdigit_false_iff (ch : Z) : isdigit ch = false <-> ch < 48 \/ 57 < ch.
Proof.
  destruct (isdigit ch) eqn:E.
  - apply isdigit_iff in E. split; [discriminate | lia].
  - split; [intros _ | reflexivity].
    destruct (Z_lt_ge_dec ch 48); [now left |].
    destruct (Z_lt_ge_dec 57 ch); [now right |].
    assert (isdigit ch = true) by (apply isdigit_iff; lia). congruence.
Qed.

Lemma consume_app (k1 k2 : list ascii) (s : state) :
  consume (k1 ++ k2) s = consume k2 (consume k1 s).
Proof.
  unfold consume. apply fold_left_app.
Qed.

Lemma consume_file (k rest : list ascii) (s : state) :
  file s = k ++ rest -> file (consume k s) = rest.
Proof.
  revert s. induction k as [|c k IH]; intros s H; simpl in *.
  - exact H.
  - apply IH. simpl. now rewrite H.
Qed.

Lemma consume_added (k : list ascii) (s : state) :
  added (consume k s) = added s.
Proof.
  revert s. induction k as [|c k IH]; intros s; simpl; [reflexivity |].
  now rewrite IH.
Qed.

Lemma consume_variables (k : list ascii) (s : state) :
  variables (consume k s) = variables s.
Proof.
  revert s. induction k as [|c k IH]; intros s; simpl; [reflexivity |].
  now rewrite IH.
Qed.

Lemma next_eof (s : state) : file s = [] -> next s = Ok EOF s.
Proof.
  intros H. unfold next, bind, getc. rewrite H. reflexivity.
Qed.

Lemma next_char (s : state) (c : ascii) (rest : list ascii) :
  file s = c :: rest -> c <> CR -> next s = Ok (code c) (advance s c).
Proof.
  intros H Hc. apply code_neq in Hc. pose proof (code_range c) as R.
  unfold next, bind, getc. rewrite H.
  destruct (Z.eqb_spec (code c) (code CR)) as [E|_]; [contradiction |].
  unfold ret, when, advance. rewrite H. simpl tl.
  destruct (Z.eqb_spec (code c) EOF) as [E|_]; [unfold EOF in E; lia |].
  destruct (code c =? code LF); reflexivity.
Qed.

Lemma next_crlf (s : state) (rest : list ascii) :
  file s = CR :: LF :: rest ->
  next s = Ok (code LF) (advance (advance s CR) LF).
Proof.
  intros H. unfold next, bind, getc. rewrite H.
  unfold advance. rewrite H. reflexivity.
Qed.

Lemma next_cr_alone (s : state) (rest : list ascii) :
  file s = CR :: rest -> (forall r, rest <> LF :: r) ->
  exists s', next s = ParseError "expected new line after carriage return" [] s'.
Proof.
  intros H Hr. unfold next, bind, getc. rewrite H. simpl.
  destruct rest as [|c r]; simpl.
  - eexists. reflexivity.
  - destruct (Z.eqb_spec (code c) (code LF)) as [E|_].
    + apply code_inj in E. subst c. now destruct (Hr r).
    + eexists. reflexivity.
Qed.

Lemma consume_lineno_no_newline (k : list ascii) (s : state) :
  ~ In LF k -> lineno (consume k s) = lineno s.
Proof.
  revert s. induction k as [|c k IH]; intros s H; simpl; [reflexivity |].
  rewrite IH by (intros I; apply H; now right). simpl.
  destruct (Z.eqb_spec (code c) (code LF)) as [E|_]; [| reflexivity].
  apply code_inj in E. subst c. destruct H. now left.
Qed.

(** ** Running the monad *)

Lemma bind_eq {A B} (m : M A) (k : A -> M B) (s : state) (r : result A) :
  m s = r ->
  bind m k s = match r with
               | Ok a s' => k a s'
               | ParseError fmt args s' => ParseError fmt args s'
               | Fault f => Fault f
               | OutOfFuel => OutOfFuel
               end.
Proof.
  intros <-. reflexivity.
Qed.

Lemma bind_ok {A B} (m : M A) (k : A -> M B) (s s' : state) (a : A) :
  m s = Ok a s' -> bind m k s = k a s'.
Proof.
  intros H. unfold bind. now rewrite H.
Qed.

Lemma int_val_ok (z : Z) (s : state) :
  INT_MIN <= z <= INT_MAX -> int_val z s = Ok z s.
Proof.
  intros H. unfold int_val.
  destruct (Z.leb_spec INT_MIN z); [| lia].
  destruct (Z.leb_spec z INT_MAX); [reflexivity | lia].
Qed.

Lemma digit_code (c : ascii) : is_digit c -> 48 <= code c <= 57.
Proof.
  intros H. now apply isdigit_iff.
Qed.

Lemma digit_not_CR (c : ascii) : is_digit c -> c <> CR.
Proof.
  intros H E. subst c. apply digit_code in H. vm_compute in H.
  destruct H as [H _]. now apply H.
Qed.

(** Characters the parser tells apart, as numbers. *)
Ltac codes :=
  change (code LF) with 10 in *; change (code CR) with 13 in *;
  change (code TAB) with 9 in *; change (code " ") with 32 in *;
  change (code "c") with 99 in *; change (code "-") with 45 in *;
  change (code "0") with 48 in *; change (code "9") with 57 in *;
  change (code "p") with 112 in *; change (code "n") with 110 in *;
  change (code "f") with 102 in *; change EOF with (-1) in *.

Lemma variables_advance (s : state) (c : ascii) :
  variables (advance s c) = variables s.
Proof.
  reflexivity.
Qed.

Lemma added_advance (s : state) (c : ascii) : added (advance s c) = added s.
Proof.
  reflexivity.
Qed.

Ltac arith := unfold INT_MIN, INT_MAX, MAX_SIZE_T in *; lia.

(** Decide one comparison of the goal that follows from the hypotheses. *)
Ltac decide_test :=
  match goal with
  | |- context [?a =? ?b] =>
      first [ replace (a =? b) with true by (symmetry; apply Z.eqb_eq; arith)
            | replace (a =? b) with false by (symmetry; apply Z.eqb_neq; arith) ]
  | |- context [?a <? ?b] =>
      first [ replace (a <? b) with true by (symmetry; apply Z.ltb_lt; arith)
            | replace (a <? b) with false by (symmetry; apply Z.ltb_ge; arith) ]
  | |- context [?a <=? ?b] =>
      first [ replace (a <=? b) with true by (symmetry; apply Z.leb_le; arith)
            | replace (a <=? b) with false by (symmetry; apply Z.leb_gt; arith) ]
  end.

(** Run the statements at the head of the goal that the hypotheses decide. *)
Ltac run_step :=
  first
    [ progress cbv beta iota delta
        [when bind ret parse_error assert get_variables negb andb orb]
    | progress cbn [file lineno bytes variables added]
    | rewrite variables_advance
    | rewrite added_advance
    | rewrite consume_variables
    | rewrite consume_added
    | decide_test
    | rewrite int_val_ok by arith ].

Ltac run :=
  codes; change (INT_MAX ÷ 10) with 214748364;
  change (MAX_SIZE_T / 10) with 1844674407370955161;
  repeat run_step.

(** ** The loops of the parser on well-formed text *)

Lemma skip_line_text (msg : string) (t : list ascii) (e : eol) :
  comment_text t ->
  forall (fuel : nat) (s : state) (rest : list ascii),
    file s = t ++ render_eol e ++ rest ->
    (length t < fuel)%nat ->
    skip_line msg fuel s = Ok tt (consume (t ++ render_eol e) s).
Proof.
  induction 1 as [|c t [Hlf Hcr] Ht IH]; intros fuel s rest Hs Hfuel.
  - destruct fuel as [|fuel]; [simpl in Hfuel; lia |].
    simpl in Hs. simpl skip_line. destruct e; simpl in Hs.
    + erewrite bind_ok by (eapply next_char; [exact Hs | discriminate]).
      reflexivity.
    + erewrite bind_ok by (eapply next_crlf; exact Hs).
      reflexivity.
  - destruct fuel as [|fuel]; [simpl in Hfuel; lia |].
    simpl in Hs. simpl skip_line.
    erewrite bind_ok by (eapply next_char; [exact Hs | exact Hcr]).
    pose proof (code_range c) as R. apply code_neq in Hlf.
    destruct (Z.eqb_spec (code c) (code LF)) as [E|_]; [contradiction |].
    destruct (Z.eqb_spec (code c) EOF) as [E|_]; [unfold EOF in E; lia |].
    cbn [negb].
    rewrite (IH fuel (advance s c) rest).
    + reflexivity.
    + simpl. now rewrite Hs.
    + simpl in Hfuel. lia.
Qed.

Lemma fueled_skip_line_text (msg : string) (t : list ascii) (e : eol)
    (s : state) (rest : list ascii) :
  comment_text t ->
  file s = t ++ render_eol e ++ rest ->
  fueled (skip_line msg) s = Ok tt (consume (t ++ render_eol e) s).
Proof.
  intros Ht Hs. unfold fueled. eapply skip_line_text; eauto.
  rewrite Hs, length_app. lia.
Qed.

(** ** The stream after reading *)

Lemma wrap64_add_l (a b : Z) : wrap64 (wrap64 a + b) = wrap64 (a + b).
Proof.
  unfold wrap64. apply Zplus_mod_idemp_l.
Qed.

Lemma wrap64_small (z : Z) : 0 <= z <= MAX_SIZE_T -> wrap64 z = z.
Proof.
  intros H. unfold wrap64. apply Z.mod_small. unfold MAX_SIZE_T in H.
  change (2 ^ 64) with 18446744073709551616. lia.
Qed.

Lemma newlines_app (k1 k2 : list ascii) :
  newlines (k1 ++ k2) = newlines k1 + newlines k2.
Proof.
  unfold newlines. rewrite count_occ_app. lia.
Qed.

Lemma reads_refl (s : state) : reads [] s s.
Proof.
  unfold reads. simpl. change (newlines []) with 0.
  rewrite !Z.add_0_r. auto.
Qed.

Lemma reads_trans (k1 k2 : list ascii) (s s1 s2 : state) :
  reads k1 s s1 -> reads k2 s1 s2 -> reads (k1 ++ k2) s s2.
Proof.
  intros (F1 & L1 & B1) (F2 & L2 & B2). unfold reads.
  rewrite F1, F2, L2, L1, B2, newlines_app, <- app_assoc.
  split; [reflexivity | split; [lia |]].
  rewrite <- wrap64_add_l, B1, wrap64_add_l, length_app. f_equal. lia.
Qed.

Lemma reads_advance (s : state) (c : ascii) (rest : list ascii) :
  file s = c :: rest -> reads [c] s (advance s c).
Proof.
  intros H. unfold reads, advance, newlines. simpl. rewrite H.
  split; [reflexivity | split].
  - destruct (Z.eqb_spec (code c) (code LF)) as [E|E].
    + apply code_inj in E. subst c.
      destruct (ascii_dec LF LF); [lia | contradiction].
    + destruct (ascii_dec c LF) as [->|_]; [contradiction | lia].
  - unfold wrap64. apply Zmod_mod.
Qed.

Lemma reads_consume (k : list ascii) (s : state) (rest : list ascii) :
  file s = k ++ rest -> reads k s (consume k s).
Proof.
  revert s. induction k as [|c k IH]; intros s H.
  - apply reads_refl.
  - change (c :: k) with ([c] ++ k). rewrite consume_app.
    apply reads_trans with (s1 := consume [c] s).
    + eapply reads_advance. exact H.
    + apply IH. simpl. now rewrite H.
Qed.

Lemma reads_file (k rest : list ascii) (s s' : state) :
  reads k s s' -> file s = k ++ rest -> file s' = rest.
Proof.
  intros [F _] H. rewrite F in H. now apply app_inv_head in H.
Qed.

Lemma next_not_digit (s s' : state) (ch : Z) :
  not_digit_head (file s) -> next s = Ok ch s' -> isdigit ch = false.
Proof.
  intros H N. destruct (file s) as [|c rest] eqn:F.
  - rewrite next_eof in N by exact F. now inversion N.
  - destruct (ascii_dec c CR) as [->|Hc].
    + destruct rest as [|d rest].
      * unfold next, bind, getc in N. rewrite F in N. simpl in N. discriminate.
      * destruct (ascii_dec d LF) as [->|Hd].
        -- rewrite (next_crlf s rest F) in N. now inversion N.
        -- destruct (next_cr_alone s (d :: rest) F) as [s1 E].
           ++ intros r E. inversion E. contradiction.
           ++ rewrite E in N. discriminate.
    + rewrite (next_char s c rest F Hc) in N. inversion N. subst.
      simpl in H. unfold is_digit in H. now destruct (isdigit (code c)).
Qed.

Lemma skip_blanks_text (ws : list ascii) :
  blanks ws ->
  forall (fuel : nat) (s : state) (rest : list ascii),
    file s = ws ++ rest ->
    (length ws < fuel)%nat ->
    (forall ch s', next (consume ws s) = Ok ch s' ->
                   ch <> code " " /\ ch <> code TAB) ->
    skip_blanks fuel s = next (consume ws s).
Proof.
  induction 1 as [|c ws Hc Hws IH]; intros fuel s rest Hs Hfuel Hnext;
    (destruct fuel as [|fuel]; [simpl in Hfuel; lia |]); simpl skip_blanks.
  - simpl in *. unfold bind. destruct (next s) as [ch s'| | |] eqn:N; try reflexivity.
    destruct (Hnext ch s' eq_refl) as [H1 H2].
    destruct (Z.eqb_spec ch (code " ")); [contradiction |].
    destruct (Z.eqb_spec ch (code TAB)); [contradiction |]. reflexivity.
  - simpl in Hs.
    erewrite bind_ok
      by (eapply next_char; [exact Hs | destruct Hc; subst c; discriminate]).
    assert (E : (code c =? code " ") || (code c =? code TAB) = true)
      by (destruct Hc; subst c; reflexivity).
    rewrite E. apply (IH fuel (advance s c) rest).
    + simpl. now rewrite Hs.
    + simpl in Hfuel. lia.
    + exact Hnext.
Qed.

Lemma fueled_skip_blanks_text (ws : list ascii) (s : state) (rest : list ascii) :
  blanks ws ->
  file s = ws ++ rest ->
  (forall ch s', next (consume ws s) = Ok ch s' ->
                 ch <> code " " /\ ch <> code TAB) ->
  fueled skip_blanks s = next (consume ws s).
Proof.
  intros Hws Hs Hnext. unfold fueled. eapply skip_blanks_text; eauto.
  rewrite Hs, length_app. lia.
Qed.

(** ** Numerals *)

Lemma value_from_cons (acc : Z) (c : ascii) (ds : list ascii) :
  value_from acc (c :: ds) = value_from (10 * acc + (code c - 48)) ds.
Proof.
  reflexivity.
Qed.

Lemma value_from_ge (ds : list ascii) :
  Forall is_digit ds -> forall acc, 0 <= acc -> acc <= value_from acc ds.
Proof.
  induction 1 as [|c ds Hc _ IH]; intros acc Hacc.
  - unfold value_from. simpl. lia.
  - rewrite value_from_cons. apply digit_code in Hc.
    specialize (IH (10 * acc + (code c - 48))). lia.
Qed.

Lemma value_from_mono (ds : list ascii) :
  Forall is_digit ds ->
  forall a b, 0 <= a <= b -> value_from a ds <= value_from b ds.
Proof.
  induction 1 as [|c ds Hc _ IH]; intros a b Hab.
  - unfold value_from. simpl. lia.
  - rewrite !value_from_cons. apply IH. apply digit_code in Hc. lia.
Qed.

Lemma value_nonneg (ds : list ascii) : Forall is_digit ds -> 0 <= value ds.
Proof.
  intros H. unfold value. now apply value_from_ge.
Qed.

(** The first digit of a numeral and what it leaves to the loop. *)
Lemma numeral_inv (ds : list ascii) :
  numeral ds ->
  exists c ds', ds = c :: ds' /\ is_digit c /\ Forall is_digit ds'
                /\ (ds' <> [] -> 0 < code c - 48)
                /\ value ds = value_from (code c - 48) ds'.
Proof.
  intros (Hne & Hd & Hz). destruct ds as [|c ds']; [contradiction |].
  inversion Hd as [|? ? Hc Hds']. subst.
  exists c, ds'. repeat split; auto.
  intros Hne'. pose proof (digit_code c Hc).
  destruct (Z.eq_dec (code c) 48) as [E|]; [| lia].
  change 48 with (code "0") in E. apply code_inj in E. subst c.
  now specialize (Hz ds' eq_refl).
Qed.

Lemma Forall_digit_not_CR (ds : list ascii) (c : ascii) :
  Forall is_digit ds -> In c ds -> c <> CR.
Proof.
  intros H I. rewrite Forall_forall in H. apply digit_not_CR. auto.
Qed.

Lemma literal_digits_text (ds : list ascii) :
  Forall is_digit ds ->
  forall (fuel : nat) (acc : Z) (s : state) (rest : list ascii),
    file s = ds ++ rest ->
    not_digit_head rest ->
    (length ds < fuel)%nat ->
    0 <= acc -> (ds <> [] -> 0 < acc) ->
    value_from acc ds <= INT_MAX ->
    literal_digits fuel acc s
    = (ch <- next ;; ret (value_from acc ds, ch)) (consume ds s).
Proof.
  induction 1 as [|c ds Hc Hds IH]; intros fuel acc s rest Hs Hrest Hfuel H0 H1 Hv;
    (destruct fuel as [|fuel]; [simpl in Hfuel; lia |]); cbn [literal_digits].
  - simpl in Hs. simpl consume. unfold bind.
    destruct (next s) as [ch s'| | |] eqn:N; try reflexivity.
    rewrite (next_not_digit s s' ch) by (rewrite ?Hs; auto). reflexivity.
  - simpl in Hs. rewrite value_from_cons in *.
    erewrite bind_ok by (eapply next_char; [exact Hs | now apply digit_not_CR]).
    unfold is_digit in Hc. rewrite Hc. apply isdigit_iff in Hc.
    assert (0 < acc) by (apply H1; discriminate).
    pose proof (value_from_ge ds Hds (10 * acc + (code c - 48))) as G.
    run.
    replace (acc * 10 + (code c - 48)) with (10 * acc + (code c - 48)) by lia.
    apply (IH fuel _ (advance s c) rest); try lia.
    + simpl. now rewrite Hs.
    + exact Hrest.
    + simpl in Hfuel. lia.
Qed.

Lemma clauses_digits_text (ds : list ascii) :
  Forall is_digit ds ->
  forall (fuel : nat) (acc : Z) (s : state) (rest : list ascii),
    file s = ds ++ rest ->
    not_digit_head rest ->
    (length ds < fuel)%nat ->
    0 <= acc -> (ds <> [] -> 0 < acc) ->
    value_from acc ds <= MAX_SIZE_T ->
    clauses_digits fuel acc s
    = (ch <- next ;; ret (value_from acc ds, ch)) (consume ds s).
Proof.
  induction 1 as [|c ds Hc Hds IH]; intros fuel acc s rest Hs Hrest Hfuel H0 H1 Hv;
    (destruct fuel as [|fuel]; [simpl in Hfuel; lia |]); cbn [clauses_digits].
  - simpl in Hs. simpl consume. unfold bind.
    destruct (next s) as [ch s'| | |] eqn:N; try reflexivity.
    rewrite (next_not_digit s s' ch) by (rewrite ?Hs; auto). reflexivity.
  - simpl in Hs. rewrite value_from_cons in *.
    erewrite bind_ok by (eapply next_char; [exact Hs | now apply digit_not_CR]).
    unfold is_digit in Hc. rewrite Hc. apply isdigit_iff in Hc.
    assert (0 < acc) by (apply H1; discriminate).
    pose proof (value_from_ge ds Hds (10 * acc + (code c - 48))) as G.
    rewrite (wrap64_small (acc * 10)) by arith.
    run.
    rewrite (wrap64_small (MAX_SIZE_T - (code c - 48))) by arith.
    run.
    rewrite (wrap64_small (acc * 10 + (code c - 48))) by arith.
    replace (acc * 10 + (code c - 48)) with (10 * acc + (code c - 48)) by lia.
    apply (IH fuel _ (advance s c) rest); try lia.
    + simpl. now rewrite Hs.
    + exact Hrest.
    + simpl in Hfuel. lia.
Qed.

Lemma variables_digits_text (ds : list ascii) :
  Forall is_digit ds ->
  forall (fuel : nat) (s : state) (rest : list ascii),
    file s = ds ++ rest ->
    not_digit_head rest ->
    (length ds < fuel)%nat ->
    0 <= variables s -> (ds <> [] -> 0 < variables s) ->
    value_from (variables s) ds <= INT_MAX ->
    exists s1,
      variables_digits fuel s = next s1
      /\ reads ds s s1
      /\ variables s1 = value_from (variables s) ds
      /\ added s1 = added s.
Proof.
  induction 1 as [|c ds Hc Hds IH]; intros fuel s rest Hs Hrest Hfuel H0 H1 Hv;
    (destruct fuel as [|fuel]; [simpl in Hfuel; lia |]); cbn [variables_digits].
  - simpl in Hs. exists s. split; [| split; [apply reads_refl | split; reflexivity]].
    unfold bind. destruct (next s) as [ch s'| | |] eqn:N; try reflexivity.
    rewrite (next_not_digit s s' ch) by (rewrite ?Hs; auto). reflexivity.
  - simpl in Hs. rewrite value_from_cons in *.
    erewrite bind_ok by (eapply next_char; [exact Hs | now apply digit_not_CR]).
    unfold is_digit in Hc. rewrite Hc. apply isdigit_iff in Hc.
    assert (0 < variables s) by (apply H1; discriminate).
    pose proof (value_from_ge ds Hds (10 * variables s + (code c - 48))) as G.
    run. unfold set_variables. run.
    set (s1 := mkState _ _ _ _ _).
    assert (R1 : reads [c] s s1)
      by exact (reads_advance s c (ds ++ rest) Hs).
    destruct (IH fuel s1 rest) as (s2 & E & R & V & A).
    + eapply reads_file; [exact R1 | exact Hs].
    + exact Hrest.
    + simpl in Hfuel. lia.
    + subst s1. cbn [variables]. lia.
    + subst s1. cbn [variables]. lia.
    + subst s1. cbn [variables].
      replace (variables s * 10 + (code c - 48))
        with (10 * variables s + (code c - 48)) by lia. exact Hv.
    + exists s2. split; [exact E |]. subst s1. cbn [variables added] in *.
      split; [| split; [rewrite V; f_equal; lia | exact A]].
      change (c :: ds) with ([c] ++ ds). eapply reads_trans; [exact R1 | exact R].
Qed.

(** ** Steps of the parser, from state to state *)

Lemma follows_refl (s : state) : follows [] s s.
Proof.
  split; [apply reads_refl | split; reflexivity].
Qed.

Lemma follows_trans (k1 k2 : list ascii) (s s1 s2 : state) :
  follows k1 s s1 -> follows k2 s1 s2 -> follows (k1 ++ k2) s s2.
Proof.
  intros (R1 & V1 & A1) (R2 & V2 & A2).
  split; [eapply reads_trans; eauto | split; congruence].
Qed.

Lemma follows_cons (c : ascii) (k : list ascii) (s s1 s2 : state) :
  follows [c] s s1 -> follows k s1 s2 -> follows (c :: k) s s2.
Proof.
  apply (follows_trans [c] k).
Qed.

Lemma follows_consume (k rest : list ascii) (s : state) :
  file s = k ++ rest -> follows k s (consume k s).
Proof.
  intros H. split; [eapply reads_consume; eauto |].
  now rewrite consume_variables, consume_added.
Qed.

Lemma follows_file (k rest : list ascii) (s s' : state) :
  follows k s s' -> file s = k ++ rest -> file s' = rest.
Proof.
  intros (R & _). now apply reads_file.
Qed.

Lemma next_step (s : state) (c : ascii) (rest : list ascii) :
  file s = c :: rest -> c <> CR ->
  exists s', next s = Ok (code c) s' /\ follows [c] s s' /\ file s' = rest.
Proof.
  intros H Hc. exists (advance s c). split; [eapply next_char; eauto |].
  assert (F : follows [c] s (consume [c] s)) by (apply (follows_consume [c] rest s H)).
  split; [exact F | eapply follows_file; eauto].
Qed.

Lemma next_eol_step (s : state) (e : eol) (rest : list ascii) :
  file s = render_eol e ++ rest ->
  exists s', next s = Ok (code LF) s' /\ follows (render_eol e) s s'
             /\ file s' = rest.
Proof.
  intros H. exists (consume (render_eol e) s).
  assert (F : follows (render_eol e) s (consume (render_eol e) s))
    by (apply (follows_consume _ rest s H)).
  split; [| split; [exact F | eapply follows_file; eauto]].
  destruct e; simpl in *.
  - eapply next_char; [exact H | discriminate].
  - eapply next_crlf; exact H.
Qed.

Lemma skip_line_step (msg : string) (t : list ascii) (e : eol) (s : state)
    (rest : list ascii) :
  comment_text t ->
  file s = t ++ render_eol e ++ rest ->
  exists s', fueled (skip_line msg) s = Ok tt s'
             /\ follows (t ++ render_eol e) s s' /\ file s' = rest.
Proof.
  intros Ht H. exists (consume (t ++ render_eol e) s).
  assert (F : follows (t ++ render_eol e) s (consume (t ++ render_eol e) s))
    by (apply (follows_consume _ rest s); rewrite <- app_assoc; exact H).
  split; [eapply fueled_skip_line_text; eauto |].
  split; [exact F | eapply follows_file; [exact F | now rewrite <- app_assoc]].
Qed.

(** What [next] gives depends on the head of the file only. *)
Lemma next_head (s s' : state) (ch : Z) :
  next s = Ok ch s' ->
  (file s = [] /\ ch = EOF)
  \/ (exists c rest, file s = c :: rest /\ c <> CR /\ ch = code c)
  \/ (exists rest, file s = CR :: LF :: rest /\ ch = code LF).
Proof.
  intros N. destruct (file s) as [|c rest] eqn:F.
  - rewrite next_eof in N by exact F. inversion N. now left.
  - right. destruct (ascii_dec c CR) as [->|Hc].
    + right. destruct rest as [|d rest].
      * unfold next, bind, getc in N. rewrite F in N. simpl in N. discriminate.
      * destruct (ascii_dec d LF) as [->|Hd].
        -- rewrite (next_crlf s rest F) in N. inversion N. now exists rest.
        -- destruct (next_cr_alone s (d :: rest) F) as [s1 E].
           ++ intros r E. inversion E. contradiction.
           ++ rewrite E in N. discriminate.
    + left. rewrite (next_char s c rest F Hc) in N. inversion N.
      now exists c, rest.
Qed.

Lemma next_not_blank (s s' : state) (ch : Z) :
  not_blank_head (file s) -> next s = Ok ch s' ->
  ch <> code " " /\ ch <> code TAB.
Proof.
  intros H N.
  destruct (next_head s s' ch N) as [[F ->]|[(c & r & F & Hc & ->)|(r & F & ->)]].
  - split; discriminate.
  - rewrite F in H. destruct H as [H1 H2]. split; now apply code_neq.
  - split; discriminate.
Qed.

Lemma skip_blanks_step (ws : list ascii) (s : state) (rest : list ascii) :
  blanks ws ->
  file s = ws ++ rest ->
  not_blank_head rest ->
  exists s1, fueled skip_blanks s = next s1
             /\ follows ws s s1 /\ file s1 = rest.
Proof.
  intros Hws H Hrest. exists (consume ws s).
  assert (F : follows ws s (consume ws s)) by (apply (follows_consume _ rest s H)).
  assert (E : file (consume ws s) = rest) by (eapply follows_file; eauto).
  split; [| split; [exact F | exact E]].
  eapply fueled_skip_blanks_text; eauto.
  intros ch s' N. eapply next_not_blank; [| exact N]. now rewrite E.
Qed.

Lemma literal_digits_step (ds : list ascii) (acc : Z) (s : state)
    (rest : list ascii) :
  Forall is_digit ds ->
  file s = ds ++ rest ->
  not_digit_head rest ->
  0 <= acc -> (ds <> [] -> 0 < acc) ->
  value_from acc ds <= INT_MAX ->
  exists s1,
    fueled (fun fuel => literal_digits fuel acc) s
    = (ch <- next ;; ret (value_from acc ds, ch)) s1
    /\ follows ds s s1 /\ file s1 = rest.
Proof.
  intros Hds H Hrest H0 H1 Hv. exists (consume ds s).
  assert (F : follows ds s (consume ds s)) by (apply (follows_consume _ rest s H)).
  split; [| split; [exact F | eapply follows_file; eauto]].
  unfold fueled. eapply literal_digits_text; eauto.
  rewrite H, length_app. lia.
Qed.

Lemma clauses_digits_step (ds : list ascii) (acc : Z) (s : state)
    (rest : list ascii) :
  Forall is_digit ds ->
  file s = ds ++ rest ->
  not_digit_head rest ->
  0 <= acc -> (ds <> [] -> 0 < acc) ->
  value_from acc ds <= MAX_SIZE_T ->
  exists s1,
    fueled (fun fuel => clauses_digits fuel acc) s
    = (ch <- next ;; ret (value_from acc ds, ch)) s1
    /\ follows ds s s1 /\ file s1 = rest.
Proof.
  intros Hds H Hrest H0 H1 Hv. exists (consume ds s).
  assert (F : follows ds s (consume ds s)) by (apply (follows_consume _ rest s H)).
  split; [| split; [exact F | eapply follows_file; eauto]].
  unfold fueled. eapply clauses_digits_text; eauto.
  rewrite H, length_app. lia.
Qed.

Lemma variables_digits_step (ds : list ascii) (s : state) (rest : list ascii) :
  Forall is_digit ds ->
  file s = ds ++ rest ->
  not_digit_head rest ->
  0 <= variables s -> (ds <> [] -> 0 < variables s) ->
  value_from (variables s) ds <= INT_MAX ->
  exists s1,
    fueled variables_digits s = next s1
    /\ reads ds s s1 /\ file s1 = rest
    /\ variables s1 = value_from (variables s) ds
    /\ added s1 = added s.
Proof.
  intros Hds H Hrest H0 H1 Hv.
  destruct (variables_digits_text ds Hds (S (length (file s))) s rest)
    as (s1 & E & R & V & A); auto.
  - rewrite H, length_app. lia.
  - exists s1. repeat split; auto; try apply R.
    eapply reads_file; eauto.
Qed.

Lemma header_comments_text (cs : list (list ascii * eol)) :
  Forall (fun l => comment_text (fst l)) cs ->
  forall (fuel : nat) (s : state) (rest : list ascii),
    file s = flat_map (fun l => render_comment (fst l) (snd l)) cs ++ rest ->
    (length cs < fuel)%nat ->
    (forall c r, rest = c :: r -> c <> "c"%char) ->
    exists s1,
      header_comments fuel s = next s1
      /\ follows (flat_map (fun l => render_comment (fst l) (snd l)) cs) s s1
      /\ file s1 = rest.
Proof.
  induction 1 as [|[t e] cs Ht Hcs IH]; intros fuel s rest Hs Hfuel Hrest;
    (destruct fuel as [|fuel]; [simpl in Hfuel; lia |]); cbn [header_comments].
  - simpl in Hs. exists s. split; [| split; [apply follows_refl | exact Hs]].
    unfold bind. destruct (next s) as [ch s'| | |] eqn:N; try reflexivity.
    enough (ch <> code "c") by (run; reflexivity).
    destruct (next_head s s' ch N) as [[F ->]|[(c & r & F & Hc & ->)|(r & F & ->)]];
      try discriminate.
    apply code_neq. rewrite Hs in F. eapply Hrest; eauto.
  - cbn [flat_map fst snd] in Hs, Ht. unfold render_comment at 1 in Hs.
    rewrite <- ?app_comm_cons, <- ?app_assoc in Hs.
    destruct (next_step s "c" _ Hs) as (s1 & N1 & F1 & Hs1); [discriminate |].
    rewrite (bind_ok _ _ _ _ _ N1). run.
    destruct (skip_line_step "unexpected end-of-file in header comment"
                t e s1 _ Ht Hs1) as (s2 & N2 & F2 & Hs2).
    rewrite N2.
    destruct (IH fuel s2 rest Hs2) as (s3 & E & F3 & Hs3); auto.
    + simpl in Hfuel. lia.
    + exists s3. split; [exact E | split; [| exact Hs3]].
      cbn [flat_map fst snd]. unfold render_comment at 1.
      rewrite <- app_comm_cons.
      eapply follows_cons; [exact F1 |].
      eapply follows_trans; eauto.
Qed.

Lemma fueled_eq {A} (loop : nat -> M A) (s : state) :
  fueled loop s = loop (S (length (file s))) s.
Proof.
  reflexivity.
Qed.

Lemma leading_length (cs : list (list ascii * eol)) :
  (length cs
   <= length (flat_map (fun l => render_comment (fst l) (snd l)) cs))%nat.
Proof.
  induction cs as [|[t e] cs IH]; simpl; [lia |].
  rewrite length_app. lia.
Qed.

Lemma digit_not_blank (c : ascii) (rest : list ascii) :
  is_digit c -> not_blank_head (c :: rest).
Proof.
  intros H. apply digit_code in H.
  split; intros ->; vm_compute in H; destruct H as [H1 H2];
    try (now apply H1); try (now apply H2).
Qed.

Lemma eol_not_blank (e : eol) (rest : list ascii) :
  not_blank_head (render_eol e ++ rest).
Proof.
  destruct e; simpl; split; discriminate.
Qed.

Lemma blank_not_digit (c : ascii) (rest : list ascii) :
  c = " "%char \/ c = TAB -> not_digit_head (c :: rest).
Proof.
  intros [->| ->] H; apply digit_code in H; vm_compute in H;
    destruct H as [H _]; now apply H.
Qed.

Lemma eol_not_digit (e : eol) (rest : list ascii) :
  not_digit_head (render_eol e ++ rest).
Proof.
  destruct e; intros H; apply digit_code in H; vm_compute in H;
    destruct H as [H _]; now apply H.
Qed.

(** Read the character at the head of the file of the state that [next] is
    run in, and run on. *)
Tactic Notation "read_char" "as" ident(s') ident(N) ident(R) ident(V)
    ident(A) ident(Hs') :=
  match goal with
  | Hs : file ?s = ?c :: ?r |- context [next ?s] =>
      destruct (next_step s c r Hs) as (s' & N & (R & V & A) & Hs');
      [ first [ discriminate | apply digit_not_CR; assumption | assumption ]
      | rewrite N; run ]
  end.

Lemma reads_cons (c : ascii) (k : list ascii) (s s1 s2 : state) :
  reads [c] s s1 -> reads k s1 s2 -> reads (c :: k) s s2.
Proof.
  apply (reads_trans [c] k).
Qed.

(** Put the steps of a run together, along the text they have read. *)
Ltac chain :=
  rewrite <- ?app_comm_cons;
  repeat first
    [ eassumption
    | apply reads_refl
    | eapply reads_cons; [eassumption |]
    | eapply reads_trans; [eassumption |] ].

(** The header up to the first digit of the number of variables. *)
Lemma parse_header_start (cs : list (list ascii * eol)) (b1 : list ascii)
    (c : ascii) (rest : list ascii) (s : state) :
  Forall (fun l => comment_text (fst l)) cs -> blanks b1 -> is_digit c ->
  file s = flat_map (fun l => render_comment (fst l) (snd l)) cs
           ++ list_ascii_of_string "p cnf " ++ b1 ++ c :: rest ->
  exists s',
    parse_header s = parse_numbers (code c) s'
    /\ follows (flat_map (fun l => render_comment (fst l) (snd l)) cs
                ++ list_ascii_of_string "p cnf " ++ b1 ++ [c]) s s'
    /\ file s' = rest.
Proof.
  intros Hcs Hb1 Hc Hs.
  change (list_ascii_of_string "p cnf ")
    with ["p"; " "; "c"; "n"; "f"; " "]%char in *.
  cbn [app] in Hs.
  destruct (header_comments_text _ Hcs (S (length (file s))) s _ Hs)
    as (s0 & E0 & (R0 & V0 & A0) & Hs0).
  { rewrite Hs, length_app. pose proof (leading_length cs). lia. }
  { intros c' r E. inversion E. discriminate. }
  unfold parse_header. run. rewrite fueled_eq, E0.
  read_char as s1 N1 R1 V1 A1 Hs1. read_char as s2 N2 R2 V2 A2 Hs2.
  read_char as s3 N3 R3 V3 A3 Hs3. read_char as s4 N4 R4 V4 A4 Hs4.
  read_char as s5 N5 R5 V5 A5 Hs5. read_char as s6 N6 R6 V6 A6 Hs6.
  destruct (skip_blanks_step _ s6 _ Hb1 Hs6) as (s7 & E7 & (R7 & V7 & A7) & Hs7).
  { now apply digit_not_blank. }
  rewrite E7. read_char as s8 N8 R8 V8 A8 Hs8.
  exists s8. split; [reflexivity |].
  split; [split; [| split; congruence] | exact Hs8].
  cbn [app]. chain.
Qed.

Lemma parse_header_text (V M : Z) (h : header) (s : state) (rest : list ascii) :
  header_ok V M h ->
  file s = render_header h ++ rest ->
  exists s',
    parse_header s = Ok M s'
    /\ reads (render_header h) s s' /\ file s' = rest
    /\ variables s' = V /\ added s' = added s.
Proof.
  destruct h as [cs b1 dV b2 dM b3 e].
  unfold header_ok, header_shape, render_header.
  cbn [leading blanks1 blanks2 blanks3 declared_variables declared_clauses
       header_eol].
  intros ((Hcs & Hb1 & Hb2 & Hb3 & HnV & HV & HnM & HM & HMmax) & HVmax) Hs.
  destruct (numeral_inv _ HnV) as (cv & dv & -> & Hcv & Hdv & Hposv & Hvalv).
  destruct (numeral_inv _ HnM) as (cm & dm & -> & Hcm & Hdm & Hposm & Hvalm).
  pose proof (digit_code _ Hcv) as Bcv. pose proof (digit_code _ Hcm) as Bcm.
  repeat (rewrite <- app_assoc in Hs || rewrite <- app_comm_cons in Hs).
  destruct (parse_header_start cs b1 cv _ s Hcs Hb1 Hcv Hs)
    as (s8 & E8 & (R8 & V8 & A8) & Hs8).
  rewrite E8. unfold parse_numbers.
  unfold is_digit in Hcv, Hcm. rewrite Hcv. run. unfold set_variables. run.
  match goal with |- context [fueled variables_digits ?st] => set (s9 := st) end.
  assert (R9 : reads [] s8 s9) by exact (reads_refl s8).
  destruct (variables_digits_step dv s9 _ Hdv Hs8)
    as (s10 & E10 & R10 & Hs10 & V10 & A10).
  { now apply blank_not_digit; left. }
  { subst s9. cbn [variables]. lia. }
  { exact Hposv. }
  { subst s9. cbn [variables]. rewrite <- Hvalv. lia. }
  assert (HvV : variables s10 = V)
    by (rewrite V10; subst s9; cbn [variables]; congruence).
  assert (HaV : added s10 = added s) by (rewrite A10; subst s9; cbn [added]; congruence).
  assert (R10' : reads dv s8 s10) by exact (reads_trans [] dv s8 s9 s10 R9 R10).
  clearbody s9. clear R9 R10. rewrite E10. read_char as s11 N11 R11 V11 A11 Hs11.
  destruct (skip_blanks_step _ s11 _ Hb2 Hs11)
    as (s12 & E12 & (R12 & V12 & A12) & Hs12).
  { now apply digit_not_blank. }
  rewrite E12. read_char as s13 N13 R13 V13 A13 Hs13. rewrite Hcm. run.
  rewrite (wrap64_small (code cm - 48)) by arith.
  assert (HvM : value_from (code cm - 48) dm = M) by congruence.
  assert (Hnd : not_digit_head (b3 ++ render_eol e ++ rest)).
  { destruct Hb3 as [|b bs Hb _]; [apply eol_not_digit |].
    now apply blank_not_digit. }
  destruct (clauses_digits_step dm (code cm - 48) s13 _ Hdm Hs13 Hnd)
    as (s14 & E14 & (R14 & V14 & A14) & Hs14).
  { lia. }
  { exact Hposm. }
  { rewrite HvM. exact HMmax. }
  rewrite E14. run.
  assert (R08 : reads ((flat_map
                          (fun l => render_comment (fst l) (snd l)) cs
                        ++ list_ascii_of_string "p cnf " ++ b1) ++ [cv]) s s8).
  { repeat rewrite <- app_assoc. exact R8. }
  assert (glue : forall k s', reads (dv ++ " "%char :: b2 ++ (cm :: dm) ++ k) s8 s' ->
            reads (flat_map (fun l => render_comment (fst l) (snd l)) cs
                   ++ list_ascii_of_string "p cnf " ++ b1 ++ (cv :: dv)
                   ++ " "%char :: b2 ++ (cm :: dm) ++ k) s s').
  { intros k s' R'. pose proof (reads_trans _ _ _ _ _ R08 R') as R.
    repeat (rewrite <- app_assoc in R || rewrite <- app_comm_cons in R).
    cbn [app] in R.
    repeat (rewrite <- app_assoc || rewrite <- app_comm_cons). exact R. }
  destruct Hb3 as [|b bs Hb Hbs].
  - destruct (next_eol_step s14 _ _ Hs14) as (s15 & N15 & (R15 & V15 & A15) & Hs15).
    rewrite N15. run.
    exists s15. split; [now rewrite HvM |].
    split; [| split; [exact Hs15 | split; congruence]].
    apply glue. cbn [app]. chain.
  - rewrite <- app_comm_cons in Hs14.
    destruct (next_step s14 b _ Hs14) as (s15 & N15 & (R15 & V15 & A15) & Hs15).
    { destruct Hb; subst b; discriminate. }
    rewrite N15. run.
    assert (Eb : (if code b =? 32 then true else code b =? 9) = true)
      by (destruct Hb; subst b; reflexivity).
    rewrite Eb.
    destruct (skip_blanks_step _ s15 _ Hbs Hs15)
      as (s16 & E16 & (R16 & V16 & A16) & Hs16).
    { apply eol_not_blank. }
    rewrite E16.
    destruct (next_eol_step s16 _ _ Hs16) as (s17 & N17 & (R17 & V17 & A17) & Hs17).
    rewrite N17. run.
    exists s17. split; [now rewrite HvM |].
    split; [| split; [exact Hs17 | split; congruence]].
    apply glue. cbn [app]. chain.
Qed.

(** ** One iteration of the clause loop *)

(** What follows a literal: its first character goes to the test behind the
    digits, a comment is skipped after the literal has been added. *)
Lemma delimiter_step (msg : string) (d : delimiter) (s : state)
    (rest : list ascii) :
  delimiter_ok d ->
  file s = render_delimiter d ++ rest ->
  exists ch s1,
    next s = Ok ch s1
    /\ (ch = 32 \/ ch = 9 \/ ch = 10 \/ ch = 99)
    /\ variables s1 = variables s /\ added s1 = added s
    /\ forall s1' : state,
        reads [] s1 s1' ->
        exists s2,
          when (ch =? code "c") (fueled (skip_line msg)) s1' = Ok tt s2
          /\ reads (render_delimiter d) s s2 /\ file s2 = rest
          /\ variables s2 = variables s1' /\ added s2 = added s1'.
Proof.
  intros Hd Hs.
  assert (plain : forall ch s1,
             next s = Ok ch s1 -> ch <> 99 ->
             follows (render_delimiter d) s s1 ->
             file s1 = rest ->
             (ch = 32 \/ ch = 9 \/ ch = 10 \/ ch = 99) ->
             exists ch s1,
               next s = Ok ch s1
               /\ (ch = 32 \/ ch = 9 \/ ch = 10 \/ ch = 99)
               /\ variables s1 = variables s /\ added s1 = added s
               /\ forall s1' : state,
                   reads [] s1 s1' ->
                   exists s2,
                     when (ch =? code "c") (fueled (skip_line msg)) s1' = Ok tt s2
                     /\ reads (render_delimiter d) s s2 /\ file s2 = rest
                     /\ variables s2 = variables s1' /\ added s2 = added s1').
  { intros ch s1 N Hch (R & V & A) Hs1 Hc.
    exists ch, s1. split; [exact N |]. split; [exact Hc |].
    split; [exact V |]. split; [exact A |].
    intros s1' R'. exists s1'. run.
    split; [reflexivity |]. split; [| split; [| split; reflexivity]].
    - rewrite <- (app_nil_r (render_delimiter d)).
      exact (reads_trans _ _ _ _ _ R R').
    - destruct R' as (F' & _). simpl in F'. congruence. }
  destruct d as [| |e|t e]; simpl in Hs.
  - destruct (next_step s " " rest Hs) as (s1 & N & F & Hs1); [discriminate |].
    apply (plain _ _ N); auto. discriminate.
  - destruct (next_step s TAB rest Hs) as (s1 & N & F & Hs1); [discriminate |].
    apply (plain _ _ N); auto. discriminate.
  - destruct (next_eol_step s e rest Hs) as (s1 & N & F & Hs1).
    apply (plain _ _ N); auto. discriminate.
  - clear plain. simpl in Hd.
    destruct (next_step s "c" _ Hs) as (s1 & N & (R & V & A) & Hs1);
      [discriminate |].
    exists (code "c"), s1. split; [exact N |]. split; [auto |].
    split; [exact V |]. split; [exact A |].
    intros s1' R'.
    assert (F' : file s1' = t ++ render_eol e ++ rest).
    { destruct R' as (F' & _). simpl in F'. rewrite <- F', Hs1.
      now rewrite <- app_assoc. }
    destruct (skip_line_step msg t e s1' rest Hd F')
      as (s2 & E & (R2 & V2 & A2) & Hs2).
    exists s2. run. split; [exact E |].
    split; [| split; [exact Hs2 | split; assumption]].
    exact (reads_trans _ _ _ _ _ R (reads_trans _ _ _ _ _ R' R2)).
Qed.

Lemma body_iteration_skip (M : Z) (l : locals) (d : delimiter) (s : state)
    (rest : list ascii) :
  delimiter_ok d ->
  file s = render_delimiter d ++ rest ->
  exists s',
    body_iteration M l s = Ok (Continue, l) s'
    /\ reads (render_delimiter d) s s' /\ file s' = rest
    /\ variables s' = variables s /\ added s' = added s.
Proof.
  intros Hd Hs.
  destruct (delimiter_step "unexpected end-of-file in comment" d s rest Hd Hs)
    as (ch & s1 & N & Hch & V & A & K).
  destruct (K s1 (reads_refl s1)) as (s2 & E & R & Hs2 & V2 & A2).
  exists s2. unfold body_iteration. rewrite (bind_ok _ _ _ _ _ N).
  split; [| repeat split; try apply R; congruence].
  unfold when in E. codes.
  destruct Hch as [-> | [-> | [-> | ->]]]; simpl in E; run;
    try (inversion E; subst; reflexivity).
  now rewrite E.
Qed.

Lemma literal_value_bounds (negative : bool) (ds : list ascii) (V : Z) :
  Forall is_digit ds -> value ds <= V ->
  - V <= literal_value negative ds <= V.
Proof.
  intros Hd Hv. pose proof (value_nonneg ds Hd).
  unfold literal_value. destruct negative; lia.
Qed.

Lemma delimiter_not_digit (d : delimiter) (rest : list ascii) :
  not_digit_head (render_delimiter d ++ rest).
Proof.
  destruct d as [| |e|t e]; cbn [render_delimiter app].
  - apply blank_not_digit. now left.
  - apply blank_not_digit. now right.
  - apply eol_not_digit.
  - intros H. apply digit_code in H. vm_compute in H.
    destruct H as [_ H]. now apply H.
Qed.

Lemma parse_literal_text (M : Z) (l : locals) (sign : Z) (c : ascii)
    (ds : list ascii) (d : delimiter) (s : state) (rest : list ascii) :
  is_digit c -> Forall is_digit ds -> (ds <> [] -> 0 < code c - 48) ->
  value (c :: ds) <= variables s -> variables s <= INT_MAX ->
  delimiter_ok d ->
  0 <= parsed_clauses l < M -> M <= MAX_SIZE_T ->
  sign = 1 \/ sign = -1 ->
  file s = ds ++ render_delimiter d ++ rest ->
  exists s',
    parse_literal M l sign (code c) s
    = Ok (Continue,
          mkLocals (if value (c :: ds) * sign =? 0
                    then parsed_clauses l + 1 else parsed_clauses l)
                   (value (c :: ds) * sign)) s'
    /\ reads (ds ++ render_delimiter d) s s' /\ file s' = rest
    /\ variables s' = variables s
    /\ added s' = added s ++ [value (c :: ds) * sign].
Proof.
  intros Hc Hds Hpos Hv HV Hd Hpc HM Hsign Hs.
  pose proof (digit_code c Hc) as Bc.
  assert (Hval : value (c :: ds) = value_from (code c - 48) ds) by reflexivity.
  pose proof (value_from_ge ds Hds (code c - 48)) as Hge.
  unfold parse_literal. run.
  destruct (literal_digits_step ds (code c - 48) s _ Hds Hs)
    as (s1 & E1 & (R1 & V1 & A1) & Hs1).
  { apply delimiter_not_digit. }
  { lia. }
  { exact Hpos. }
  { lia. }
  rewrite E1. run.
  destruct (delimiter_step "unexpected end-of-file in comment" d s1 rest Hd Hs1)
    as (ch & s2 & N2 & Hch & V2 & A2 & K).
  rewrite N2. run.
  rewrite Hval. set (v := value_from (code c - 48) ds) in *.
  rewrite (wrap64_small (parsed_clauses l + 1)) by arith.
  destruct (K (mkState (file s2) (lineno s2) (bytes s2) (variables s2)
                       (added s2 ++ [v * sign])) (reads_refl s2))
    as (s3 & E3 & R3 & Hs3 & V3 & A3).
  cbn [variables added] in V3, A3.
  exists s3. split; [| split; [eapply reads_trans; eauto | ]].
  - unfold when in E3. codes.
    destruct Hch as [-> | [-> | [-> | ->]]]; destruct Hsign as [-> | ->];
      match type of E3 with
      | context [?a =? ?b] =>
          let r := eval vm_compute in (a =? b) in
          change (a =? b) with r in E3
      end;
      cbv beta iota delta [ret] in E3; run; unfold satch_add; run;
      first [ rewrite E3; reflexivity | inversion E3; subst; reflexivity ].
  - repeat split; congruence.
Qed.

Lemma body_iteration_literal (M : Z) (l : locals) (negative : bool)
    (ds : list ascii) (d : delimiter) (s : state) (rest : list ascii) :
  numeral ds -> value ds <= variables s -> variables s <= INT_MAX ->
  delimiter_ok d ->
  0 <= parsed_clauses l < M -> M <= MAX_SIZE_T ->
  file s = render_item (Lit negative ds d) ++ rest ->
  exists s',
    body_iteration M l s
    = Ok (Continue,
          mkLocals (if literal_value negative ds =? 0
                    then parsed_clauses l + 1 else parsed_clauses l)
                   (literal_value negative ds)) s'
    /\ reads (render_item (Lit negative ds d)) s s' /\ file s' = rest
    /\ variables s' = variables s
    /\ added s' = added s ++ [literal_value negative ds].
Proof.
  intros Hn Hv HV Hd Hpc HM Hs.
  destruct (numeral_inv _ Hn) as (c & ds' & -> & Hc & Hds' & Hpos & Hval).
  pose proof (digit_code c Hc) as Bc.
  cbn [render_item] in *. unfold render_literal in *.
  repeat (rewrite <- app_assoc in Hs || rewrite <- app_comm_cons in Hs).
  assert (Hc' := Hc). unfold is_digit in Hc'.
  unfold literal_value.
  destruct negative; cbn [app] in Hs; unfold body_iteration; run.
  - read_char as s1 N1 R1 V1 A1 Hs1. read_char as s2 N2 R2 V2 A2 Hs2.
    rewrite Hc'. run.
    destruct (parse_literal_text M l (-1) c ds' d s2 rest)
      as (s3 & E3 & R3 & Hs3 & V3 & A3); auto; try congruence.
    rewrite E3.
    replace (value (c :: ds') * -1) with (- value (c :: ds')) in * by lia.
    exists s3. split; [reflexivity |].
    split; [| repeat split; congruence].
    cbn [app]. chain.
  - read_char as s2 N2 R2 V2 A2 Hs2.
    rewrite Hc'. run.
    destruct (parse_literal_text M l 1 c ds' d s2 rest)
      as (s3 & E3 & R3 & Hs3 & V3 & A3); auto; try congruence.
    rewrite E3.
    replace (value (c :: ds') * 1) with (value (c :: ds')) in * by lia.
    exists s3. split; [reflexivity |].
    split; [| repeat split; congruence].
    cbn [app]. chain.
Qed.

(** ** The clause loop on a well-formed body *)

Lemma render_delimiter_length (d : delimiter) :
  (1 <= length (render_delimiter d))%nat.
Proof.
  destruct d as [| |e|t e]; simpl; try lia. destruct e; simpl; lia.
Qed.

Lemma render_item_length (i : item) : (1 <= length (render_item i))%nat.
Proof.
  destruct i as [d|negative ds d]; simpl.
  - apply render_delimiter_length.
  - rewrite length_app. pose proof (render_delimiter_length d). lia.
Qed.

Lemma last_cons_default (v d : Z) (lits : list Z) :
  last (v :: lits) d = last lits v.
Proof.
  revert v d. induction lits as [|w lits IH]; intros v d; [reflexivity |].
  change (last (v :: w :: lits) d) with (last (w :: lits) d).
  rewrite IH. symmetry. apply IH.
Qed.

Lemma locals_after_nil (l : locals) : locals_after l [] = l.
Proof.
  destruct l as [pc li]. unfold locals_after. simpl. f_equal. lia.
Qed.

Lemma locals_after_cons (l : locals) (v : Z) (lits : list Z) :
  locals_after l (v :: lits)
  = locals_after (mkLocals (if v =? 0 then parsed_clauses l + 1
                            else parsed_clauses l) v) lits.
Proof.
  unfold locals_after. cbn [parsed_clauses lit]. rewrite last_cons_default.
  f_equal. simpl count_occ.
  destruct (Z.eqb_spec v 0) as [->|Hv].
  - destruct (Z.eq_dec 0 0); [| contradiction]. lia.
  - destruct (Z.eq_dec v 0); [contradiction | lia].
Qed.

Lemma body_loop_items (V M : Z) (items : list item) :
  Forall (item_ok V) items -> V <= INT_MAX -> M <= MAX_SIZE_T ->
  forall (fuel : nat) (l : locals) (s : state) (rest : list ascii),
    variables s = V -> 0 <= parsed_clauses l ->
    room M (parsed_clauses l) (literals items) ->
    file s = render_items items ++ rest ->
    (length (file s) < fuel)%nat ->
    exists fuel' s',
      (length rest < fuel')%nat
      /\ body_loop fuel M l s
         = body_loop fuel' M (locals_after l (literals items)) s'
      /\ reads (render_items items) s s' /\ file s' = rest
      /\ variables s' = V /\ added s' = added s ++ literals items.
Proof.
  intros Hitems HV HM.
  induction Hitems as [|i items Hi Hitems IH];
    intros fuel l s rest Hvars Hpc Hroom Hs Hfuel.
  - simpl in Hs. exists fuel, s. rewrite locals_after_nil. simpl.
    rewrite app_nil_r.
    split; [congruence |]. split; [reflexivity |].
    split; [apply reads_refl |]. auto.
  - destruct fuel as [|fuel]; [lia |].
    unfold render_items in *. cbn [flat_map] in *. rewrite <- app_assoc in Hs.
    assert (Hlen : forall s1, file s1 = flat_map render_item items ++ rest ->
                              (length (file s1) < fuel)%nat).
    { intros s1 E. rewrite Hs, length_app in Hfuel. rewrite E.
      pose proof (render_item_length i). lia. }
    cbn [body_loop].
    destruct i as [d|negative ds d]; cbn [literals].
    + destruct (body_iteration_skip M l d s _ Hi Hs)
        as (s1 & E1 & R1 & Hs1 & V1 & A1).
      rewrite (bind_ok _ _ _ _ _ E1).
      destruct (IH fuel l s1 rest) as (fuel' & s' & Hf & E & R & Hs' & V' & A');
        auto; try congruence.
      exists fuel', s'. split; [exact Hf |]. split; [exact E |].
      split; [exact (reads_trans _ _ _ _ _ R1 R) |].
      split; [exact Hs' |]. split; [exact V' | congruence].
    + destruct Hi as (Hn & Hv & Hd). cbn [room] in Hroom.
      destruct Hroom as [Hlt Hroom].
      destruct (body_iteration_literal M l negative ds d s
                  (flat_map render_item items ++ rest) Hn)
        as (s1 & E1 & R1 & Hs1 & V1 & A1); auto; try lia.
      rewrite (bind_ok _ _ _ _ _ E1).
      rewrite locals_after_cons.
      set (l1 := mkLocals _ _) in *.
      destruct (IH fuel l1 s1 rest) as (fuel' & s' & Hf & E & R & Hs' & V' & A');
        auto; try congruence.
      { subst l1. cbn [parsed_clauses]. destruct (_ =? 0); lia. }
      exists fuel', s'. split; [exact Hf |]. split; [exact E |].
      split; [exact (reads_trans _ _ _ _ _ R1 R) |].
      split; [exact Hs' |]. split; [exact V' |].
      rewrite A', A1, <- app_assoc. reflexivity.
Qed.

Lemma body_loop_eof (fuel : nat) (M : Z) (l : locals) (s : state) :
  file s = [] -> (0 < fuel)%nat -> body_loop fuel M l s = Ok l s.
Proof.
  intros Hs Hfuel. destruct fuel as [|fuel]; [lia |].
  assert (E : body_iteration M l s = Ok (Break, l) s).
  { unfold body_iteration. rewrite (bind_ok _ _ _ _ _ (next_eof s Hs)).
    run. reflexivity. }
  cbn [body_loop]. now rewrite (bind_ok _ _ _ _ _ E).
Qed.

Lemma closed_room (lits : list Z) (pc : Z) :
  last lits 0 = 0 ->
  room (pc + Z.of_nat (count_occ Z.eq_dec lits 0)) pc lits.
Proof.
  revert pc. induction lits as [|v lits IH]; intros pc Hlast; [exact I |].
  cbn [room]. rewrite last_cons_default in Hlast.
  simpl count_occ. destruct (Z.eqb_spec v 0) as [->|Hv].
  - destruct (Z.eq_dec 0 0); [| contradiction]. split; [lia |].
    destruct lits as [|w lits]; [exact I |].
    replace (pc + Z.of_nat (S (count_occ Z.eq_dec (w :: lits) 0)))
      with (pc + 1 + Z.of_nat (count_occ Z.eq_dec (w :: lits) 0)) by lia.
    apply IH. now rewrite last_cons_default in *.
  - destruct (Z.eq_dec v 0); [contradiction |].
    destruct lits as [|w lits]; [simpl in Hlast; contradiction |].
    assert (Hl : last (w :: lits) 0 = 0)
      by (rewrite last_cons_default in *; exact Hlast).
    specialize (IH pc Hl). split; [| exact IH].
    destruct (w :: lits) as [|w' lits'] eqn:E; [discriminate |].
    cbn [room] in IH. lia.
Qed.

(** ** The parser on a header and a body *)

(** The header and the items of a body take the parser into the clause loop
    at the text behind them, whatever that text is. *)
Lemma parse_prefix (V M : Z) (h : header) (items : list item)
    (rest : list ascii) (s : state) :
  header_ok V M h -> Forall (item_ok V) items ->
  room M 0 (literals items) ->
  file s = render_header h ++ render_items items ++ rest ->
  exists fuel s',
    (length rest < fuel)%nat
    /\ reads (render_header h ++ render_items items) s s'
    /\ file s' = rest /\ variables s' = V
    /\ added s' = added s ++ literals items
    /\ parse s
       = (l <- body_loop fuel M (locals_after (mkLocals 0 0) (literals items)) ;;
          l <- end_of_file M l ;;
          ret (M, parsed_clauses l)) s'.
Proof.
  intros Hh Hitems Hroom Hs.
  destruct (parse_header_text V M h s _ Hh Hs) as (s1 & E1 & R1 & Hs1 & V1 & A1).
  destruct Hh as ((_ & _ & _ & _ & _ & _ & _ & _ & HMmax) & HVmax).
  destruct (body_loop_items V M items Hitems HVmax HMmax
              (S (length (file s1))) (mkLocals 0 0) s1 rest)
    as (fuel & s2 & Hfuel & E2 & R2 & Hs2 & V2 & A2); auto.
  { cbn [parsed_clauses]. lia. }
  exists fuel, s2. repeat split; auto; try apply (reads_trans _ _ _ _ _ R1 R2).
  - congruence.
  - unfold parse, parse_body. rewrite (bind_ok _ _ _ _ _ E1).
    unfold bind. rewrite fueled_eq, E2.
    destruct (body_loop fuel M _ s2); reflexivity.
Qed.

Lemma end_of_file_closed (M : Z) (l : locals) (s : state) :
  lit l = 0 -> parsed_clauses l = M -> end_of_file M l s = Ok l s.
Proof.
  intros Hl Hp. unfold end_of_file. run. reflexivity.
Qed.




(** ** Too many clauses *)

Lemma body_iteration_excess (M : Z) (l : locals) (negative : bool) (c : ascii)
    (rest : list ascii) (s : state) :
  parsed_clauses l = M -> is_digit c ->
  file s = render_literal negative [c] ++ rest ->
  exists s',
    body_iteration M l s = ParseError "more clauses than specified" [] s'
    /\ reads (render_literal negative [c]) s s' /\ file s' = rest
    /\ added s' = added s.
Proof.
  intros Hpc Hc Hs. pose proof (digit_code c Hc) as Bc.
  unfold render_literal in *. unfold is_digit in Hc.
  destruct negative; cbn [app] in Hs; unfold body_iteration; run.
  - read_char as s1 N1 R1 V1 A1 Hs1. read_char as s2 N2 R2 V2 A2 Hs2.
    rewrite Hc. run. unfold parse_literal. run.
    exists s2. split; [reflexivity |].
    split; [cbn [app]; chain | split; congruence].
  - read_char as s2 N2 R2 V2 A2 Hs2.
    rewrite Hc. run. unfold parse_literal. run.
    exists s2. split; [reflexivity |].
    split; [cbn [app]; chain | split; congruence].
Qed.

Lemma closed_app (l1 l2 : list Z) : closed (l1 ++ l2) = closed l1 + closed l2.
Proof.
  unfold closed. rewrite count_occ_app. lia.
Qed.

(** C3, as the code has it.  Behind [M] closed clauses, the first literal
    that follows, zero or not, is rejected for being one clause too many: the
    error is raised right behind its first digit, with nothing of it handed
    to [satch_add] and the rest of the file unread, in the line of that
    literal. *)
Theorem too_many_clauses (V M : Z) (h : header) (items : list item)
    (negative : bool) (c : ascii) (rest : list ascii) :
  header_ok V M h -> Forall (item_ok V) items ->
  clauses_closed M (literals items) ->
  is_digit c ->
  exists s',
    parse (initial (render_header h ++ render_items items
                    ++ render_literal negative [c] ++ rest))
    = ParseError "more clauses than specified" [] s'
    /\ file s' = rest
    /\ added s' = literals items
    /\ lineno s' = 1 + newlines (render_header h ++ render_items items).
Proof.
  intros Hh Hitems [Hcount Hlast] Hc.
  set (input := render_header h ++ _).
  destruct (parse_prefix V M h items (render_literal negative [c] ++ rest)
              (initial input) Hh Hitems)
    as (fuel & s1 & Hfuel & R1 & Hs1 & Hv1 & Ha1 & E).
  { rewrite <- Hcount. apply (closed_room (literals items) 0 Hlast). }
  { reflexivity. }
  destruct (body_iteration_excess M
              (locals_after (mkLocals 0 0) (literals items))
              negative c rest s1)
    as (s2 & E2 & R2 & Hs2 & Ha2); auto.
  exists s2. rewrite E.
  destruct fuel as [|fuel]; [lia |].
  cbn [body_loop]. unfold bind. rewrite E2.
  repeat split; auto.
  - rewrite Ha2, Ha1. reflexivity.
  - destruct R1 as (_ & L1 & _). destruct R2 as (_ & L2 & _). rewrite L2, L1.
    cbn [initial lineno].
    assert (N : newlines (render_literal negative [c]) = 0).
    { pose proof (digit_code c Hc) as Bc.
      unfold render_literal, newlines.
      destruct negative; simpl;
        repeat match goal with
               | |- context [ascii_dec ?a ?b] =>
                   destruct (ascii_dec a b) as [X|X];
                   [try discriminate X; subst; vm_compute in Bc;
                    exfalso; destruct Bc as [Bc _]; now apply Bc |]
               end; reflexivity. }
    lia.
Qed.

(** ** A comment right behind a literal *)

Lemma newlines_digits (ds : list ascii) : Forall is_digit ds -> newlines ds = 0.
Proof.
  unfold newlines. induction 1 as [|c ds Hc _ IH]; [reflexivity |].
  simpl. destruct (ascii_dec c LF) as [->|_]; [| exact IH].
  apply digit_code in Hc. vm_compute in Hc. destruct Hc as [Hc _].
  now destruct Hc.
Qed.

Lemma newlines_comment (t : list ascii) : comment_text t -> newlines t = 0.
Proof.
  unfold newlines. induction 1 as [|c t [Hc _] _ IH]; [reflexivity |].
  simpl. destruct (ascii_dec c LF) as [->|_]; [contradiction | exact IH].
Qed.

Lemma newlines_literal (negative : bool) (ds : list ascii) :
  Forall is_digit ds -> newlines (render_literal negative ds) = 0.
Proof.
  intros H. unfold render_literal.
  rewrite newlines_app, (newlines_digits ds H). now destruct negative.
Qed.

(** C7.  When a [c] follows the digits of a literal with nothing in between,
    the iteration of the clause loop that reads the literal accepts it: the
    literal goes to [satch_add], the rest of the line is skipped as a
    comment, and the stream is left at the start of the next line, every
    byte of the literal and of the comment read and counted once and none of
    them again; the loop is continued. *)
Theorem comment_behind_literal (M : Z) (l : locals) (negative : bool)
    (ds t : list ascii) (e : eol) (s : state) (rest : list ascii) :
  numeral ds -> value ds <= variables s -> variables s <= INT_MAX ->
  comment_text t ->
  0 <= parsed_clauses l < M -> M <= MAX_SIZE_T ->
  file s = render_literal negative ds ++ "c"%char :: t ++ render_eol e ++ rest ->
  exists s',
    body_iteration M l s
    = Ok (Continue,
          mkLocals (if literal_value negative ds =? 0
                    then parsed_clauses l + 1 else parsed_clauses l)
                   (literal_value negative ds)) s'
    /\ file s = (render_literal negative ds ++ "c"%char :: t ++ render_eol e)
                ++ file s'
    /\ file s' = rest
    /\ lineno s' = lineno s + 1
    /\ wrap64 (bytes s')
       = wrap64 (bytes s
                 + Z.of_nat (length (render_literal negative ds
                                     ++ "c"%char :: t ++ render_eol e)))
    /\ added s' = added s ++ [literal_value negative ds].
Proof.
  intros Hn Hv HV Ht Hpc HM Hs.
  destruct (body_iteration_literal M l negative ds (Comment t e) s rest)
    as (s' & E & (F & L & B) & Hs' & V' & A'); auto.
  { cbn [render_item render_delimiter]. unfold render_comment.
    rewrite Hs, <- !app_assoc. cbn [app]. now rewrite <- app_assoc. }
  exists s'. split; [exact E |].
  split; [exact F | split; [exact Hs' | split; [| split; [exact B | exact A']]]].
  rewrite L. f_equal.
  cbn [render_item render_delimiter]. unfold render_comment.
  change ("c"%char :: t ++ render_eol e) with (["c"%char] ++ t ++ render_eol e).
  rewrite !newlines_app.
  rewrite (newlines_literal negative ds (proj1 (proj2 Hn))).
  rewrite (newlines_comment t Ht). now destruct e.
Qed.

(** ** What holds of every run, whatever the input *)

Lemma post_bind {A B} (m : M A) (k : A -> M B) (s : state)
    (Q : B -> state -> Prop) (E : state -> Prop) :
  post m s (fun a s' => post (k a) s' Q E) E -> post (bind m k) s Q E.
Proof.
  unfold post, bind. destruct (m s); auto.
Qed.

Lemma post_weaken {A} (m : M A) (s : state) (Q Q' : A -> state -> Prop)
    (E E' : state -> Prop) :
  post m s Q E ->
  (forall a s', Q a s' -> Q' a s') -> (forall s', E s' -> E' s') ->
  post m s Q' E'.
Proof.
  unfold post. destruct (m s); auto.
Qed.

Lemma post_ret {A} (a : A) (s : state) (Q : A -> state -> Prop)
    (E : state -> Prop) :
  Q a s -> post (ret a) s Q E.
Proof.
  auto.
Qed.

Lemma post_error {A} (fmt : string) (args : list Z) (s : state)
    (Q : A -> state -> Prop) (E : state -> Prop) :
  E s -> post (parse_error fmt args) s Q E.
Proof.
  auto.
Qed.

Lemma post_when (b : bool) (m : M unit) (s : state)
    (Q : unit -> state -> Prop) (E : state -> Prop) :
  (b = true -> post m s Q E) -> (b = false -> Q tt s) ->
  post (when b m) s Q E.
Proof.
  intros H1 H2. destruct b; [apply H1 | apply H2]; reflexivity.
Qed.

Lemma post_when_error (b : bool) (fmt : string) (args : list Z) (s : state)
    (Q : unit -> state -> Prop) (E : state -> Prop) :
  E s -> (b = false -> Q tt s) ->
  post (when b (parse_error fmt args)) s Q E.
Proof.
  intros. apply post_when; auto.
Qed.

Lemma post_assert (expr : string) (b : bool) (s : state)
    (Q : unit -> state -> Prop) (E : state -> Prop) :
  b = true -> Q tt s -> post (assert expr b) s Q E.
Proof.
  intros ->. auto.
Qed.

Lemma post_int_val (z : Z) (s : state) (Q : Z -> state -> Prop)
    (E : state -> Prop) :
  INT_MIN <= z <= INT_MAX -> Q z s -> post (int_val z) s Q E.
Proof.
  intros H HQ. unfold post. now rewrite int_val_ok.
Qed.

Lemma steady_refl (s : state) : steady s s.
Proof.
  repeat split. lia.
Qed.

Lemma steady_trans (s1 s2 s3 : state) :
  steady s1 s2 -> steady s2 s3 -> steady s1 s3.
Proof.
  intros (A1 & V1 & L1) (A2 & V2 & L2). repeat split; try congruence. lia.
Qed.

Lemma next_spec (s : state) :
  post next s
       (fun ch s' => steady s s' /\ -1 <= ch < 256
                     /\ (ch <> -1 -> (length (file s') < length (file s))%nat))
       (steady s).
Proof.
  assert (done : forall f l b,
             (length f <= length (file s))%nat ->
             steady s (mkState f l b (variables s) (added s)))
    by (intros; repeat split; assumption).
  unfold post. destruct (file s) as [|c rest] eqn:F.
  - rewrite next_eof by exact F. split; [apply steady_refl |]. unfold EOF. lia.
  - destruct (ascii_dec c CR) as [->|Hc].
    + destruct rest as [|d rest].
      * unfold next, bind, getc. rewrite F. simpl. apply done. simpl. lia.
      * destruct (ascii_dec d LF) as [->|Hd].
        -- rewrite (next_crlf s rest F). unfold advance. cbn [file].
           rewrite F. cbn [tl]. codes.
           split; [apply done; simpl; lia | split; [lia | simpl; lia]].
        -- unfold next, bind, getc. rewrite F. simpl.
           destruct (Z.eqb_spec (code d) (code LF)) as [X|_];
             [apply code_inj in X; contradiction |].
           simpl. apply done. simpl. lia.
    + rewrite (next_char s c rest F Hc). pose proof (code_range c).
      unfold advance. cbn [file]. rewrite F. cbn [tl].
      split; [apply done; simpl; lia | split; [lia | simpl; lia]].
Qed.

Lemma post_get_variables (s : state) (Q : Z -> state -> Prop)
    (E : state -> Prop) :
  Q (variables s) s -> post get_variables s Q E.
Proof.
  auto.
Qed.

Lemma post_set_variables (v : Z) (s : state) (Q : unit -> state -> Prop)
    (E : state -> Prop) :
  Q tt (mkState (file s) (lineno s) (bytes s) v (added s)) ->
  post (set_variables v) s Q E.
Proof.
  auto.
Qed.

Lemma post_satch_add (x : Z) (s : state) (Q : unit -> state -> Prop)
    (E : state -> Prop) :
  Q tt (mkState (file s) (lineno s) (bytes s) (variables s) (added s ++ [x])) ->
  post (satch_add x) s Q E.
Proof.
  auto.
Qed.

Lemma post_fueled {A} (loop : nat -> M A) (s : state)
    (Q : A -> state -> Prop) (E : state -> Prop) :
  (forall fuel, (length (file s) < fuel)%nat -> post (loop fuel) s Q E) ->
  post (fueled loop) s Q E.
Proof.
  intros H. unfold fueled. apply H. lia.
Qed.

(** Read a character in a proof of [post]: the rest is to be shown for
    every character and state [next] may give. *)
Ltac post_next ch s1 St R L :=
  apply post_bind; eapply post_weaken;
  [ apply next_spec
  | cbv beta; intros ch s1 (St & R & L)
  | cbv beta; intros; eauto using steady_trans ].

Lemma skip_line_spec (msg : string) (fuel : nat) :
  forall s, (length (file s) < fuel)%nat ->
            post (skip_line msg fuel) s (fun _ s' => steady s s') (steady s).
Proof.
  induction fuel as [|fuel IH]; intros s H; [lia |].
  cbn [skip_line]. post_next ch s1 St R L.
  destruct (Z.eqb_spec ch (code LF)) as [_|_]; cbn [negb];
    [apply post_ret; exact St |].
  destruct (Z.eqb_spec ch EOF) as [_|N]; [apply post_error; exact St |].
  eapply post_weaken; [apply IH | |]; cbv beta; intros;
    eauto using steady_trans.
  unfold EOF in N. specialize (L N). lia.
Qed.

Lemma skip_blanks_spec (fuel : nat) :
  forall s, (length (file s) < fuel)%nat ->
            post (skip_blanks fuel) s (fun _ s' => steady s s') (steady s).
Proof.
  induction fuel as [|fuel IH]; intros s H; [lia |].
  cbn [skip_blanks]. post_next ch s1 St R L.
  destruct ((ch =? code " ") || (ch =? code TAB)) eqn:B;
    [| apply post_ret; exact St].
  eapply post_weaken; [apply IH | |]; cbv beta; intros;
    eauto using steady_trans.
  assert (ch <> -1) by (codes; destruct (Z.eqb_spec ch 32);
                        destruct (Z.eqb_spec ch 9); simpl in B; try lia;
                        discriminate).
  specialize (L H0). lia.
Qed.

Lemma header_comments_spec (fuel : nat) :
  forall s, (length (file s) < fuel)%nat ->
            post (header_comments fuel) s (fun _ s' => steady s s') (steady s).
Proof.
  induction fuel as [|fuel IH]; intros s H; [lia |].
  cbn [header_comments]. post_next ch s1 St R L.
  destruct (Z.eqb_spec ch (code "c")) as [C|_]; [| apply post_ret; exact St].
  apply post_bind. apply post_fueled. intros fuel' Hf.
  eapply post_weaken; [apply skip_line_spec; exact Hf | |]; cbv beta;
    [| intros; eauto using steady_trans].
  intros _ s2 St2.
  eapply post_weaken; [apply IH | |]; cbv beta; intros;
    eauto using steady_trans.
  assert (ch <> -1) by (codes; lia).
  specialize (L H0). destruct St2 as (_ & _ & L2). lia.
Qed.

Lemma isdigit_digit (ch : Z) : isdigit ch = true -> 0 <= ch - code "0" <= 9.
Proof.
  intros H. apply isdigit_iff in H. codes. lia.
Qed.

Lemma literal_digits_spec (fuel : nat) :
  forall s acc, (length (file s) < fuel)%nat -> 0 <= acc <= INT_MAX ->
    post (literal_digits fuel acc) s
         (fun r s' => steady s s' /\ 0 <= fst r <= INT_MAX)
         (steady s).
Proof.
  induction fuel as [|fuel IH]; intros s acc H Hacc; [lia |].
  cbn [literal_digits]. post_next ch s1 St R L.
  destruct (isdigit ch) eqn:D; [| apply post_ret; split; [exact St | exact Hacc]].
  pose proof (isdigit_digit ch D) as Hd. apply isdigit_iff in D.
  apply post_bind, post_when_error; [exact St | intros _].
  apply post_bind, post_when_error; [exact St | intros B].
  change (INT_MAX ÷ 10) with 214748364 in B. apply Z.ltb_ge in B.
  apply post_bind, post_int_val; [arith |].
  apply post_bind, post_int_val; [arith |].
  apply post_bind, post_when_error; [exact St | intros B2].
  apply Z.ltb_ge in B2.
  apply post_bind, post_int_val; [arith |].
  eapply post_weaken; [apply IH | |]; cbv beta.
  - assert (ch <> -1) by lia. specialize (L H0). lia.
  - arith.
  - intros r s' [St' Hr]. split; [eauto using steady_trans | exact Hr].
  - intros; eauto using steady_trans.
Qed.

Lemma clauses_digits_spec (fuel : nat) :
  forall s acc, (length (file s) < fuel)%nat -> 0 <= acc <= MAX_SIZE_T ->
    post (clauses_digits fuel acc) s
         (fun r s' => steady s s' /\ 0 <= fst r <= MAX_SIZE_T)
         (steady s).
Proof.
  induction fuel as [|fuel IH]; intros s acc H Hacc; [lia |].
  cbn [clauses_digits]. post_next ch s1 St R L.
  destruct (isdigit ch) eqn:D; [| apply post_ret; split; [exact St | exact Hacc]].
  pose proof (isdigit_digit ch D) as Hd. apply isdigit_iff in D.
  apply post_bind, post_when_error; [exact St | intros _].
  apply post_bind, post_when_error; [exact St | intros B].
  apply post_bind, post_int_val; [arith |].
  apply post_bind, post_when_error; [exact St | intros B2].
  eapply post_weaken; [apply IH | |]; cbv beta.
  - assert (ch <> -1) by lia. specialize (L H0). lia.
  - unfold wrap64, MAX_SIZE_T.
    match goal with
    | |- 0 <= ?z mod ?m <= _ => pose proof (Z.mod_pos_bound z m eq_refl)
    end.
    change (2 ^ 64) with 18446744073709551616 in *. lia.
  - intros r s' [St' Hr]. split; [eauto using steady_trans | exact Hr].
  - intros; eauto using steady_trans.
Qed.

Lemma in_header_steady (s0 s1 s2 : state) :
  in_header s0 s1 -> steady s1 s2 -> in_header s0 s2.
Proof.
  intros (A1 & V1 & L1) (A2 & V2 & L2).
  repeat split; try congruence; try lia.
Qed.

Lemma variables_digits_spec (fuel : nat) :
  forall s0 s, (length (file s) < fuel)%nat -> in_header s0 s ->
    post (variables_digits fuel) s (fun _ s' => in_header s0 s') (in_header s0).
Proof.
  induction fuel as [|fuel IH]; intros s0 s H Hs; [lia |].
  cbn [variables_digits].
  apply post_bind; eapply post_weaken;
    [ apply next_spec | cbv beta; intros ch s1 (St & R & L)
    | cbv beta; intros; eauto using in_header_steady ].
  pose proof (in_header_steady _ _ _ Hs St) as H1.
  destruct (isdigit ch) eqn:D; [| apply post_ret; exact H1].
  pose proof (isdigit_digit ch D) as Hd. apply isdigit_iff in D.
  destruct H1 as (A1 & V1 & L1).
  apply post_bind, post_get_variables.
  apply post_bind, post_when_error; [split; [| split]; assumption | intros _].
  apply post_bind, post_when_error; [split; [| split]; assumption | intros B].
  change (INT_MAX ÷ 10) with 214748364 in B. apply Z.ltb_ge in B.
  apply post_bind, post_int_val; [arith |].
  apply post_bind, post_set_variables.
  apply post_bind, post_int_val; [arith |].
  apply post_bind, post_when_error;
    [split; [| split]; cbn [added variables file]; auto; arith | intros B2].
  apply Z.ltb_ge in B2.
  apply post_bind, post_int_val; [arith |].
  apply post_bind, post_set_variables.
  apply IH; cbn [file].
  - assert (ch <> -1) by lia. specialize (L H0). lia.
  - split; [| split]; cbn [added variables file]; auto; arith.
Qed.

(** The header leaves a number of variables and a number of clauses in the
    ranges of their types, and adds no literal. *)
Lemma parse_header_spec (s : state) :
  added s = [] ->
  post parse_header s
       (fun sc s' => added s' = [] /\ 0 <= variables s' <= INT_MAX
                     /\ 0 <= sc <= MAX_SIZE_T)
       (fun s' => added s' = []).
Proof.
  intros Ha. unfold parse_header.
  assert (err : forall s', steady s s' -> added s' = [])
    by (intros s' (A & _); congruence).
  assert (step : forall (k : Z -> M Z) (s1 : state)
                        (Q : Z -> state -> Prop),
             steady s s1 ->
             (forall ch s2, steady s s2 -> post (k ch) s2 Q (fun s' => added s' = [])) ->
             post (ch <- next ;; k ch) s1 Q (fun s' => added s' = [])).
  { intros k s1 Q St Hk. apply post_bind.
    eapply post_weaken; [apply next_spec | cbv beta | cbv beta].
    - intros ch s2 (St2 & _). apply Hk. eauto using steady_trans.
    - intros s2 St2. apply err. eauto using steady_trans. }
  assert (blank : forall (k : Z -> M Z) (s1 : state)
                         (Q : Z -> state -> Prop),
             steady s s1 ->
             (forall ch s2, steady s s2 -> post (k ch) s2 Q (fun s' => added s' = [])) ->
             post (ch <- fueled skip_blanks ;; k ch) s1 Q (fun s' => added s' = [])).
  { intros k s1 Q St Hk. apply post_bind, post_fueled. intros fuel Hf.
    eapply post_weaken; [apply skip_blanks_spec; exact Hf | cbv beta | cbv beta].
    - intros ch s2 St2. apply Hk. eauto using steady_trans.
    - intros s2 St2. apply err. eauto using steady_trans. }
  apply post_bind, post_fueled. intros fuel Hf.
  eapply post_weaken; [apply header_comments_spec; exact Hf | cbv beta | exact err].
  intros ch s0 St0.
  apply post_bind, post_when_error; [auto | intros _].
  apply step; [exact St0 | intros ch1 s1 St1].
  apply post_bind, post_when_error; [auto | intros _].
  apply step; [exact St1 | intros ch2 s2 St2].
  apply post_bind, post_when_error; [auto | intros _].
  apply step; [exact St2 | intros ch3 s3 St3].
  apply post_bind, post_when_error; [auto | intros _].
  apply step; [exact St3 | intros ch4 s4 St4].
  apply post_bind, post_when_error; [auto | intros _].
  apply step; [exact St4 | intros ch5 s5 St5].
  apply post_bind, post_when_error; [auto | intros _].
  apply blank; [exact St5 | intros ch6 s6 St6]. unfold parse_numbers.
  apply post_bind, post_when_error; [auto | intros D].
  apply negb_false_iff in D. pose proof (isdigit_digit ch6 D) as Hd.
  apply post_bind, post_int_val; [arith |].
  apply post_bind, post_set_variables.
  apply post_bind, post_fueled. intros fuel7 Hf7.
  destruct St6 as (A6 & V6 & L6).
  eapply post_weaken;
    [ apply (variables_digits_spec fuel7 s); [exact Hf7 |] | cbv beta | cbv beta ].
  { split; [| split]; cbn [added variables file]; auto; try congruence; arith. }
  2: { intros s' (A & _). congruence. }
  intros ch7 s7 (A7 & V7 & L7).
  assert (St7 : forall s', steady s7 s' -> added s' = [] /\ 0 <= variables s' <= INT_MAX).
  { intros s' (A & V & _). split; congruence. }
  assert (err7 : forall s', steady s7 s' -> added s' = [])
    by (intros s' H; apply St7; exact H).
  clear step blank.
  apply post_bind, post_get_variables.
  apply post_bind, post_when_error; [congruence | intros _].
  apply post_bind, post_fueled. intros fuel8 Hf8.
  eapply post_weaken; [apply skip_blanks_spec; exact Hf8 | cbv beta | exact err7].
  intros ch8 s8 St8.
  apply post_bind, post_when_error; [auto | intros D8].
  apply negb_false_iff in D8. pose proof (isdigit_digit ch8 D8) as Hd8.
  apply post_bind, post_fueled. intros fuel9 Hf9.
  eapply post_weaken;
    [ apply clauses_digits_spec; [exact Hf9 |] | cbv beta | cbv beta ].
  { rewrite wrap64_small; arith. }
  2: { intros; eauto using steady_trans. }
  intros [sc ch9] s9 [St9 Hsc]. cbn [fst] in Hsc.
  assert (St9' : steady s7 s9) by eauto using steady_trans.
  apply post_bind.
  assert (fin : forall c' s', steady s7 s' ->
              post (when (negb (c' =? code LF))
                      (parse_error "expected new line after 'p cnf %d %zu'"
                         [variables s7; sc]) ;; ret sc) s'
                   (fun sc0 s'0 => added s'0 = [] /\ 0 <= variables s'0 <= INT_MAX
                                   /\ 0 <= sc0 <= MAX_SIZE_T)
                   (fun s'0 => added s'0 = [])).
  { intros c' s' St'. apply post_bind, post_when_error; [auto | intros _].
    apply post_ret. destruct (St7 s' St'). auto. }
  destruct ((ch9 =? code " ") || (ch9 =? code TAB)).
  - apply post_fueled. intros fuel10 Hf10.
    eapply post_weaken; [apply skip_blanks_spec; exact Hf10 | cbv beta | cbv beta].
    + intros ch10 s10 St10. apply fin. eauto using steady_trans.
    + intros. apply err7. eauto using steady_trans.
  - apply post_ret. apply fin. exact St9'.
Qed.

Lemma bounded_steady (s s' : state) : bounded s -> steady s s' -> bounded s'.
Proof.
  intros [B V] (A' & V' & _). unfold bounded. rewrite A', V'. auto.
Qed.

(** A literal is added only if it is a variable of the header or the
    negation of one, and no clause is counted beyond the specified ones. *)
Lemma parse_literal_spec (M : Z) (l : locals) (sign ch : Z) (s : state) :
  sign = 1 \/ sign = -1 -> isdigit ch = true ->
  0 <= parsed_clauses l <= M -> M <= MAX_SIZE_T ->
  bounded s ->
  post (parse_literal M l sign ch) s
       (fun r s' => bounded s' /\ variables s' = variables s
                    /\ fst r = Continue
                    /\ 0 <= parsed_clauses (snd r) <= M
                    /\ (length (file s') <= length (file s))%nat)
       (fun s' => bounded s' /\ variables s' = variables s).
Proof.
  intros Hsign D Hpc HM HB. unfold parse_literal.
  assert (err : forall s', steady s s' -> bounded s' /\ variables s' = variables s).
  { intros s' St. split; [eapply bounded_steady; eauto | apply St]. }
  pose proof (isdigit_digit ch D) as Hd.
  apply post_bind, post_assert; [apply Z.leb_le; lia |].
  apply post_bind, post_when_error; [apply err, steady_refl | intros Hlt].
  apply Z.eqb_neq in Hlt.
  apply post_bind, post_int_val; [arith |].
  apply post_bind, post_fueled. intros fuel Hf.
  eapply post_weaken;
    [ apply literal_digits_spec; [exact Hf | arith] | cbv beta | exact err ].
  intros [lit1 ch1] s1 [St1 Hlit1]. cbn [fst] in Hlit1.
  apply post_bind, post_assert;
    [apply negb_true_iff, Z.eqb_neq; arith |].
  apply post_bind, post_int_val; [destruct Hsign; subst sign; arith |].
  apply post_bind, post_when_error; [apply err, St1 | intros _].
  apply post_bind, post_assert;
    [apply negb_true_iff, Z.eqb_neq; destruct Hsign; subst sign; arith |].
  apply post_bind, post_get_variables.
  apply post_bind, post_int_val; [destruct Hsign; subst sign; arith |].
  apply post_bind, post_when_error; [apply err, St1 | intros Hle].
  apply Z.ltb_ge in Hle.
  apply post_bind, post_satch_add.
  set (s2 := mkState _ _ _ _ _).
  assert (B2 : bounded s2 /\ variables s2 = variables s).
  { destruct St1 as (A1 & V1 & L1). destruct HB as [HB HV].
    subst s2. unfold bounded. cbn [added variables].
    rewrite A1, V1 in *. split; [split; [| exact HV] | reflexivity].
    apply Forall_app. split; [exact HB | constructor; [exact Hle | constructor]]. }
  assert (L2 : (length (file s2) <= length (file s))%nat) by apply St1.
  assert (fin : forall s', steady s2 s' ->
              bounded s' /\ variables s' = variables s).
  { intros s' St. destruct B2 as [B2 V2].
    split; [eapply bounded_steady; eauto | destruct St as (_ & V & _); congruence]. }
  clearbody s2.
  apply post_bind, post_when.
  - intros _. apply post_fueled. intros fuel2 Hf2.
    eapply post_weaken; [apply skip_line_spec; exact Hf2 | cbv beta | exact fin].
    intros _ s3 St3. apply post_ret. cbn [fst snd parsed_clauses].
    destruct (fin s3 St3) as [B3 V3]. destruct St3 as (_ & _ & L3).
    split; [exact B3 | split; [exact V3 | split; [reflexivity | split; [| lia]]]].
    destruct (lit1 * sign =? 0); [rewrite wrap64_small; arith | arith].
  - intros _. apply post_ret. cbn [fst snd parsed_clauses].
    destruct B2 as [B2 V2].
    split; [exact B2 | split; [exact V2 | split; [reflexivity | split; [| lia]]]].
    destruct (lit1 * sign =? 0); [rewrite wrap64_small; arith | arith].
Qed.

Lemma body_iteration_spec (M : Z) (l : locals) (s : state) :
  0 <= parsed_clauses l <= M -> M <= MAX_SIZE_T -> bounded s ->
  post (body_iteration M l) s
       (fun r s' => bounded s' /\ variables s' = variables s
                    /\ 0 <= parsed_clauses (snd r) <= M
                    /\ (fst r = Continue ->
                        (length (file s') < length (file s))%nat))
       (fun s' => bounded s' /\ variables s' = variables s).
Proof.
  intros Hpc HM HB. unfold body_iteration.
  assert (err : forall s', steady s s' -> bounded s' /\ variables s' = variables s).
  { intros s' St. split; [eapply bounded_steady; eauto | apply St]. }
  apply post_bind.
  eapply post_weaken; [apply next_spec | cbv beta | exact err].
  intros ch s1 (St1 & R1 & L1).
  destruct (err s1 St1) as [B1 V1].
  destruct ((ch =? code " ") || (ch =? code TAB) || (ch =? code LF)) eqn:W.
  { apply post_ret. cbn [fst snd]. repeat split; auto; try lia; try apply B1.
    intros _. apply L1. codes.
    destruct (Z.eqb_spec ch 32); destruct (Z.eqb_spec ch 9);
      destruct (Z.eqb_spec ch 10); simpl in W; try lia; discriminate. }
  destruct (Z.eqb_spec ch EOF) as [->|N].
  { apply post_ret. cbn [fst snd]. repeat split; auto; try lia; try apply B1.
    discriminate. }
  unfold EOF in N. specialize (L1 N).
  destruct (Z.eqb_spec ch (code "c")) as [->|NC].
  { apply post_bind, post_fueled. intros fuel Hf.
    eapply post_weaken; [apply skip_line_spec; exact Hf | cbv beta | cbv beta].
    - intros _ s2 St2. apply post_ret. cbn [fst snd].
      destruct (err s2 (steady_trans _ _ _ St1 St2)) as [B2 V2].
      destruct St2 as (_ & _ & L2).
      repeat split; auto; try lia; apply B2.
    - intros s2 St2. apply err. eauto using steady_trans. }
  apply post_bind.
  assert (lit_ok : forall sign c2 s2, sign = 1 \/ sign = -1 ->
             isdigit c2 = true -> steady s s2 ->
             (length (file s2) < length (file s))%nat ->
             post (parse_literal M l sign c2) s2
                  (fun r s' => bounded s' /\ variables s' = variables s
                               /\ 0 <= parsed_clauses (snd r) <= M
                               /\ (fst r = Continue ->
                                   (length (file s') < length (file s))%nat))
                  (fun s' => bounded s' /\ variables s' = variables s)).
  { intros sign c2 s2 Hsign D2 St2 L2.
    destruct (err s2 St2) as [B2 V2].
    eapply post_weaken;
      [ apply parse_literal_spec; eauto | cbv beta | cbv beta ].
    - intros r s' (B' & V' & C' & P' & L'). repeat split; auto; try lia;
        try apply B'; congruence.
    - intros s' [B' V']. split; [exact B' | congruence]. }
  destruct (Z.eqb_spec ch (code "-")) as [->|NM].
  - apply post_bind.
    eapply post_weaken; [apply next_spec | cbv beta | cbv beta].
    + intros c2 s2 (St2 & R2 & L2).
      apply post_bind, post_when_error;
        [apply err; eauto using steady_trans | intros D2].
      apply negb_false_iff in D2. apply post_ret.
      apply lit_ok; auto; [eauto using steady_trans |].
      destruct St2 as (_ & _ & L2'). lia.
    + intros s2 St2. apply err. eauto using steady_trans.
  - apply post_bind, post_when_error; [apply err, St1 | intros D].
    apply negb_false_iff in D. apply post_ret.
    apply lit_ok; auto.
Qed.

Lemma body_loop_spec (M : Z) (fuel : nat) :
  forall (l : locals) (s : state),
    (length (file s) < fuel)%nat ->
    0 <= parsed_clauses l <= M -> M <= MAX_SIZE_T -> bounded s ->
    post (body_loop fuel M l) s
         (fun l' s' => bounded s' /\ variables s' = variables s
                       /\ 0 <= parsed_clauses l' <= M)
         (fun s' => bounded s' /\ variables s' = variables s).
Proof.
  induction fuel as [|fuel IH]; intros l s Hf Hpc HM HB; [lia |].
  cbn [body_loop]. apply post_bind.
  eapply post_weaken; [apply body_iteration_spec; eauto | cbv beta | auto].
  intros [c l'] s1 (B1 & V1 & P1 & L1). cbn [fst snd] in *.
  destruct c.
  - eapply post_weaken; [apply IH; auto | cbv beta | cbv beta].
    + specialize (L1 eq_refl). lia.
    + intros l2 s2 (B2 & V2 & P2).
      split; [exact B2 | split; [congruence | exact P2]].
    + intros s2 [B2 V2]. split; [exact B2 | congruence].
  - apply post_ret. split; [exact B1 | split; [exact V1 | exact P1]].
Qed.

(** [parse] ends for every input, with a result or with a parse error, and
    never in an assertion that fails, in a signed overflow, or for want of
    fuel; the literals added are variables of the header or negations. *)
Lemma parse_spec (input : list ascii) :
  post parse (initial input)
       (fun _ s' => bounded s') (fun s' => bounded s' \/ added s' = []).
Proof.
  unfold parse. apply post_bind.
  eapply post_weaken; [apply parse_header_spec; reflexivity | cbv beta | auto].
  intros sc s1 (A1 & V1 & Hsc).
  assert (B1 : bounded s1) by (split; [rewrite A1; constructor | exact V1]).
  apply post_bind. unfold parse_body. apply post_bind, post_fueled.
  intros fuel Hf.
  eapply post_weaken;
    [ apply body_loop_spec; eauto; cbn [parsed_clauses]; lia
    | cbv beta | cbv beta; intros s' [B' _]; now left ].
  intros l s2 (B2 & V2 & P2). unfold end_of_file.
  apply post_bind, post_when_error; [now left | intros _].
  apply post_bind, post_when.
  - intros _. destruct (wrap64 (parsed_clauses l + 1) =? sc);
      apply post_error; now left.
  - intros _. exact B2.
Qed.

(** ** The number of variables at the end of the range of [int] *)

Lemma value_from_app (acc : Z) (ds1 ds2 : list ascii) :
  value_from acc (ds1 ++ ds2) = value_from (value_from acc ds1) ds2.
Proof.
  unfold value_from. apply fold_left_app.
Qed.

(** The loop over the digits stops at the first digit with which the number
    read so far does not fit an [int] any more. *)
Lemma variables_digits_overflow (ds : list ascii) :
  Forall is_digit ds ->
  forall (fuel : nat) (s : state) (rest : list ascii),
    file s = ds ++ rest ->
    (length ds < fuel)%nat ->
    0 < variables s <= INT_MAX ->
    INT_MAX < value_from (variables s) ds ->
    exists pre c post s',
      ds = pre ++ c :: post
      /\ value_from (variables s) pre <= INT_MAX
         < value_from (variables s) (pre ++ [c])
      /\ variables_digits fuel s
         = ParseError (if INT_MAX ÷ 10 <? value_from (variables s) pre
                       then "maximum variable number way too big"
                       else "maximum variable number too big") [] s'
      /\ file s' = post ++ rest /\ added s' = added s.
Proof.
  induction 1 as [|c ds Hc Hds IH]; intros fuel s rest Hs Hfuel Hv Hover.
  - unfold value_from in Hover. simpl in Hover. lia.
  - destruct fuel as [|fuel]; [simpl in Hfuel; lia |].
    simpl in Hs. rewrite value_from_cons in Hover.
    cbn [variables_digits].
    destruct (next_step s c _ Hs) as (s1 & N1 & (R1 & V1 & A1) & Hs1);
      [now apply digit_not_CR |].
    rewrite (bind_ok _ _ _ _ _ N1).
    assert (Hc' := Hc). unfold is_digit in Hc'. rewrite Hc'.
    apply digit_code in Hc.
    destruct (Z.ltb_spec 214748364 (variables s)) as [Hway|Hway].
    { exists [], c, ds, s1. cbn [app].
      change (value_from (variables s) []) with (variables s).
      rewrite value_from_cons.
      change (value_from (10 * variables s + (code c - 48)) [])
        with (10 * variables s + (code c - 48)).
      repeat split; auto; try arith.
      run. rewrite ?V1. run. reflexivity. }
    destruct (Z.ltb_spec (INT_MAX - (code c - 48)) (variables s * 10)) as [Hbig|Hbig].
    { exists [], c, ds,
        (mkState (file s1) (lineno s1) (bytes s1) (variables s * 10) (added s1)).
      cbn [app].
      change (value_from (variables s) []) with (variables s).
      rewrite value_from_cons.
      change (value_from (10 * variables s + (code c - 48)) [])
        with (10 * variables s + (code c - 48)).
      split; [reflexivity |]. split; [arith |].
      run. rewrite ?V1. run. unfold set_variables. run.
      split; [reflexivity |]. cbn [file added]. auto. }
    run. rewrite ?V1. run. unfold set_variables. run.
    set (s2 := mkState _ _ _ _ _).
    destruct (IH fuel s2 rest) as (pre & c' & post & s' & E & B & P & F & A).
    + subst s2. cbn [file]. exact Hs1.
    + simpl in Hfuel. lia.
    + subst s2. cbn [variables]. arith.
    + subst s2. cbn [variables].
      replace (variables s * 10 + (code c - 48))
        with (10 * variables s + (code c - 48)) by lia. exact Hover.
    + exists (c :: pre), c', post, s'. subst s2. cbn [variables added] in *.
      rewrite <- !app_comm_cons, !value_from_cons.
      replace (10 * variables s + (code c - 48))
        with (variables s * 10 + (code c - 48)) by lia.
      change (INT_MAX ÷ 10) with 214748364 in P.
      split; [now rewrite E |]. split; [exact B |].
      split; [exact P |]. split; [exact F | congruence].
Qed.

(** C2.  Behind a header line that is well formed up to its number of
    variables, every number up to [INT_MAX] is taken as the number of
    variables, and every number from [INT_MAX + 1] on is a parse error: the
    digits are added up from left to right, and the error is raised at the
    first digit with which the number leaves the range of [int], the digits
    behind it unread. *)
Theorem variables_up_to_int_max (V M : Z) (h : header) (rest : list ascii) :
  header_shape V M h ->
  (V <= INT_MAX ->
   exists s',
     parse_header (initial (render_header h ++ rest)) = Ok M s'
     /\ variables s' = V /\ file s' = rest)
  /\ (INT_MAX < V ->
      exists pre c post s',
        declared_variables h = pre ++ c :: post
        /\ value pre <= INT_MAX < value (pre ++ [c])
        /\ parse (initial (render_header h ++ rest))
           = ParseError (if INT_MAX ÷ 10 <? value pre
                         then "maximum variable number way too big"
                         else "maximum variable number too big") [] s'
        /\ file s' = post ++ " "%char :: blanks2 h ++ declared_clauses h
                     ++ blanks3 h ++ render_eol (header_eol h) ++ rest).
Proof.
  intros Hshape. split.
  - intros HV.
    destruct (parse_header_text V M h (initial (render_header h ++ rest)) rest)
      as (s' & E & _ & F & Hv & _); [split; assumption | reflexivity |].
    exists s'. auto.
  - intros HV. destruct h as [cs b1 dV b2 dM b3 e].
    unfold header_shape, render_header in *.
    cbn [leading blanks1 blanks2 blanks3 declared_variables declared_clauses
         header_eol] in *.
    destruct Hshape as (Hcs & Hb1 & Hb2 & Hb3 & HnV & HVal & HnM & HM & HMmax).
    destruct (numeral_inv _ HnV) as (cv & dv & -> & Hcv & Hdv & Hposv & Hvalv).
    pose proof (digit_code _ Hcv) as Bcv.
    set (tail := " "%char :: b2 ++ dM ++ b3 ++ render_eol e ++ rest).
    set (s := initial _).
    assert (Hs : file s
                 = flat_map (fun l => render_comment (fst l) (snd l)) cs
                   ++ list_ascii_of_string "p cnf " ++ b1 ++ cv :: dv ++ tail).
    { subst s tail. cbn [initial file].
      repeat (rewrite <- app_assoc || rewrite <- app_comm_cons). reflexivity. }
    destruct (parse_header_start cs b1 cv _ s Hcs Hb1 Hcv Hs)
      as (s8 & E8 & (R8 & V8 & A8) & Hs8).
    assert (Hdv' : dv <> []).
    { intros ->. rewrite Hvalv in HVal. unfold value_from in HVal.
      simpl in HVal. arith. }
    set (s9 := mkState (file s8) (lineno s8) (bytes s8) (code cv - 48) (added s8)).
    destruct (variables_digits_overflow dv Hdv (S (length (file s9))) s9 tail)
      as (pre & c & post & s' & E & B & P & F & A).
    { exact Hs8. }
    { subst s9. cbn [file]. rewrite Hs8, length_app. lia. }
    { subst s9. cbn [variables]. specialize (Hposv Hdv'). arith. }
    { subst s9. cbn [variables]. rewrite <- Hvalv, HVal. exact HV. }
    cbn [variables] in B, P.
    exists (cv :: pre), c, post, s'.
    assert (Ev : forall k, value (cv :: k) = value_from (code cv - 48) k)
      by reflexivity.
    rewrite <- app_comm_cons, !Ev.
    split; [now rewrite E |]. split; [exact B |]. split; [| exact F].
    unfold parse. unfold bind at 1. rewrite E8.
    unfold parse_numbers. unfold is_digit in Hcv. rewrite Hcv. run.
    unfold set_variables. run. fold s9. rewrite fueled_eq, P.
    reflexivity.
Qed.

(** ** Literals beyond the number of variables *)

Lemma literal_digits_overflow (ds : list ascii) :
  Forall is_digit ds ->
  forall (fuel : nat) (acc : Z) (s : state) (rest : list ascii),
    file s = ds ++ rest ->
    (length ds < fuel)%nat ->
    0 < acc <= INT_MAX ->
    INT_MAX < value_from acc ds ->
    exists fmt s', literal_digits fuel acc s = ParseError fmt [] s'.
Proof.
  induction 1 as [|c ds Hc Hds IH]; intros fuel acc s rest Hs Hfuel Hv Hover.
  - unfold value_from in Hover. simpl in Hover. lia.
  - destruct fuel as [|fuel]; [simpl in Hfuel; lia |].
    simpl in Hs. rewrite value_from_cons in Hover.
    cbn [literal_digits].
    destruct (next_step s c _ Hs) as (s1 & N1 & (R1 & V1 & A1) & Hs1);
      [now apply digit_not_CR |].
    rewrite (bind_ok _ _ _ _ _ N1).
    assert (Hc' := Hc). unfold is_digit in Hc'. rewrite Hc'.
    apply digit_code in Hc.
    destruct (Z.ltb_spec 214748364 acc) as [Hway|Hway].
    { run. eauto. }
    destruct (Z.ltb_spec (INT_MAX - (code c - 48)) (acc * 10)) as [Hbig|Hbig].
    { run. eauto. }
    run.
    apply (IH fuel _ s1 rest); auto.
    + simpl in Hfuel. lia.
    + arith.
    + replace (acc * 10 + (code c - 48)) with (10 * acc + (code c - 48)) by lia.
      exact Hover.
Qed.

Lemma post_fails {A} (m : M A) (s : state) :
  post m s (fun _ _ => False) (fun _ => True) ->
  exists fmt args s', m s = ParseError fmt args s'.
Proof.
  unfold post. destruct (m s) as [a s'|fmt args s'|f|]; try contradiction.
  eauto.
Qed.

Lemma post_eq {A} (m m' : M A) (s s' : state) (Q : A -> state -> Prop)
    (E : state -> Prop) :
  m s = m' s' -> post m' s' Q E -> post m s Q E.
Proof.
  unfold post. now intros ->.
Qed.

(** A literal beyond the number of variables never gets through: whatever
    its sign and whatever follows it, reading it ends in a parse error. *)
Lemma parse_literal_exceeds (M : Z) (l : locals) (sign : Z) (c : ascii)
    (ds rest : list ascii) (s : state) :
  is_digit c -> Forall is_digit ds -> (ds <> [] -> 0 < code c - 48) ->
  not_digit_head rest ->
  0 <= variables s < value (c :: ds) ->
  0 <= parsed_clauses l <= M ->
  sign = 1 \/ sign = -1 ->
  file s = ds ++ rest ->
  post (parse_literal M l sign (code c)) s (fun _ _ => False) (fun _ => True).
Proof.
  intros Hc Hds Hpos Hrest Hv Hpc Hsign Hs.
  pose proof (digit_code c Hc) as Bc.
  assert (Hval : value (c :: ds) = value_from (code c - 48) ds) by reflexivity.
  unfold parse_literal.
  apply post_bind, post_assert; [apply Z.leb_le; lia |].
  apply post_bind, post_when_error; [exact I | intros _].
  apply post_bind, post_int_val; [codes; arith |].
  apply post_bind.
  destruct (Z_le_gt_dec (value (c :: ds)) INT_MAX) as [Hfit|Hover].
  - eapply post_eq.
    { rewrite fueled_eq. codes.
      apply (literal_digits_text ds Hds _ (code c - 48) s rest); auto; try lia.
      rewrite Hs, length_app. lia. }
    apply post_bind.
    eapply post_weaken; [apply next_spec | cbv beta | auto].
    intros ch s1 ((A1 & V1 & L1) & R1 & _).
    apply post_ret. cbv beta iota.
    rewrite <- Hval.
    apply post_bind, post_assert; [apply negb_true_iff, Z.eqb_neq; arith |].
    apply post_bind, post_int_val; [destruct Hsign; subst sign; arith |].
    apply post_bind, post_when_error; [exact I | intros _].
    apply post_bind, post_assert;
      [apply negb_true_iff, Z.eqb_neq; destruct Hsign; subst sign; arith |].
    apply post_bind, post_get_variables.
    apply post_bind, post_int_val; [destruct Hsign; subst sign; arith |].
    apply post_bind, post_when_error; [exact I | intros Hle].
    apply Z.ltb_ge in Hle. rewrite V1, consume_variables in Hle.
    exfalso. destruct Hsign; subst sign; lia.
  - destruct (literal_digits_overflow ds Hds (S (length (file s)))
                (code c - 48) s rest) as (fmt & s' & E); auto.
    + rewrite Hs, length_app. lia.
    + assert (ds <> []).
      { intros ->. unfold value, value_from in Hover. simpl in Hover.
        codes. arith. }
      specialize (Hpos H). arith.
    + rewrite <- Hval. lia.
    + unfold post. rewrite fueled_eq. codes. rewrite E. exact I.
Qed.

Lemma delimiter_next (d : delimiter) (s : state) (rest : list ascii) :
  file s = render_delimiter d ++ rest ->
  exists ch s1,
    next s = Ok ch s1
    /\ (ch = 32 \/ ch = 9 \/ ch = 10 \/ ch = 99)
    /\ variables s1 = variables s /\ added s1 = added s.
Proof.
  intros Hs. destruct d as [| |e|t e]; simpl in Hs.
  - destruct (next_step s " " rest Hs) as (s1 & N & (_ & V & A) & _);
      [discriminate |].
    exists 32, s1. split; [exact N | split; [tauto | split; assumption]].
  - destruct (next_step s TAB rest Hs) as (s1 & N & (_ & V & A) & _);
      [discriminate |].
    exists 9, s1. split; [exact N | split; [tauto | split; assumption]].
  - destruct (next_eol_step s e rest Hs) as (s1 & N & (_ & V & A) & _).
    exists 10, s1. split; [exact N | split; [tauto | split; assumption]].
  - destruct (next_step s "c" _ Hs) as (s1 & N & (_ & V & A) & _);
      [discriminate |].
    exists 99, s1. split; [exact N | split; [tauto | split; assumption]].
Qed.

Lemma parse_literal_exceeds_text (M : Z) (l : locals) (sign : Z) (c : ascii)
    (ds : list ascii) (d : delimiter) (s : state) (rest : list ascii) :
  is_digit c -> Forall is_digit ds -> (ds <> [] -> 0 < code c - 48) ->
  0 <= variables s < value (c :: ds) -> value (c :: ds) <= INT_MAX ->
  0 <= parsed_clauses l < M ->
  sign = 1 \/ sign = -1 ->
  file s = ds ++ render_delimiter d ++ rest ->
  exists s',
    parse_literal M l sign (code c) s
    = ParseError "literal '%d' exceeds maximum variable index '%d'"
                 [value (c :: ds) * sign; variables s] s'
    /\ added s' = added s.
Proof.
  intros Hc Hds Hpos Hv Hfit Hpc Hsign Hs.
  pose proof (digit_code c Hc) as Bc.
  assert (Hval : value (c :: ds) = value_from (code c - 48) ds) by reflexivity.
  unfold parse_literal. run.
  destruct (literal_digits_step ds (code c - 48) s _ Hds Hs)
    as (s1 & E1 & (R1 & V1 & A1) & Hs1).
  { apply delimiter_not_digit. }
  { lia. }
  { exact Hpos. }
  { lia. }
  rewrite E1. run.
  destruct (delimiter_next d s1 rest Hs1) as (ch & s2 & N2 & Hch & V2 & A2).
  rewrite N2. run. rewrite <- Hval in *.
  exists s2. split; [| congruence].
  destruct Hch as [-> | [-> | [-> | ->]]]; destruct Hsign as [-> | ->]; run;
    rewrite V2, V1; run; reflexivity.
Qed.

Lemma body_iteration_exceeds (M : Z) (l : locals) (negative : bool)
    (ds rest : list ascii) (s : state) :
  numeral ds -> not_digit_head rest ->
  0 <= variables s < value ds ->
  0 <= parsed_clauses l <= M ->
  file s = render_literal negative ds ++ rest ->
  (exists fmt args s', body_iteration M l s = ParseError fmt args s')
  /\ (value ds <= INT_MAX -> parsed_clauses l < M ->
      (exists d rest', rest = render_delimiter d ++ rest') ->
      exists s',
        body_iteration M l s
        = ParseError "literal '%d' exceeds maximum variable index '%d'"
                     [literal_value negative ds; variables s] s'
        /\ added s' = added s).
Proof.
  intros Hn Hrest Hv Hpc Hs.
  destruct (numeral_inv _ Hn) as (c & ds' & -> & Hc & Hds' & Hpos & Hval).
  pose proof (digit_code c Hc) as Bc.
  unfold render_literal in Hs.
  repeat (rewrite <- app_assoc in Hs || rewrite <- app_comm_cons in Hs).
  assert (Hc' := Hc). unfold is_digit in Hc'. unfold literal_value.
  destruct negative; cbn [app] in Hs; unfold body_iteration; run.
  - read_char as s1 N1 R1 V1 A1 Hs1. read_char as s2 N2 R2 V2 A2 Hs2.
    rewrite Hc'. run. split.
    + apply post_fails.
      apply (parse_literal_exceeds M l (-1) c ds' rest s2); auto.
      rewrite V2, V1. exact Hv.
    + intros Hfit Hlt (d & rest' & ->).
      destruct (parse_literal_exceeds_text M l (-1) c ds' d s2 rest')
        as (s3 & E3 & A3); auto; try lia.
      exists s3. rewrite E3.
      replace (value (c :: ds') * -1) with (- value (c :: ds')) by lia.
      split; [congruence | congruence].
  - read_char as s2 N2 R2 V2 A2 Hs2.
    rewrite Hc'. run. split.
    + apply post_fails.
      apply (parse_literal_exceeds M l 1 c ds' rest s2); auto.
      rewrite V2. exact Hv.
    + intros Hfit Hlt (d & rest' & ->).
      destruct (parse_literal_exceeds_text M l 1 c ds' d s2 rest')
        as (s3 & E3 & A3); auto; try lia.
      exists s3. rewrite E3.
      replace (value (c :: ds') * 1) with (value (c :: ds')) by lia.
      split; [congruence | congruence].
Qed.

Lemma body_loop_error {A} (M : Z) (l : locals) (fuel : nat) (s s' : state)
    (fmt : string) (args : list Z) (k : locals -> state -> result A) :
  (0 < fuel)%nat ->
  body_iteration M l s = ParseError fmt args s' ->
  (l' <- body_loop fuel M l ;; k l') s = ParseError fmt args s'.
Proof.
  intros Hf E. destruct fuel as [|fuel]; [lia |].
  cbn [body_loop]. unfold bind. now rewrite E.
Qed.

Lemma locals_after_closed (lits : list Z) :
  parsed_clauses (locals_after (mkLocals 0 0) lits) = closed lits.
Proof.
  reflexivity.
Qed.

Lemma room_closed (M : Z) (lits : list Z) (pc : Z) :
  room M pc lits -> pc <= M -> pc + closed lits <= M.
Proof.
  unfold closed. revert pc.
  induction lits as [|v lits IH]; intros pc H Hpc; [simpl; lia |].
  cbn [room] in H. destruct H as [Hlt H]. specialize (IH _ H).
  simpl count_occ. destruct (Z.eqb_spec v 0) as [->|Hv].
  - destruct (Z.eq_dec 0 0); [| contradiction]. lia.
  - destruct (Z.eq_dec v 0); [contradiction | lia].
Qed.

(** C5.  Behind a header and literals that are in order, a literal whose
    number is beyond the declared number of variables makes parsing fail
    with a parse error, with a minus in front of it or without, whatever
    follows it.  Where the number fits an [int], a further clause is allowed
    and white space or a comment follows, the error is the one about the
    literal that exceeds the maximum variable, and nothing of the literal
    has been added. *)
Theorem literal_beyond_variables (V M : Z) (h : header) (items : list item)
    (negative : bool) (ds rest : list ascii) :
  header_ok V M h -> Forall (item_ok V) items ->
  room M 0 (literals items) ->
  numeral ds -> V < value ds -> not_digit_head rest ->
  (exists fmt args s',
     parse (initial (render_header h ++ render_items items
                     ++ render_literal negative ds ++ rest))
     = ParseError fmt args s')
  /\ (value ds <= INT_MAX -> closed (literals items) < M ->
      (exists d rest', rest = render_delimiter d ++ rest') ->
      exists s',
        parse (initial (render_header h ++ render_items items
                        ++ render_literal negative ds ++ rest))
        = ParseError "literal '%d' exceeds maximum variable index '%d'"
                     [literal_value negative ds; V] s'
        /\ added s' = literals items).
Proof.
  intros Hh Hitems Hroom Hn HV Hrest.
  set (input := render_header h ++ _).
  destruct (parse_prefix V M h items (render_literal negative ds ++ rest)
              (initial input) Hh Hitems Hroom eq_refl)
    as (fuel & s1 & Hfuel & R1 & Hs1 & Hv1 & Ha1 & E).
  assert (HV0 : 0 <= V).
  { pose proof Hh as ((_ & _ & _ & _ & (_ & Hd & _) & <- & _) & _).
    now apply value_nonneg. }
  assert (HM0 : 0 <= M).
  { pose proof Hh as ((_ & _ & _ & _ & _ & _ & (_ & Hd & _) & <- & _) & _).
    now apply value_nonneg. }
  pose proof (room_closed M (literals items) 0 Hroom HM0) as Hcl.
  assert (Hpc0 : 0 <= closed (literals items)) by (unfold closed; lia).
  destruct (body_iteration_exceeds M
              (locals_after (mkLocals 0 0) (literals items))
              negative ds rest s1 Hn Hrest) as [HA HB].
  { rewrite Hv1. lia. }
  { rewrite locals_after_closed. lia. }
  { exact Hs1. }
  split.
  - destruct HA as (fmt & args & s' & E'). exists fmt, args, s'.
    rewrite E. apply body_loop_error; [lia | exact E'].
  - intros Hfit Hlt Hd.
    destruct (HB Hfit) as (s' & E' & A'); auto.
    exists s'. rewrite E. split.
    + rewrite <- Hv1. apply body_loop_error; [lia | exact E'].
    + rewrite A', Ha1. reflexivity.
Qed.

(** ** The parser never faults *)

(** C10.  Whatever the input, [parse] ends with a result or with a parse
    error: no assertion fails, no signed operation leaves the range of
    [int], and the run does not go on for ever.  Every literal handed to
    [satch_add], also before a parse error, has an absolute value of at most
    [INT_MAX]: it is not [INT_MIN]. *)
Theorem literals_in_range (input : list ascii) :
  match parse (initial input) with
  | Ok _ s' => Forall literal_range (added s')
  | ParseError _ _ s' => Forall literal_range (added s')
  | Fault _ => False
  | OutOfFuel => False
  end.
Proof.
  pose proof (parse_spec input) as H. unfold post in H.
  assert (R : forall s', bounded s' -> Forall literal_range (added s')).
  { intros s' [B V]. eapply Forall_impl; [| exact B].
    intros x Hx. unfold literal_range. cbv beta in Hx. lia. }
  destruct (parse (initial input)) as [r s'|fmt args s'|f|]; auto.
  destruct H as [H|H]; [auto | rewrite H; constructor].
Qed.

(** ** The witness printer *)

Lemma code_digit_char (d : Z) : 0 <= d <= 9 -> code (digit_char d) = 48 + d.
Proof.
  intros H. unfold digit_char, code. change (Z.of_N (N_of_ascii "0")) with 48.
  rewrite N_ascii_embedding by lia. lia.
Qed.

Lemma decimal_fuel_digits (fuel : nat) :
  forall n, 0 <= n -> Forall is_digit (decimal_fuel fuel n).
Proof.
  induction fuel as [|fuel IH]; intros n Hn; [constructor |].
  cbn [decimal_fuel]. apply Forall_app. split.
  - destruct (n <? 10); [constructor | apply IH].
    apply Z.div_pos; lia.
  - constructor; [| constructor]. unfold is_digit. apply isdigit_iff.
    pose proof (Z.mod_pos_bound n 10 eq_refl).
    rewrite code_digit_char by lia. lia.
Qed.

Lemma decimal_fuel_length (fuel : nat) :
  forall (n : Z) (k : nat),
    0 <= n < 10 ^ Z.of_nat (S k) ->
    (length (decimal_fuel fuel n) <= S k)%nat.
Proof.
  induction fuel as [|fuel IH]; intros n k Hn; [simpl; lia |].
  cbn [decimal_fuel]. rewrite length_app. simpl length.
  destruct (Z.ltb_spec n 10) as [Hs|Hl]; [simpl; lia |].
  destruct k as [|k].
  - change (10 ^ Z.of_nat 1) with 10 in Hn. lia.
  - specialize (IH (n / 10) k).
    assert (0 <= n / 10 < 10 ^ Z.of_nat (S k)).
    { split; [apply Z.div_pos; lia |].
      apply Z.div_lt_upper_bound; [lia |].
      rewrite (Nat2Z.inj_succ (S k)), Z.pow_succ_r in Hn by lia. lia. }
    specialize (IH H). lia.
Qed.

Lemma decimal_fuel_nonempty (fuel : nat) (n : Z) :
  (1 <= length (decimal_fuel (S fuel) n))%nat.
Proof.
  cbn [decimal_fuel]. rewrite length_app. simpl. lia.
Qed.

Lemma digit_plain (c : ascii) : is_digit c -> plain c.
Proof.
  intros H. apply digit_code in H.
  split; intros ->; vm_compute in H; destruct H as [H _]; now apply H.
Qed.

(** The text of a value of type [int]: a space, and at most eleven
    characters, none of which ends a string or a line. *)
Lemma format_value_spec (lit : Z) :
  int_range lit ->
  (2 <= length (format_value lit) <= 12)%nat /\ Forall plain (format_value lit).
Proof.
  intros [Hlo Hhi]. unfold format_value, decimal.
  assert (Hs : plain " "%char) by (split; discriminate).
  assert (Hm : plain "-"%char) by (split; discriminate).
  destruct (Z.ltb_spec lit 0) as [Hneg|Hpos].
  - pose proof (decimal_fuel_length (S (Z.to_nat (Z.log2 (- lit)))) (- lit) 9) as L.
    pose proof (decimal_fuel_nonempty (Z.to_nat (Z.log2 (- lit))) (- lit)) as N.
    change (10 ^ Z.of_nat 10) with 10000000000 in L.
    assert (Hr : 0 <= - lit < 10000000000) by arith. specialize (L Hr).
    split; [cbn [length]; lia |].
    constructor; [exact Hs | constructor; [exact Hm |]].
    eapply Forall_impl; [apply digit_plain | apply decimal_fuel_digits; lia].
  - pose proof (decimal_fuel_length (S (Z.to_nat (Z.log2 lit))) lit 9) as L.
    pose proof (decimal_fuel_nonempty (Z.to_nat (Z.log2 lit)) lit) as N.
    change (10 ^ Z.of_nat 10) with 10000000000 in L.
    assert (Hr : 0 <= lit < 10000000000) by arith. specialize (L Hr).
    split; [cbn [length]; lia |].
    constructor; [exact Hs |].
    eapply Forall_impl; [apply digit_plain | apply decimal_fuel_digits; lia].
Qed.

Lemma c_string_terminated (l rest : list ascii) :
  Forall plain l -> c_string (l ++ NUL :: rest) = l.
Proof.
  induction 1 as [|c l [Hc _] _ IH]; simpl.
  - reflexivity.
  - destruct (Z.eqb_spec (code c) (code NUL)) as [E|_].
    + apply code_inj in E. contradiction.
    + now rewrite IH.
Qed.

Lemma firstn_prefix {A} (a b : list A) : firstn (length a) (a ++ b) = a.
Proof.
  induction a as [|x a IH]; simpl; [now destruct b | now rewrite IH].
Qed.

Lemma memcpy_length (dst src : list ascii) (offset : nat) :
  (offset + length src <= length dst)%nat ->
  length (memcpy dst offset src) = length dst.
Proof.
  intros H. unfold memcpy.
  rewrite !length_app, length_firstn, length_skipn. lia.
Qed.

Lemma pending_length (p : printer) :
  printer_ok p -> length (pending p) = Z.to_nat (size_buffer p).
Proof.
  intros (L & S & _). unfold pending. rewrite length_firstn. lia.
Qed.

Lemma flush_empty (p : printer) :
  size_buffer p = 0 -> flush_printed_values p = Done p.
Proof.
  intros E. unfold flush_printed_values. now rewrite E.
Qed.

Lemma flush_spec (p : printer) :
  printer_ok p ->
  exists p',
    flush_printed_values p = Done p'
    /\ printer_ok p' /\ size_buffer p' = 0
    /\ stdout p' = stdout p ++ match pending p with
                               | [] => []
                               | _ :: _ => v_line (pending p)
                               end
    /\ flush_printed_values p' = Done p'.
Proof.
  intros Hok. pose proof (pending_length p Hok) as Hlen.
  pose proof Hok as (L & S & P).
  destruct (Z.eq_dec (size_buffer p) 0) as [E|E].
  - exists p. rewrite flush_empty by exact E.
    rewrite E in Hlen. destruct (pending p); [| simpl in Hlen; lia].
    rewrite app_nil_r. auto.
  - unfold flush_printed_values at 1.
    destruct (Z.eqb_spec (size_buffer p) 0) as [|_]; [contradiction |].
    rewrite (wrap64_small (size_buffer p + 1)) by arith.
    destruct (Z.ltb_spec (size_buffer p + 1) 80) as [_|]; [| lia]. cbn [negb].
    set (n := Z.to_nat (size_buffer p)) in *.
    assert (T : memcpy (buffer p) n [NUL]
                = pending p ++ NUL :: skipn (n + 1) (buffer p)) by reflexivity.
    rewrite T, c_string_terminated by exact P.
    eexists. split; [reflexivity |]. cbn [size_buffer stdout buffer].
    split; [| split; [reflexivity | split]].
    + split; [| split; [cbn [size_buffer]; lia | constructor]].
      cbn [buffer]. rewrite <- T. rewrite memcpy_length; [exact L |].
      simpl length. lia.
    + destruct (pending p) as [|c l] eqn:Ep; [simpl in Hlen; lia |].
      reflexivity.
    + apply flush_empty. reflexivity.
Qed.

Lemma print_value_spec (lit : Z) (p : printer) :
  printer_ok p -> int_range lit ->
  exists p',
    print_value lit p = Done p'
    /\ printer_ok p' /\ pending p' <> []
    /\ ((stdout p' = stdout p /\ pending p' = pending p ++ format_value lit)
        \/ (line_ok (pending p)
            /\ stdout p' = stdout p ++ v_line (pending p)
            /\ pending p' = format_value lit)).
Proof.
  intros Hok Hlit. pose proof (pending_length p Hok) as Hlen.
  destruct (format_value_spec lit Hlit) as [Hsize Hplain].
  unfold print_value.
  set (tmp := format_value lit) in *.
  assert (Htmp : tmp <> []) by (intros E; rewrite E in Hsize; simpl in Hsize; lia).
  destruct (Z.leb_spec 32 (Z.of_nat (length tmp))) as [|_]; [lia |].
  pose proof Hok as (L & S & P).
  rewrite (wrap64_small (size_buffer p + Z.of_nat (length tmp))) by arith.
  destruct (Z.ltb_spec 77 (size_buffer p + Z.of_nat (length tmp))) as [Hfull|Hfits].
  - destruct (flush_spec p Hok) as (p1 & E1 & (L1 & S1 & P1) & Z1 & O1 & _).
    rewrite E1, Z1.
    destruct (Z.ltb_spec 80 (0 + Z.of_nat (length tmp))) as [|_]; [lia |].
    rewrite wrap64_small by arith.
    assert (B : memcpy (buffer p1) (Z.to_nat 0) tmp
                = tmp ++ skipn (0 + length tmp) (buffer p1)) by reflexivity.
    assert (Pe : pending (mkPrinter (memcpy (buffer p1) (Z.to_nat 0) tmp)
                            (0 + Z.of_nat (length tmp)) (stdout p1)) = tmp).
    { unfold pending. cbn [buffer size_buffer]. rewrite B.
      replace (Z.to_nat (0 + Z.of_nat (length tmp))) with (length tmp) by lia.
      apply firstn_prefix. }
    eexists. split; [reflexivity |].
    split; [| split; [now rewrite Pe |]].
    + split; [| split; [cbn [size_buffer]; lia | now rewrite Pe]].
      cbn [buffer]. rewrite memcpy_length; [exact L1 | rewrite L1; lia].
    + right. split; [| split; [| exact Pe]].
      * split; [lia | split; [| exact P]].
        intros E. rewrite E in Hlen. simpl in Hlen. lia.
      * cbn [stdout]. rewrite O1.
        destruct (pending p) as [|c l] eqn:Ep; [simpl in Hlen; lia |].
        reflexivity.
  - destruct (Z.ltb_spec 80 (size_buffer p + Z.of_nat (length tmp))) as [|_];
      [lia |].
    rewrite wrap64_small by arith.
    set (n := Z.to_nat (size_buffer p)) in *.
    assert (Pe : pending (mkPrinter (memcpy (buffer p) n tmp)
                            (size_buffer p + Z.of_nat (length tmp)) (stdout p))
                 = pending p ++ tmp).
    { unfold pending at 1. cbn [buffer size_buffer]. unfold memcpy.
      fold (pending p). rewrite app_assoc.
      replace (Z.to_nat (size_buffer p + Z.of_nat (length tmp)))
        with (length (pending p ++ tmp)) by (rewrite length_app; lia).
      apply firstn_prefix. }
    eexists. split; [reflexivity |].
    split; [| split].
    + split; [| split; [cbn [size_buffer]; lia |]].
      * cbn [buffer]. rewrite memcpy_length; [exact L | rewrite L; lia].
      * rewrite Pe. apply Forall_app. split; assumption.
    + rewrite Pe. intros E. apply app_eq_nil in E. now destruct E.
    + left. split; [reflexivity | exact Pe].
Qed.

Lemma print_values_spec (lits : list Z) :
  Forall int_range lits ->
  forall p, printer_ok p ->
    exists p' lines,
      print_values lits p = Done p'
      /\ printer_ok p'
      /\ stdout p' = stdout p ++ flat_map v_line lines
      /\ concat lines ++ pending p' = pending p ++ flat_map format_value lits
      /\ Forall line_ok lines
      /\ (lits <> [] -> pending p' <> []).
Proof.
  induction 1 as [|lit lits Hlit Hlits IH]; intros p Hok.
  - exists p, []. simpl. rewrite !app_nil_r.
    repeat split; auto; try apply Hok.
  - destruct (print_value_spec lit p Hok Hlit) as (p1 & E1 & Hok1 & Hne1 & Hcase).
    destruct (IH p1 Hok1) as (p2 & lines & E2 & Hok2 & O2 & C2 & L2 & Hne2).
    cbn [print_values]. rewrite E1.
    assert (Hne : pending p2 <> []).
    { destruct lits as [|x lits]; [| apply Hne2; discriminate].
      simpl in E2. inversion E2. now subst. }
    destruct Hcase as [[O1 P1]|(Hline & O1 & P1)].
    + exists p2, lines.
      split; [exact E2 |]. split; [exact Hok2 |].
      split; [now rewrite O2, O1 |].
      split; [rewrite C2, P1, <- app_assoc; reflexivity |].
      split; [exact L2 | intros _; exact Hne].
    + exists p2, (pending p :: lines).
      split; [exact E2 |]. split; [exact Hok2 |].
      split; [rewrite O2, O1, <- app_assoc; reflexivity |].
      split; [cbn [concat flat_map]; rewrite <- !app_assoc, C2, P1; reflexivity |].
      split; [constructor; assumption | intros _; exact Hne].
Qed.

(** C6.  The values of a witness, each of type [int], printed with
    [print_value] one after the other from an empty buffer and followed by
    the flush at the end, give [v] lines only: each of them, its [v]
    counted and its line feed not, is at most 78 characters long, and their
    texts put together are the texts of the values, in their order and
    with nothing left out.  The buffer is left empty: what was in it, one
    line, has been written by the flush at the end, and a further flush
    writes nothing. *)
Theorem witness_lines (lits : list Z) (out : list ascii) :
  Forall int_range lits ->
  exists p lines,
    print_and_flush lits (printer_start out) = Done p
    /\ stdout p = out ++ flat_map v_line lines
    /\ concat lines = flat_map format_value lits
    /\ Forall line_ok lines
    /\ Forall (fun l => (length (v_line l) <= 78 + 1)%nat) lines
    /\ size_buffer p = 0
    /\ flush_printed_values p = Done p
    /\ exists p1 before,
         print_values lits (printer_start out) = Done p1
         /\ stdout p1 = out ++ flat_map v_line before
         /\ lines = before ++ match pending p1 with
                               | [] => []
                               | _ :: _ => [pending p1]
                               end.
Proof.
  intros Hlits.
  assert (Hstart : printer_ok (printer_start out)).
  { repeat split; simpl; try lia. constructor. }
  destruct (print_values_spec lits Hlits _ Hstart)
    as (p1 & before & E1 & Hok1 & O1 & C1 & L1 & _).
  destruct (flush_spec p1 Hok1) as (p & E & Hok & Hzero & O & Again).
  assert (Hline : pending p1 <> [] -> line_ok (pending p1)).
  { intros Hne. pose proof (pending_length p1 Hok1).
    destruct Hok1 as (_ & S & P). repeat split; auto. lia. }
  exists p, (before ++ match pending p1 with
                       | [] => []
                       | _ :: _ => [pending p1]
                       end).
  unfold print_and_flush. rewrite E1.
  assert (Hall : Forall line_ok
                   (before ++ match pending p1 with
                              | [] => []
                              | _ :: _ => [pending p1]
                              end)).
  { apply Forall_app. split; [exact L1 |].
    destruct (pending p1) eqn:Ep; constructor; [| constructor].
    apply Hline. discriminate. }
  split; [exact E |]. split; [| split; [| split; [exact Hall | split]]].
  - rewrite O, O1. cbn [printer_start stdout].
    rewrite flat_map_app, <- app_assoc.
    destruct (pending p1); simpl; now rewrite ?app_nil_r.
  - change (pending (printer_start out)) with (@nil ascii) in C1.
    cbn [app] in C1. rewrite <- C1, concat_app.
    destruct (pending p1); simpl; now rewrite ?app_nil_r.
  - eapply Forall_impl; [| exact Hall]. intros l (Hl & _).
    unfold v_line. simpl length. rewrite length_app. simpl. lia.
  - split; [exact Hzero |]. split; [exact Again |].
    exists p1, before. auto.
Qed.

(** ** Signals *)





(** Decide the comparisons of signal numbers that are known to differ. *)
Ltac signal_tests :=
  repeat match goal with
         | |- context [?u =? ?v] =>
             first [ rewrite (Z.eqb_refl u)
                   | rewrite (proj2 (Z.eqb_neq u v))
                       by (assumption || (apply not_eq_sym; assumption)) ]
         end.



(** ** The options of [main] *)

Lemma string_eqb_false (a b : string) : a <> b -> (a =? b)%string = false.
Proof.
  intros H. now apply String.eqb_neq.
Qed.

(** What the loop over the arguments leaves in the options, when it gets
    to its end. *)
Lemma parse_arguments_spec (ndebug : bool) (argv : list string) :
  forall o0 o,
    parse_arguments ndebug argv o0 = Proceed o ->
    (opt_quiet o0 = true \/ asks_quiet argv -> opt_quiet o = true)
    /\ (logging o = true <-> logging o0 = true \/ asks_log argv)
    /\ (asks_log argv -> ndebug = false)
    /\ (1 <= verbose o0 <= INT_MAX ->
        1 <= verbose o <= INT_MAX
        /\ (1 < verbose o0 \/ asks_verbose argv -> 1 < verbose o)).
Proof.
  unfold asks_quiet, asks_log, asks_verbose.
  induction argv as [|arg argv IH]; intros o0 o H.
  - simpl in H. inversion H. subst. simpl. intuition.
  - cbn [parse_arguments] in H.
    destruct (String.eqb_spec arg "-h") as [->|N1]; [discriminate |].
    destruct (String.eqb_spec arg "--version") as [->|N2]; [discriminate |].
    destruct (String.eqb_spec arg "-n") as [->|N3];
      [| destruct (String.eqb_spec arg "--no-witness") as [->|N4]];
      cbn [orb] in H;
      try (apply IH in H; cbn [opt_quiet logging verbose In] in *;
           intuition congruence).
    destruct (String.eqb_spec arg "-q") as [->|N5];
      [| destruct (String.eqb_spec arg "--quiet") as [->|N6]];
      cbn [orb] in H;
      try (apply IH in H; cbn [opt_quiet logging verbose In] in *;
           intuition congruence).
    destruct (String.eqb_spec arg "-v") as [->|N7];
      [| destruct (String.eqb_spec arg "--verbose") as [->|N8]];
      cbn [orb] in H;
      try (apply IH in H; cbn [opt_quiet logging verbose In] in *;
           destruct H as (Q & L & G & Vb);
           split; [intuition congruence |];
           split; [intuition congruence |];
           split; [intuition congruence |];
           intros Hv0;
           destruct (Z.ltb_spec (verbose o0) INT_MAX);
           (destruct Vb as [Vr Vg]; [unfold INT_MAX in *; lia |]);
           (split; [exact Vr | intros _; apply Vg; left; unfold INT_MAX in *; lia])).
    destruct (String.eqb_spec arg "-l") as [->|N9];
      [| destruct (String.eqb_spec arg "--log") as [->|N10]];
      cbn [orb] in H;
      try (destruct ndebug; [discriminate |];
           apply IH in H; cbn [opt_quiet logging verbose In] in *;
           intuition congruence).
    destruct arg as [|c arg'].
    + destruct (path o0); [discriminate |].
      apply IH in H; cbn [opt_quiet logging verbose In] in *.
      intuition congruence.
    + destruct (c =? "-")%char; [discriminate |].
      destruct (path o0); [discriminate |].
      apply IH in H; cbn [opt_quiet logging verbose In] in *.
      intuition congruence.
Qed.

(** C9.  When the loop over the arguments gets to its end and [-q] or
    [--quiet] is among them, [-v] or [--verbose] among them makes [main]
    exit with status 1 and an error, and so does [-l] or [--log], which only
    a solver compiled with logging takes: the error about [--log] if it was
    asked for, the one about [--verbose] otherwise. *)
Theorem quiet_conflicts (ndebug : bool) (argv : list string) (o : options) :
  parse_arguments ndebug argv default_options = Proceed o ->
  asks_quiet argv ->
  asks_verbose argv \/ asks_log argv ->
  main_options ndebug argv
  = Exit 1 (if logging o then "can not combine '--quiet' and '--log'"
            else "can not combine '--quiet' and '--verbose'") []
  /\ (logging o = true <-> asks_log argv)
  /\ (asks_log argv -> ndebug = false).
Proof.
  intros H Hq Hvl.
  destruct (parse_arguments_spec ndebug argv default_options o H)
    as (Q & L & G & Vb).
  specialize (Q (or_intror Hq)).
  destruct Vb as [Vr Vg]; [cbn; unfold INT_MAX; lia |].
  assert (L' : logging o = true <-> asks_log argv).
  { rewrite L. cbn [default_options logging]. intuition discriminate. }
  split; [| split; [exact L' | exact G]].
  unfold main_options. rewrite H. unfold check_options, error. rewrite Q.
  destruct (logging o) eqn:Lo.
  - rewrite (G (proj1 L' eq_refl)). reflexivity.
  - rewrite andb_false_r. cbn [andb].
    destruct Hvl as [Hv|Hl]; [| apply L' in Hl; discriminate].
    specialize (Vg (or_intror Hv)).
    destruct (Z.ltb_spec 1 (verbose o)); [reflexivity | lia].
Qed.

(** ** The properties at work on files *)

Ltac numeral_proof :=
  split; [discriminate
         | split; [repeat constructor
                  | intros r E; inversion E; try reflexivity]].

Ltac header_proof :=
  unfold header_ok, header_shape, plain_header, blanks, text;
  cbn [leading blanks1 blanks2 blanks3 declared_variables declared_clauses
       list_ascii_of_string];
  repeat match goal with
         | |- _ /\ _ => split
         | |- Forall _ [] => constructor
         | |- numeral _ => numeral_proof
         | |- value _ = _ => reflexivity
         | |- _ <= _ => vm_compute; discriminate
         end.

Ltac items_proof :=
  repeat match goal with
         | |- Forall _ (_ :: _) => constructor
         | |- Forall _ [] => constructor
         | |- item_ok _ _ => cbn [item_ok delimiter_ok]
         | |- _ /\ _ => split
         | |- numeral _ => numeral_proof
         | |- True => exact I
         | |- value _ <= _ => vm_compute; discriminate
         end.



Lemma final_zero_message :
  message (parse (initial (render (plain_header "1" "1")
                                  [Lit false (text "1") Space]
                                  (Some (false, text "0")))))
  = Some ("unexpected character after '%d'"%string, [0]).
Proof.
  vm_compute. reflexivity.
Qed.


(** [INT_MAX] variables are taken, [INT_MAX + 1] are not. *)
Lemma variables_up_to_int_max_witness :
  (exists s',
      parse_header (initial (line "p cnf 2147483647 0")) = Ok 0 s'
      /\ variables s' = 2147483647 /\ file s' = [])
  /\ (exists pre c post s',
         text "2147483648" = pre ++ c :: post
         /\ value pre <= INT_MAX < value (pre ++ [c])
         /\ parse (initial (line "p cnf 2147483648 0"))
            = ParseError (if INT_MAX ÷ 10 <? value pre
                          then "maximum variable number way too big"
                          else "maximum variable number too big") [] s'
         /\ file s' = post ++ text " 0" ++ [LF]).
Proof.
  assert (H1 : header_shape 2147483647 0 (plain_header "2147483647" "0"))
    by header_proof.
  assert (H2 : header_shape 2147483648 0 (plain_header "2147483648" "0"))
    by header_proof.
  split.
  - apply (proj1 (variables_up_to_int_max 2147483647 0
                    (plain_header "2147483647" "0") [] H1)).
    vm_compute. discriminate.
  - apply (proj2 (variables_up_to_int_max 2147483648 0
                    (plain_header "2147483648" "0") [] H2)).
    vm_compute. reflexivity.
Defined.

Example variables_int_max_plus_one :
  message (parse (initial (line "p cnf 2147483648 0")))
  = Some ("maximum variable number too big"%string, [])
  /\ message (parse (initial (line "p cnf 21474836470 0")))
     = Some ("maximum variable number way too big"%string, []).
Proof.
  split; vm_compute; reflexivity.
Qed.

(** C3 as stated fails: with no clause declared, the literal [1] in line 2
    is rejected as soon as its digit is read; the zero in line 3 that would
    close the clause is never read. *)
Lemma excess_not_raised_at_zero :
  ~ raised_at_zero (line "p cnf 1 0" ++ line "1" ++ line "0").
Proof.
  intros (before & s' & E & P).
  vm_compute in P. inversion P as [Hs]. subst s'. cbn [file] in E.
  apply (f_equal (@rev ascii)) in E. rewrite (rev_app_distr before) in E.
  cbn in E. discriminate.
Qed.

Lemma excess_raised_at_literal :
  exists s',
    parse (initial (line "p cnf 1 0" ++ line "1" ++ line "0"))
    = ParseError "more clauses than specified" [] s'
    /\ file s' = [LF] ++ line "0" /\ lineno s' = 2 /\ added s' = [].
Proof.
  eexists. split; [vm_compute; reflexivity |]. repeat split.
Qed.

(** Behind the two clauses of [p cnf 3 2] a third one is rejected at its
    first literal. *)
Lemma too_many_clauses_witness :
  exists s',
    parse (initial (line "p cnf 1 1" ++ line "1 0" ++ line "-1 0"))
    = ParseError "more clauses than specified" [] s'
    /\ file s' = line " 0"
    /\ added s' = [1; 0]
    /\ lineno s' = 3.
Proof.
  apply (too_many_clauses 1 1 (plain_header "1" "1")
           [Lit false (text "1") Space; Lit false (text "0") (Newline Unix)]
           true "1"%char (line " 0")).
  - header_proof.
  - items_proof.
  - split; reflexivity.
  - reflexivity.
Defined.


Lemma missing_zero_message :
  message (parse (initial (line "p cnf 2 1" ++ line "1 2")))
  = Some ("terminating zero after literal '%d' missing"%string, [2]).
Proof.
  vm_compute. reflexivity.
Qed.


Example single_clause_missing :
  message (parse (initial (line "p cnf 2 2" ++ line "1 2 0")))
  = Some ("single clause missing"%string, []).
Proof.
  vm_compute. reflexivity.
Qed.

(** The literal [-3] where two variables are declared. *)
Lemma literal_beyond_variables_witness :
  exists s',
    parse (initial (line "p cnf 2 1" ++ text "-3" ++ line " 0"))
    = ParseError "literal '%d' exceeds maximum variable index '%d'" [-3; 2] s'
    /\ added s' = [].
Proof.
  assert (Hh : header_ok 2 1 (plain_header "2" "1")) by header_proof.
  assert (Hn : numeral (text "3")) by numeral_proof.
  assert (Hv : 2 < value (text "3")) by (vm_compute; reflexivity).
  assert (Hr : not_digit_head (line " 0"))
    by (intros H; vm_compute in H; discriminate).
  apply (proj2 (literal_beyond_variables 2 1 (plain_header "2" "1") []
                  true (text "3") (line " 0")
                  Hh (Forall_nil _) I Hn Hv Hr)).
  - vm_compute. discriminate.
  - vm_compute. reflexivity.
  - exists Space, (line "0"). reflexivity.
Defined.

Example literal_beyond_variables_positive :
  message (parse (initial (line "p cnf 2 1" ++ line "3 0")))
  = Some ("literal '%d' exceeds maximum variable index '%d'"%string, [3; 2]).
Proof.
  vm_compute. reflexivity.
Qed.

(** The witness [1 -2 3 0]. *)
Lemma witness_lines_witness :
  exists p lines,
    print_and_flush [1; -2; 3; 0] (printer_start []) = Done p
    /\ stdout p = [] ++ flat_map v_line lines
    /\ concat lines = flat_map format_value [1; -2; 3; 0]
    /\ Forall line_ok lines
    /\ Forall (fun l => (length (v_line l) <= 78 + 1)%nat) lines
    /\ size_buffer p = 0
    /\ flush_printed_values p = Done p
    /\ exists p1 before,
         print_values [1; -2; 3; 0] (printer_start []) = Done p1
         /\ stdout p1 = [] ++ flat_map v_line before
         /\ lines = before ++ match pending p1 with
                               | [] => []
                               | _ :: _ => [pending p1]
                               end.
Proof.
  apply (witness_lines [1; -2; 3; 0] []).
  repeat constructor; vm_compute; discriminate.
Defined.

Example witness_line_text :
  match print_witness [1; -2; 3] (printer_start []) with
  | Done p => stdout p = line "v 1 -2 3 0"
  | Failed _ => False
  end.
Proof.
  vm_compute. reflexivity.
Qed.

(** The line [1c comment] in a file of one variable and one clause. *)
Lemma comment_behind_literal_witness :
  exists s',
    body_iteration 1 (mkLocals 0 0)
      (mkState (line "1c comment" ++ line "0") 2 10 1 [])
    = Ok (Continue, mkLocals 0 1) s'
    /\ line "1c comment" ++ line "0" = line "1c comment" ++ file s'
    /\ file s' = line "0"
    /\ lineno s' = 3
    /\ wrap64 (bytes s') = 21
    /\ added s' = [1].
Proof.
  apply (comment_behind_literal 1 (mkLocals 0 0) false (text "1")
           (text " comment") Unix
           (mkState (line "1c comment" ++ line "0") 2 10 1 []) (line "0")).
  - numeral_proof.
  - vm_compute. discriminate.
  - vm_compute. discriminate.
  - repeat constructor; discriminate.
  - cbn [parsed_clauses]. lia.
  - vm_compute. discriminate.
  - reflexivity.
Defined.

Example comment_behind_literal_file :
  exists s',
    parse (initial (line "p cnf 1 1" ++ line "1c comment" ++ line "0"))
    = Ok (1, 1) s' /\ added s' = [1; 0].
Proof.
  eexists. split; [vm_compute; reflexivity | reflexivity].
Qed.


(** [satch -q -v]. *)
Lemma quiet_conflicts_witness :
  main_options false ["-q"; "-v"]%string
  = Exit 1 "can not combine '--quiet' and '--verbose'" []
  /\ main_options false ["--quiet"; "-l"; "--verbose"]%string
     = Exit 1 "can not combine '--quiet' and '--log'" [].
Proof.
  split.
  - apply (quiet_conflicts false ["-q"; "-v"]%string
             (mkOptions true true 2 false None)).
    + reflexivity.
    + left. left. reflexivity.
    + left. left. right. left. reflexivity.
  - apply (quiet_conflicts false ["--quiet"; "-l"; "--verbose"]%string
             (mkOptions true true 2 true None)).
    + reflexivity.
    + right. left. reflexivity.
    + right. left. right. left. reflexivity.
Defined.

(** No literal beyond the declared variables is ever accepted: in a run
    that ends without error, every literal added is within them. *)
Lemma added_within_variables (input : list ascii) :
  match parse (initial input) with
  | Ok _ s' => Forall (fun x => Z.abs x <= variables s') (added s')
  | _ => True
  end.
Proof.
  pose proof (parse_spec input) as H. unfold post in H.
  destruct (parse (initial input)); auto. apply H.
Qed.

(** ** Invariants of the stream *)

Lemma holds_bind {A B} (m : M A) (k : A -> M B) (s : state)
    (Q : B -> state -> Prop) (E : state -> Prop) :
  holds m s (fun a s' => holds (k a) s' Q E) E -> holds (bind m k) s Q E.
Proof.
  unfold holds, bind. destruct (m s); auto.
Qed.

Lemma holds_weaken {A} (m : M A) (s : state) (Q Q' : A -> state -> Prop)
    (E E' : state -> Prop) :
  holds m s Q E ->
  (forall a s', Q a s' -> Q' a s') -> (forall s', E s' -> E' s') ->
  holds m s Q' E'.
Proof.
  unfold holds. destruct (m s); auto.
Qed.

Lemma post_holds {A} (m : M A) (s : state) (Q : A -> state -> Prop)
    (E : state -> Prop) :
  post m s Q E -> holds m s Q E.
Proof.
  unfold post, holds. destruct (m s); auto.
Qed.

Lemma holds_and {A} (m : M A) (s : state) (Q Q' : A -> state -> Prop)
    (E E' : state -> Prop) :
  holds m s Q E -> holds m s Q' E' ->
  holds m s (fun a s' => Q a s' /\ Q' a s') (fun s' => E s' /\ E' s').
Proof.
  unfold holds. destruct (m s); auto.
Qed.

Lemma holds_ok {A} (m : M A) (s s' : state) (a : A) (Q : A -> state -> Prop)
    (E : state -> Prop) :
  holds m s Q E -> m s = Ok a s' -> Q a s'.
Proof.
  unfold holds. intros H R. now rewrite R in H.
Qed.


Section Keeps.

Variables P PE : state -> Prop.
Hypothesis P_PE : forall s, P s -> PE s.

Lemma keeps_ret {A} (a : A) : keeps P PE (ret a).
Proof.
  intros s H. exact H.
Qed.

Lemma keeps_error {A} (fmt : string) (args : list Z) :
  keeps P PE (@parse_error A fmt args).
Proof.
  intros s H. apply P_PE, H.
Qed.

Lemma keeps_bind {A B} (m : M A) (k : A -> M B) :
  keeps P PE m -> (forall a, keeps P PE (k a)) -> keeps P PE (bind m k).
Proof.
  intros Hm Hk s H. apply holds_bind.
  eapply holds_weaken; [apply Hm, H | | auto].
  intros a s' H'. apply Hk, H'.
Qed.

Lemma keeps_if {A} (b : bool) (m1 m2 : M A) :
  keeps P PE m1 -> keeps P PE m2 -> keeps P PE (if b then m1 else m2).
Proof.
  destruct b; auto.
Qed.

Lemma keeps_when (b : bool) (m : M unit) :
  keeps P PE m -> keeps P PE (when b m).
Proof.
  intros H. unfold when. apply keeps_if; [exact H | apply keeps_ret].
Qed.

Lemma keeps_assert (expr : string) (b : bool) : keeps P PE (assert expr b).
Proof.
  intros s H. unfold holds, assert. destruct b; auto.
Qed.

Lemma keeps_int_val (z : Z) : keeps P PE (int_val z).
Proof.
  intros s H. unfold holds, int_val.
  destruct ((INT_MIN <=? z) && (z <=? INT_MAX)); auto.
Qed.

Lemma keeps_get_variables : keeps P PE get_variables.
Proof.
  intros s H. exact H.
Qed.

Lemma keeps_fueled {A} (loop : nat -> M A) :
  (forall fuel, keeps P PE (loop fuel)) -> keeps P PE (fueled loop).
Proof.
  intros H s. apply H.
Qed.

Lemma keeps_out_of_fuel {A} : keeps P PE (fun _ => @OutOfFuel A).
Proof.
  intros s H. exact I.
Qed.

Hypothesis P_next : keeps P PE next.

Ltac keep :=
  repeat first
    [ assumption
    | apply keeps_ret | apply keeps_error | apply keeps_assert
    | apply keeps_int_val | apply keeps_get_variables | apply P_next
    | apply keeps_out_of_fuel
    | apply keeps_when | apply keeps_if
    | apply keeps_fueled; intros ?
    | apply keeps_bind; [| intros ?]
    | match goal with
      | |- keeps _ _ (match ?x with (_, _) => _ end) => destruct x
      | |- keeps _ _ (match ?x with Continue => _ | Break => _ end) =>
          destruct x
      end ].

Lemma skip_line_keeps (msg : string) (fuel : nat) :
  keeps P PE (skip_line msg fuel).
Proof.
  induction fuel as [|fuel IH]; cbn [skip_line]; keep.
Qed.

Lemma skip_blanks_keeps (fuel : nat) : keeps P PE (skip_blanks fuel).
Proof.
  induction fuel as [|fuel IH]; cbn [skip_blanks]; keep.
Qed.

Lemma header_comments_keeps (fuel : nat) : keeps P PE (header_comments fuel).
Proof.
  induction fuel as [|fuel IH]; cbn [header_comments]; keep.
  apply skip_line_keeps.
Qed.

Lemma literal_digits_keeps (fuel : nat) (acc : Z) :
  keeps P PE (literal_digits fuel acc).
Proof.
  revert acc. induction fuel as [|fuel IH]; intros acc;
    cbn [literal_digits]; keep; apply IH.
Qed.

Lemma clauses_digits_keeps (fuel : nat) (acc : Z) :
  keeps P PE (clauses_digits fuel acc).
Proof.
  revert acc. induction fuel as [|fuel IH]; intros acc;
    cbn [clauses_digits]; keep; apply IH.
Qed.

Hypothesis P_variables : forall v, keeps P PE (set_variables v).

Lemma variables_digits_keeps (fuel : nat) :
  keeps P PE (variables_digits fuel).
Proof.
  induction fuel as [|fuel IH]; cbn [variables_digits]; keep;
    apply P_variables.
Qed.

Lemma parse_header_keeps : keeps P PE parse_header.
Proof.
  unfold parse_header, parse_numbers; keep;
    first [ apply P_variables | apply skip_blanks_keeps
          | apply header_comments_keeps | apply variables_digits_keeps
          | apply clauses_digits_keeps ].
Qed.

Hypothesis P_added : forall x, keeps P PE (satch_add x).

Lemma parse_literal_keeps (M : Z) (l : locals) (sign ch : Z) :
  keeps P PE (parse_literal M l sign ch).
Proof.
  unfold parse_literal; keep;
    first [ apply P_added | apply skip_line_keeps
          | apply literal_digits_keeps ].
Qed.

Lemma body_iteration_keeps (M : Z) (l : locals) :
  keeps P PE (body_iteration M l).
Proof.
  unfold body_iteration; keep;
    first [ apply P_added | apply skip_line_keeps
          | apply literal_digits_keeps ].
Qed.

Lemma body_loop_keeps (M : Z) (fuel : nat) (l : locals) :
  keeps P PE (body_loop fuel M l).
Proof.
  revert l. induction fuel as [|fuel IH]; intros l; cbn [body_loop];
    [apply keeps_out_of_fuel |].
  apply keeps_bind; [apply body_iteration_keeps |].
  intros [[|] l']; [apply IH | apply keeps_ret].
Qed.

Lemma parse_keeps : keeps P PE parse.
Proof.
  unfold parse, parse_body, end_of_file.
  apply keeps_bind; [apply parse_header_keeps | intros sc].
  apply keeps_bind; [| intros l; apply keeps_ret].
  apply keeps_bind; [apply keeps_fueled; intros fuel; apply body_loop_keeps |].
  intros l; keep.
Qed.

End Keeps.

Lemma paired_app (k1 k2 : list ascii) :
  paired k1 = true -> paired k2 = true -> paired (k1 ++ k2) = true.
Proof.
  intros H1 H2. induction k1 as [|a k1 IH]; [exact H2 |].
  cbn [app paired] in *. apply andb_true_iff in H1. destruct H1 as [Ha H1].
  rewrite (IH H1), andb_true_r.
  destruct (negb (a =? CR)%char); [reflexivity |].
  destruct k1 as [|d k1]; [discriminate | exact Ha].
Qed.

Lemma counted_located (input : list ascii) (s : state) :
  counted input s -> located input s.
Proof.
  intros (k & R & _). now exists k.
Qed.

Lemma counted_advance (input : list ascii) (s : state) (c : ascii)
    (rest : list ascii) :
  file s = c :: rest -> c <> CR -> counted input s ->
  counted input (advance s c).
Proof.
  intros F Hc (k & [Hin L] & B & PK).
  destruct (reads_advance s c rest F) as (_ & L1 & _).
  exists (k ++ [c]). split; [split |]; [| | split].
  - rewrite Hin, F, <- app_assoc. unfold advance. cbn [file]. rewrite F.
    reflexivity.
  - rewrite L1, L, newlines_app. lia.
  - unfold advance. cbn [bytes]. rewrite B, wrap64_add_l, length_app.
    f_equal. cbn [length]. lia.
  - apply paired_app; [exact PK |]. cbn [paired].
    apply Ascii.eqb_neq in Hc. now rewrite Hc.
Qed.

Lemma counted_crlf (input : list ascii) (s : state) (rest : list ascii) :
  file s = CR :: LF :: rest -> counted input s ->
  counted input (advance (advance s CR) LF).
Proof.
  intros F (k & [Hin L] & B & PK).
  exists (k ++ [CR; LF]). split; [split |]; [| | split].
  - rewrite Hin, F, <- app_assoc. unfold advance. cbn [file]. rewrite F.
    reflexivity.
  - unfold advance. cbn [lineno]. rewrite L, newlines_app.
    change (newlines [CR; LF]) with 1.
    change (code CR =? code LF) with false.
    change (code LF =? code LF) with true. cbv iota. lia.
  - unfold advance. cbn [bytes].
    rewrite B, wrap64_add_l, <- Z.add_assoc, wrap64_add_l, length_app.
    f_equal. cbn [length]. lia.
  - apply paired_app; [exact PK | reflexivity].
Qed.

(** [next] counts what it reads; when it meets a carriage return without
    its line feed, the line number is still the one of what was read. *)
Lemma next_counted (input : list ascii) :
  keeps (counted input) (located input) next.
Proof.
  intros s H. unfold holds. destruct (file s) as [|c rest] eqn:F.
  - rewrite next_eof by exact F. exact H.
  - destruct (ascii_dec c CR) as [->|Hc].
    + destruct rest as [|d rest].
      * destruct H as (k & [Hin L] & _).
        unfold next, bind, getc. rewrite F. simpl.
        exists (k ++ [CR]). split.
        -- cbn [file]. rewrite Hin, F, <- app_assoc. reflexivity.
        -- cbn [lineno]. rewrite L, newlines_app.
           change (newlines [CR]) with 0. lia.
      * destruct (ascii_dec d LF) as [->|Hd].
        -- rewrite (next_crlf s rest F).
           apply (counted_crlf input s rest F H).
        -- destruct H as (k & [Hin L] & _).
           unfold next, bind, getc. rewrite F. simpl.
           destruct (Z.eqb_spec (code d) (code LF)) as [X|_];
             [apply code_inj in X; contradiction |].
           simpl. exists (k ++ [CR; d]). split.
           ++ cbn [file]. rewrite Hin, F, <- app_assoc. reflexivity.
           ++ cbn [lineno]. rewrite L, newlines_app.
              assert (N : newlines [CR; d] = 0); [| lia].
              unfold newlines. cbn [count_occ].
              destruct (ascii_dec CR LF) as [X|_]; [discriminate |].
              destruct (ascii_dec d LF) as [X|_]; [| reflexivity].
              contradiction.
    + rewrite (next_char s c rest F Hc).
      apply (counted_advance input s c rest F Hc H).
Qed.

Lemma counted_initial (input : list ascii) : counted input (initial input).
Proof.
  exists []. repeat split.
Qed.

(** Whatever the input, [parse] counts what it reads. *)
Lemma parse_counted (input : list ascii) :
  holds parse (initial input) (fun _ s' => counted input s') (located input).
Proof.
  apply (parse_keeps (counted input) (located input)).
  - apply counted_located.
  - apply next_counted.
  - intros v s (k & R & B & PK). exists k. auto.
  - intros x s (k & R & B & PK). exists k. auto.
  - apply counted_initial.
Qed.

(** ** The end of the stream *)

Lemma holds_always {A} (m : M A) (s : state) (Q : A -> state -> Prop)
    (E : state -> Prop) :
  (forall a s', Q a s') -> (forall s', E s') -> holds m s Q E.
Proof.
  intros HQ HE. unfold holds. destruct (m s); auto.
Qed.

(** [next] gives [EOF] only at the end of the stream. *)
Lemma next_eof_file (s : state) :
  holds next s (fun ch s' => ch = EOF -> file s' = []) (fun _ => True).
Proof.
  unfold holds. destruct (file s) as [|c rest] eqn:F.
  - rewrite next_eof by exact F. intros _. exact F.
  - destruct (ascii_dec c CR) as [->|Hc].
    + destruct rest as [|d rest].
      * unfold next, bind, getc. rewrite F. simpl. exact I.
      * destruct (ascii_dec d LF) as [->|Hd].
        -- rewrite (next_crlf s rest F). discriminate.
        -- unfold next, bind, getc. rewrite F. simpl.
           destruct (Z.eqb_spec (code d) (code LF)) as [X|_];
             [apply code_inj in X; contradiction |].
           simpl. exact I.
    + rewrite (next_char s c rest F Hc). pose proof (code_range c).
      unfold EOF. lia.
Qed.

(** Go through statements whose results do not matter. *)
Ltac walk :=
  repeat first
    [ apply holds_bind; apply holds_always; [intros ? ? | auto]
    | match goal with
      | |- holds (match ?x with (_, _) => _ end) _ _ _ => destruct x
      | |- holds (if ?b then _ else _) _ _ _ => destruct b
      end ].

Lemma parse_literal_continues (M : Z) (l : locals) (sign ch : Z) (s : state) :
  holds (parse_literal M l sign ch) s (fun r _ => fst r = Continue)
        (fun _ => True).
Proof.
  unfold parse_literal. walk. reflexivity.
Qed.

(** The clause loop is left at the end of the stream only. *)
Lemma body_iteration_break (M : Z) (l : locals) (s : state) :
  holds (body_iteration M l) s (fun r s' => fst r = Break -> file s' = [])
        (fun _ => True).
Proof.
  unfold body_iteration. apply holds_bind.
  eapply holds_weaken; [apply next_eof_file | cbv beta | auto].
  intros ch s1 H.
  destruct ((ch =? code " ") || (ch =? code TAB) || (ch =? code LF));
    [discriminate |].
  destruct (Z.eqb_spec ch EOF) as [E|_]; [intros _; apply H, E |].
  destruct (ch =? code "c"); [walk; discriminate |].
  apply holds_bind, holds_always; [| auto]. intros [sign c2] s2.
  eapply holds_weaken; [apply parse_literal_continues | cbv beta | auto].
  intros r s3 ->. discriminate.
Qed.

Lemma body_loop_ends (M : Z) (fuel : nat) :
  forall (l : locals) (s : state),
    holds (body_loop fuel M l) s (fun _ s' => file s' = []) (fun _ => True).
Proof.
  induction fuel as [|fuel IH]; intros l s; [exact I |].
  cbn [body_loop]. apply holds_bind.
  eapply holds_weaken; [apply body_iteration_break | cbv beta | auto].
  intros [[|] l'] s1 H; [apply IH | apply H; reflexivity].
Qed.

Lemma end_of_file_state (M : Z) (l : locals) (s : state) :
  holds (end_of_file M l) s
        (fun l' s' => s' = s /\ l' = l /\ lit l = 0 /\ M <= parsed_clauses l)
        (fun _ => True).
Proof.
  unfold end_of_file, holds, bind, when, ret, parse_error.
  destruct (Z.eqb_spec (lit l) 0) as [L|_]; cbn [negb]; [| exact I].
  destruct (Z.ltb_spec (parsed_clauses l) M) as [_|P].
  - destruct (wrap64 (parsed_clauses l + 1) =? M); exact I.
  - auto.
Qed.

(** [parse] returns at the end of the stream only. *)
Lemma parse_ends (s : state) :
  holds parse s (fun _ s' => file s' = []) (fun _ => True).
Proof.
  unfold parse, parse_body. apply holds_bind, holds_always; [| auto].
  intros sc s1. apply holds_bind. apply holds_bind.
  eapply holds_weaken;
    [ apply (body_loop_ends sc (S (length (file s1)))) | cbv beta | auto ].
  intros l s2 F.
  eapply holds_weaken; [apply end_of_file_state | cbv beta | auto].
  intros l' s3 (-> & _). exact F.
Qed.

(** ** The clauses that are counted *)

Lemma holds_assert (expr : string) (b : bool) (s : state)
    (Q : unit -> state -> Prop) (E : state -> Prop) :
  (b = true -> Q tt s) -> holds (assert expr b) s Q E.
Proof.
  unfold holds, assert. destruct b; auto.
Qed.

Lemma holds_when_error (b : bool) (fmt : string) (args : list Z) (s : state)
    (Q : unit -> state -> Prop) (E : state -> Prop) :
  E s -> (b = false -> Q tt s) ->
  holds (when b (parse_error fmt args)) s Q E.
Proof.
  intros HE HQ. destruct b; [exact HE | apply HQ; reflexivity].
Qed.

Lemma holds_int_val (z : Z) (s : state) (Q : Z -> state -> Prop)
    (E : state -> Prop) :
  Q z s -> holds (int_val z) s Q E.
Proof.
  intros H. unfold holds, int_val.
  destruct ((INT_MIN <=? z) && (z <=? INT_MAX)); auto.
Qed.

(** What is read adds no literal. *)
Lemma next_added (a : list Z) :
  keeps (fun s => added s = a) (fun _ => True) next.
Proof.
  intros s H. apply post_holds.
  eapply post_weaken; [apply next_spec | cbv beta | auto].
  intros ch s' ((A & _) & _). congruence.
Qed.

Lemma skip_line_added (a : list Z) (msg : string) :
  keeps (fun s => added s = a) (fun _ => True) (fueled (skip_line msg)).
Proof.
  apply keeps_fueled. intros fuel.
  apply skip_line_keeps; [auto | apply next_added].
Qed.

Lemma closed_snoc (lits : list Z) (x : Z) :
  closed (lits ++ [x]) = closed lits + (if x =? 0 then 1 else 0).
Proof.
  unfold closed. rewrite count_occ_app. cbn [count_occ].
  destruct (Z.eqb_spec x 0) as [->|N].
  - destruct (Z.eq_dec 0 0); [cbn [length]; lia | contradiction].
  - destruct (Z.eq_dec x 0); [contradiction | cbn [length]; lia].
Qed.

Lemma closed_nonneg (lits : list Z) : 0 <= closed lits.
Proof.
  unfold closed. lia.
Qed.

Lemma holds_get_variables (s : state) (Q : Z -> state -> Prop)
    (E : state -> Prop) :
  Q (variables s) s -> holds get_variables s Q E.
Proof.
  auto.
Qed.

Lemma holds_satch_add (x : Z) (s : state) (Q : unit -> state -> Prop)
    (E : state -> Prop) :
  Q tt (mkState (file s) (lineno s) (bytes s) (variables s) (added s ++ [x])) ->
  holds (satch_add x) s Q E.
Proof.
  auto.
Qed.

Lemma tallied_snoc (M : Z) (l : locals) (s s' : state) (x : Z) :
  M <= MAX_SIZE_T -> tallied l s -> parsed_clauses l <= M ->
  parsed_clauses l <> M -> added s' = added s ++ [x] ->
  tallied (mkLocals (if x =? 0 then wrap64 (parsed_clauses l + 1)
                     else parsed_clauses l) x) s'.
Proof.
  intros HM [TP TL] Hle Hne A. unfold tallied. cbn [parsed_clauses lit].
  rewrite A, closed_snoc, last_last. split; [| reflexivity].
  pose proof (closed_nonneg (added s)).
  destruct (x =? 0); [rewrite wrap64_small; lia | lia].
Qed.

(** A literal that is added is counted: as a clause if it is a zero, and
    as the last literal. *)
Lemma parse_literal_tallied (M : Z) (l : locals) (sign ch : Z) (s : state) :
  M <= MAX_SIZE_T -> tallied l s ->
  holds (parse_literal M l sign ch) s (fun r s' => tallied (snd r) s')
        (fun _ => True).
Proof.
  intros HM T. unfold parse_literal.
  apply holds_bind, holds_assert. intros Hle. apply Z.leb_le in Hle.
  apply holds_bind, holds_when_error; [exact I | intros Hne].
  apply Z.eqb_neq in Hne.
  apply holds_bind, holds_int_val.
  apply holds_bind.
  eapply holds_weaken;
    [ apply (keeps_fueled (fun s' => added s' = added s) (fun _ => True));
      [intros fuel; apply literal_digits_keeps; [auto | apply next_added]
      | reflexivity ]
    | cbv beta | auto ].
  intros [lit1 ch1] s1 A1.
  apply holds_bind, holds_assert. intros _.
  apply holds_bind, holds_int_val.
  apply holds_bind, holds_when_error; [exact I | intros _].
  apply holds_bind, holds_assert. intros _.
  apply holds_bind, holds_get_variables.
  apply holds_bind, holds_int_val.
  apply holds_bind, holds_when_error; [exact I | intros _].
  apply holds_bind, holds_satch_add.
  set (s2 := mkState _ _ _ _ _).
  assert (A2 : added s2 = added s ++ [lit1 * sign])
    by (subst s2; cbn [added]; now rewrite A1).
  clearbody s2. apply holds_bind.
  destruct (ch1 =? code "c"); unfold when.
  - eapply holds_weaken;
      [ apply (skip_line_added (added s ++ [lit1 * sign])); exact A2
      | cbv beta | auto ].
    intros _ s3 A3. unfold holds, ret. cbn [snd].
    eapply tallied_snoc; eauto.
  - unfold holds, ret. cbn [snd]. eapply tallied_snoc; eauto.
Qed.

Lemma tallied_added (l : locals) (s s' : state) :
  tallied l s -> added s' = added s -> tallied l s'.
Proof.
  unfold tallied. intros T ->. exact T.
Qed.

Lemma body_iteration_tallied (M : Z) (l : locals) (s : state) :
  M <= MAX_SIZE_T -> tallied l s ->
  holds (body_iteration M l) s (fun r s' => tallied (snd r) s')
        (fun _ => True).
Proof.
  intros HM T. unfold body_iteration. apply holds_bind.
  eapply holds_weaken;
    [apply (next_added (added s)); reflexivity | cbv beta | auto].
  intros ch s1 A1. pose proof (tallied_added l s s1 T A1) as T1.
  destruct ((ch =? code " ") || (ch =? code TAB) || (ch =? code LF));
    [exact T1 |].
  destruct (ch =? EOF); [exact T1 |].
  destruct (ch =? code "c").
  - apply holds_bind.
    eapply holds_weaken;
      [apply (skip_line_added (added s)); exact A1 | cbv beta | auto].
    intros _ s2 A2. exact (tallied_added l s s2 T A2).
  - apply holds_bind.
    assert (K : forall sign c2 s2, added s2 = added s ->
                holds (parse_literal M l sign c2) s2
                      (fun r s' => tallied (snd r) s') (fun _ => True)).
    { intros sign c2 s2 A2. apply parse_literal_tallied; [exact HM |].
      exact (tallied_added l s s2 T A2). }
    destruct (ch =? code "-").
    + apply holds_bind.
      eapply holds_weaken;
        [apply (next_added (added s)); exact A1 | cbv beta | auto].
      intros c2 s2 A2.
      apply holds_bind, holds_when_error; [exact I | intros _].
      apply K, A2.
    + apply holds_bind, holds_when_error; [exact I | intros _].
      apply K, A1.
Qed.

Lemma body_loop_tallied (M : Z) (fuel : nat) :
  forall (l : locals) (s : state),
    M <= MAX_SIZE_T -> tallied l s ->
    holds (body_loop fuel M l) s (fun l' s' => tallied l' s') (fun _ => True).
Proof.
  induction fuel as [|fuel IH]; intros l s HM T; [exact I |].
  cbn [body_loop]. apply holds_bind.
  eapply holds_weaken; [apply body_iteration_tallied; eauto | cbv beta | auto].
  intros [[|] l'] s1 T1; cbn [snd] in T1; [apply IH; auto | exact T1].
Qed.

(** What [parse] has added when it returns: as many closed clauses as the
    header specifies and as it reports, and nothing behind the last zero. *)
Lemma parse_tallied (input : list ascii) :
  holds parse (initial input)
        (fun r s' => fst r = snd r /\ closed (added s') = fst r
                     /\ last (added s') 0 = 0 /\ fst r <= MAX_SIZE_T)
        (fun _ => True).
Proof.
  unfold parse. apply holds_bind.
  eapply holds_weaken;
    [ apply post_holds, parse_header_spec; reflexivity | cbv beta | auto ].
  intros sc s1 (A1 & V1 & Hsc).
  assert (T1 : tallied (mkLocals 0 0) s1) by (split; now rewrite A1).
  apply holds_bind. unfold parse_body. apply holds_bind.
  eapply holds_weaken;
    [ apply holds_and;
      [ apply (body_loop_tallied sc (S (length (file s1)))); [lia | exact T1]
      | apply post_holds, (body_loop_spec sc (S (length (file s1))));
        [lia | cbn [parsed_clauses]; lia | lia
        | split; [rewrite A1; constructor | exact V1] ] ]
    | cbv beta | auto ].
  intros l s2 ([TP TL] & _ & _ & P2).
  eapply holds_weaken; [apply end_of_file_state | cbv beta | auto].
  intros l' s3 (-> & -> & L0 & PM). unfold holds, ret. cbn [fst snd].
  rewrite <- TL, <- TP. repeat split; lia.
Qed.





(** X3.  An input in which a carriage return is not followed by a line
    feed is never accepted, wherever the carriage return stands, also
    inside a comment: [parse] ends in a parse error. *)
Theorem carriage_return_alone_rejected (input : list ascii) :
  paired input = false ->
  exists fmt args s', parse (initial input) = ParseError fmt args s'.
Proof.
  intros HP. pose proof (parse_spec input) as T.
  pose proof (parse_counted input) as C.
  pose proof (parse_ends (initial input)) as F.
  unfold post in T. unfold holds in C, F.
  destruct (parse (initial input)) as [r s'|fmt args s'| |];
    [| now exists fmt, args, s' | contradiction | contradiction].
  destruct C as (k & [Hin _] & _ & PK).
  rewrite F, app_nil_r in Hin. subst k. congruence.
Qed.

Lemma carriage_return_alone_rejected_witness :
  exists fmt args s',
    parse (initial (line "p cnf 1 1" ++ text "c one" ++ [CR] ++ text "clause"
                    ++ [LF] ++ line "1 0"))
    = ParseError fmt args s'.
Proof.
  apply carriage_return_alone_rejected. reflexivity.
Defined.

(** X4.  When [parse] returns, the literals it has added are as many
    clauses as the header specifies, each closed by its zero, with no
    literal behind the last zero; the two numbers of clauses it gives, the
    specified and the parsed one, are equal, and every literal is a
    variable of the header or the negation of one. *)
Theorem parse_sound (input : list ascii) (specified parsed : Z) (s' : state) :
  parse (initial input) = Ok (specified, parsed) s' ->
  parsed = specified
  /\ closed (added s') = specified
  /\ last (added s') 0 = 0
  /\ Forall (fun x => Z.abs x <= variables s') (added s')
  /\ 0 <= variables s' <= INT_MAX
  /\ 0 <= specified <= MAX_SIZE_T.
Proof.
  intros R.
  destruct (holds_ok _ _ _ _ _ _ (parse_tallied input) R) as (E & C & L & HM).
  pose proof (parse_spec input) as T. unfold post in T. rewrite R in T.
  destruct T as [B V]. cbn [fst snd] in *.
  pose proof (closed_nonneg (added s')).
  repeat split; auto; lia.
Qed.

Lemma parse_sound_witness :
  let s' := mkState [] 3 19 2 [1; -2; 0; 0] in
  2 = 2
  /\ closed (added s') = 2
  /\ last (added s') 0 = 0
  /\ Forall (fun x => Z.abs x <= variables s') (added s')
  /\ 0 <= variables s' <= INT_MAX
  /\ 0 <= 2 <= MAX_SIZE_T.
Proof.
  intros s'.
  apply (parse_sound (line "p cnf 2 2" ++ line "1 -2 0 0") 2 2 s').
  vm_compute. reflexivity.
Defined.
(** ** The input of [main] *)

Lemma length_append (a b : string) :
  String.length (a ++ b) = (String.length a + String.length b)%nat.
Proof.
  induction a as [|c a IH]; simpl; [reflexivity | now rewrite IH].
Qed.

Lemma strlen_append (a b : string) :
  strlen (a ++ b) = strlen a + strlen b.
Proof.
  unfold strlen. rewrite length_append. lia.
Qed.

Lemma append_assoc (a b c : string) : ((a ++ b) ++ c = a ++ (b ++ c))%string.
Proof.
  induction a as [|x a IH]; simpl; [reflexivity | now rewrite IH].
Qed.

Lemma string_from_append (a b : string) :
  string_from (String.length a) (a ++ b) = b.
Proof.
  induction a as [|c a IH]; simpl; [reflexivity | exact IH].
Qed.

Lemma string_from_split (n : nat) :
  forall str, (n <= String.length str)%nat ->
    exists pre, str = (pre ++ string_from n str)%string
                /\ String.length pre = n.
Proof.
  induction n as [|n IH]; intros str H.
  - exists EmptyString. split; reflexivity.
  - destruct str as [|c str]; [simpl in H; lia |].
    destruct (IH str) as (pre & E & L); [simpl in H; lia |].
    exists (String c pre). simpl. split; [now rewrite <- E | now rewrite L].
Qed.

Lemma has_suffix_iff (str suffix : string) :
  has_suffix str suffix = true <-> exists pre, str = (pre ++ suffix)%string.
Proof.
  unfold has_suffix, strlen. split.
  - intros H. apply andb_true_iff in H. destruct H as [G E].
    apply Z.geb_le in G. apply String.eqb_eq in E.
    destruct (string_from_split
                (Z.to_nat (Z.of_nat (String.length str)
                           - Z.of_nat (String.length suffix))) str)
      as (pre & S & _); [lia |].
    exists pre. now rewrite E in S.
  - intros [pre ->]. rewrite length_append. apply andb_true_iff. split.
    + apply Z.geb_le. lia.
    + apply String.eqb_eq.
      replace (Z.to_nat _) with (String.length pre) by lia.
      apply string_from_append.
Qed.

Lemma sprintf_cons (c : ascii) (fmt arg : string) :
  (c =? "%")%char = false ->
  sprintf (String c fmt) arg = String c (sprintf fmt arg).
Proof.
  intros H. destruct fmt as [|d rest]; cbn [sprintf]; [reflexivity |].
  now rewrite H.
Qed.

Lemma sprintf_plain (t arg : string) :
  plain_text t = true -> sprintf t arg = t.
Proof.
  induction t as [|c t IH]; intros H; [reflexivity |].
  cbn [plain_text] in H. apply andb_true_iff in H. destruct H as [Hc Ht].
  apply negb_true_iff in Hc. rewrite sprintf_cons by exact Hc.
  now rewrite IH.
Qed.

(** A format with one [%s] and no other conversion puts the argument in
    the place of the [%s]. *)
Lemma sprintf_one (pre post arg : string) :
  plain_text pre = true -> plain_text post = true ->
  sprintf (pre ++ "%s" ++ post) arg = (pre ++ arg ++ post)%string.
Proof.
  intros Hpre Hpost. induction pre as [|c pre IH].
  - cbn [append sprintf]. change (("%" =? "%")%char && ("s" =? "s")%char)
      with true. cbv iota. now rewrite sprintf_plain.
  - cbn [plain_text] in Hpre. apply andb_true_iff in Hpre.
    destruct Hpre as [Hc Ht]. apply negb_true_iff in Hc.
    change ((String c pre ++ "%s" ++ post)%string)
      with (String c (pre ++ "%s" ++ post)).
    rewrite sprintf_cons by exact Hc. now rewrite IH.
Qed.

(** X5.  [has_suffix] tells whether the string ends with the suffix: it is
    true exactly when the string is some text followed by the suffix, the
    suffix alone and the empty suffix included. *)
Theorem has_suffix_spec (str suffix : string) :
  has_suffix str suffix = true <-> exists pre, str = (pre ++ suffix)%string.
Proof.
  apply has_suffix_iff.
Qed.

Lemma append_empty (a : string) : (a ++ EmptyString)%string = a.
Proof.
  induction a as [|c a IH]; simpl; [reflexivity | now rewrite IH].
Qed.

(** The command of [open_pipe] and the room it takes. *)
Lemma open_pipe_run (os : system) (pre post name : string) :
  plain_text pre = true -> plain_text post = true ->
  strlen pre + strlen post + strlen name + 2 <= MAX_SIZE_T ->
  let fmt := (pre ++ "%s" ++ post)%string in
  let cmd := (pre ++ name ++ post)%string in
  strlen cmd + 1 < strlen fmt + strlen name
  /\ open_pipe os fmt name
     = if malloc os (strlen fmt + strlen name)
       then Input name (if popen os cmd then Some (Pipe cmd) else None) 2
       else InputError "out-of-memory allocating command buffer" [].
Proof.
  intros Hpre Hpost Hlen fmt cmd.
  assert (Lf : strlen fmt = strlen pre + 2 + strlen post)
    by (unfold fmt; rewrite !strlen_append; change (strlen "%s") with 2; lia).
  assert (Lc : strlen cmd = strlen pre + strlen name + strlen post)
    by (unfold cmd; rewrite !strlen_append; lia).
  assert (N : 0 <= strlen pre /\ 0 <= strlen post /\ 0 <= strlen name)
    by (unfold strlen; lia).
  assert (S : sprintf fmt name = cmd) by (apply sprintf_one; assumption).
  split; [lia |].
  unfold open_pipe. rewrite S, wrap64_small by lia.
  destruct (malloc os (strlen fmt + strlen name)); cbn [negb]; [| reflexivity].
  destruct (Z.ltb_spec (strlen fmt + strlen name) (strlen cmd + 1)); [lia |].
  reflexivity.
Qed.

(** X6.  [open_pipe] never writes beyond the buffer of the command: for a
    format with one [%s] and a path as long as memory allows, the buffer
    it asks [malloc] for, as long as format and path together, holds the
    command, which is the format with the path in the place of the [%s],
    and the zero that ends it, with one byte to spare.  Without the buffer
    the run ends with the error about memory. *)
Theorem open_pipe_fits (os : system) (pre post name : string) :
  plain_text pre = true -> plain_text post = true ->
  strlen pre + strlen post + strlen name + 2 <= MAX_SIZE_T ->
  let fmt := (pre ++ "%s" ++ post)%string in
  let cmd := (pre ++ name ++ post)%string in
  strlen cmd + 1 < strlen fmt + strlen name
  /\ open_pipe os fmt name
     = if malloc os (strlen fmt + strlen name)
       then Input name (if popen os cmd then Some (Pipe cmd) else None) 2
       else InputError "out-of-memory allocating command buffer" [].
Proof.
  exact (open_pipe_run os pre post name).
Qed.

Lemma open_pipe_fits_witness :
  let os := mkSystem (fun _ => true) (fun _ => true) (fun _ => true)
                     (fun _ => true) in
  let fmt := ("gzip -c -d " ++ "%s" ++ EmptyString)%string in
  let cmd := ("gzip -c -d " ++ "a.cnf.gz" ++ EmptyString)%string in
  strlen cmd + 1 < strlen fmt + strlen "a.cnf.gz"
  /\ open_pipe os fmt "a.cnf.gz"
     = if malloc os (strlen fmt + strlen "a.cnf.gz")
       then Input "a.cnf.gz" (if popen os cmd then Some (Pipe cmd) else None) 2
       else InputError "out-of-memory allocating command buffer" [].
Proof.
  intros os fmt cmd.
  apply (open_pipe_fits os "gzip -c -d " EmptyString "a.cnf.gz");
    [reflexivity | reflexivity | vm_compute; discriminate].
Defined.

Lemma suffix_same_length (str s1 s2 : string) :
  has_suffix str s1 = true -> has_suffix str s2 = true ->
  String.length s1 = String.length s2 -> s1 = s2.
Proof.
  unfold has_suffix, strlen. intros H1 H2 L.
  apply andb_true_iff in H1, H2. destruct H1 as [_ E1], H2 as [_ E2].
  apply String.eqb_eq in E1, E2. rewrite L in E1. congruence.
Qed.

Lemma has_suffix_tail (str : string) (c : ascii) (s : string) :
  has_suffix str (String c s) = true -> has_suffix str s = true.
Proof.
  rewrite !has_suffix_iff. intros [pre ->].
  exists (pre ++ String c EmptyString)%string.
  now rewrite append_assoc.
Qed.

(** No name ends with two of the suffixes. *)
Lemma suffixes_apart (name : string) :
  (has_suffix name ".gz" = true -> has_suffix name ".bz2" = false
                                   /\ has_suffix name ".xz" = false)
  /\ (has_suffix name ".bz2" = true -> has_suffix name ".gz" = false
                                       /\ has_suffix name ".xz" = false)
  /\ (has_suffix name ".xz" = true -> has_suffix name ".gz" = false
                                      /\ has_suffix name ".bz2" = false).
Proof.
  assert (A : has_suffix name ".gz" = true -> has_suffix name ".xz" = true
              -> False).
  { intros H1 H2.
    pose proof (suffix_same_length name _ _ H1 H2 eq_refl). discriminate. }
  assert (B : has_suffix name ".gz" = true -> has_suffix name ".bz2" = true
              -> False).
  { intros H1 H2. apply has_suffix_tail in H2.
    pose proof (suffix_same_length name _ _ H1 H2 eq_refl). discriminate. }
  assert (C : has_suffix name ".xz" = true -> has_suffix name ".bz2" = true
              -> False).
  { intros H1 H2. apply has_suffix_tail in H2.
    pose proof (suffix_same_length name _ _ H1 H2 eq_refl). discriminate. }
  destruct (has_suffix name ".gz"), (has_suffix name ".bz2"),
    (has_suffix name ".xz"); intuition.
Qed.

(** X7.  A readable file whose name ends with [.gz], [.bz2] or [.xz] is
    read through a pipe from the tool of its suffix, [gzip], [bzip2] or
    [xz], run with [-c -d] and the name; the suffixes exclude each other,
    so their order in [main] does not matter.  [close_file] is set to 2.
    The run ends with an error if there is no memory for the command or
    if the pipe cannot be opened. *)
Theorem compressed_input_piped (os : system) (pre suffix tool : string) :
  In (suffix, tool) tools ->
  readable os (pre ++ suffix) = true ->
  strlen (pre ++ suffix) + 16 <= MAX_SIZE_T ->
  let name := (pre ++ suffix)%string in
  let cmd := (tool ++ name)%string in
  open_input os (Some name)
  = if malloc os (strlen tool + 2 + strlen name)
    then if popen os cmd then Input name (Some (Pipe cmd)) 2
         else InputError "can not open '%s'" [name]
    else InputError "out-of-memory allocating command buffer" [].
Proof.
  intros Hin Hr Hlen name cmd. fold name in Hr, Hlen.
  assert (Hs : has_suffix name suffix = true)
    by (apply has_suffix_iff; now exists pre).
  assert (N : 0 <= strlen name) by (unfold strlen; lia).
  destruct (suffixes_apart name) as (G & B & X).
  assert (P : forall t, plain_text t = true -> strlen t <= 12 ->
                open_pipe os (t ++ "%s" ++ EmptyString) name
                = if malloc os (strlen t + 2 + strlen name)
                  then Input name (if popen os (t ++ name)
                                   then Some (Pipe (t ++ name)) else None) 2
                  else InputError "out-of-memory allocating command buffer" []).
  { intros t Ht Lt.
    assert (N' : 0 <= strlen t) by (unfold strlen; lia).
    destruct (open_pipe_run os t EmptyString name Ht eq_refl) as [_ E].
    - change (strlen EmptyString) with 0. lia.
    - rewrite E, (append_empty name), strlen_append.
      change (strlen ("%s" ++ EmptyString)) with 2. reflexivity. }
  unfold open_input, file_readable. rewrite Hr. cbn [negb].
  cbn [tools In] in Hin.
  destruct Hin as [E | [E | [E | []]]]; inversion E; subst suffix tool;
    clear E.
  - rewrite Hs.
    change "gzip -c -d %s"%string
      with ("gzip -c -d " ++ "%s" ++ EmptyString)%string.
    rewrite P by (reflexivity || (vm_compute; discriminate)).
    fold cmd. destruct (malloc os _); [| reflexivity].
    destruct (popen os cmd); reflexivity.
  - destruct (B Hs) as [-> _]. rewrite Hs.
    change "bzip2 -c -d %s"%string
      with ("bzip2 -c -d " ++ "%s" ++ EmptyString)%string.
    rewrite P by (reflexivity || (vm_compute; discriminate)).
    fold cmd. destruct (malloc os _); [| reflexivity].
    destruct (popen os cmd); reflexivity.
  - destruct (X Hs) as [-> ->]. rewrite Hs.
    change "xz -c -d %s"%string
      with ("xz -c -d " ++ "%s" ++ EmptyString)%string.
    rewrite P by (reflexivity || (vm_compute; discriminate)).
    fold cmd. destruct (malloc os _); [| reflexivity].
    destruct (popen os cmd); reflexivity.
Qed.

Lemma compressed_input_piped_witness :
  let os := mkSystem (fun _ => true) (fun _ => true) (fun _ => false)
                     (fun _ => true) in
  open_input os (Some ("dir/a.cnf" ++ ".bz2")%string)
  = if malloc os (strlen "bzip2 -c -d " + 2 + strlen ("dir/a.cnf" ++ ".bz2"))
    then if popen os ("bzip2 -c -d " ++ ("dir/a.cnf" ++ ".bz2"))
         then Input ("dir/a.cnf" ++ ".bz2")
                    (Some (Pipe ("bzip2 -c -d " ++ ("dir/a.cnf" ++ ".bz2")))) 2
         else InputError "can not open '%s'" [("dir/a.cnf" ++ ".bz2")%string]
    else InputError "out-of-memory allocating command buffer" [].
Proof.
  intros os.
  apply (compressed_input_piped os "dir/a.cnf" ".bz2" "bzip2 -c -d ").
  - right. left. reflexivity.
  - reflexivity.
  - vm_compute. discriminate.
Defined.

Lemma open_pipe_result (os : system) (fmt name p : string)
    (opened : option stream) (cf : Z) :
  open_pipe os fmt name = Input p opened cf ->
  cf = 2 /\ (opened = None \/ exists cmd, opened = Some (Pipe cmd)).
Proof.
  unfold open_pipe. destruct (negb (malloc os _)); [discriminate |].
  destruct (_ <? _); [discriminate |].
  destruct (popen os _); intros E; inversion E;
    (split; [reflexivity |]);
    [right; eexists; reflexivity | left; reflexivity].
Qed.

(** X8.  Whatever the system answers: when [main] goes on with an input,
    [file] is a stream, and what [parse] does at its end lets go of it in
    the way it was opened, once: a file with [fclose], a pipe with [pclose],
    and the standard input, which is read exactly when no path is given,
    not at all. *)
Theorem input_released (os : system) (name : option string) (p : string)
    (opened : option stream) (cf : Z) :
  open_input os name = Input p opened cf ->
  exists st,
    opened = Some st
    /\ close_input cf = match st with
                        | Stdin => []
                        | File _ => [Fclose]
                        | Pipe _ => [Pclose]
                        end
    /\ (st = Stdin <-> name = None).
Proof.
  unfold open_input. intros H.
  destruct name as [n|].
  - assert (K : forall fmt,
               check_opened (open_pipe os fmt n) = Input p opened cf ->
               exists st, opened = Some st
                 /\ close_input cf = match st with
                                     | Stdin => []
                                     | File _ => [Fclose]
                                     | Pipe _ => [Pclose]
                                     end
                 /\ (st = Stdin <-> Some n = None)).
    { intros fmt E.
      destruct (open_pipe os fmt n) as [| |p0 o0 c0] eqn:O; try discriminate.
      destruct (open_pipe_result _ _ _ _ _ _ O) as [-> [-> | [cmd ->]]];
        [discriminate |].
      inversion E. subst. exists (Pipe cmd).
      split; [reflexivity | split; [reflexivity |]].
      split; discriminate. }
    destruct (negb (file_readable os (Some n))); [discriminate |].
    destruct (has_suffix n ".gz"); [exact (K _ H) |].
    destruct (has_suffix n ".bz2"); [exact (K _ H) |].
    destruct (has_suffix n ".xz"); [exact (K _ H) |].
    destruct (fopen os n); [| discriminate].
    inversion H. subst. exists (File p).
    split; [reflexivity | split; [reflexivity |]]. split; discriminate.
  - inversion H. subst. exists Stdin.
    split; [reflexivity | split; [reflexivity |]]. split; reflexivity.
Qed.

Lemma input_released_witness :
  exists st,
    Some (File "a.cnf") = Some st
    /\ close_input 1 = match st with
                       | Stdin => []
                       | File _ => [Fclose]
                       | Pipe _ => [Pclose]
                       end
    /\ (st = Stdin <-> Some "a.cnf"%string = None).
Proof.
  apply (input_released
           (mkSystem (fun _ => true) (fun _ => true) (fun _ => true)
                     (fun _ => true))
           (Some "a.cnf"%string) "a.cnf").
  reflexivity.
Defined.
(** ** The command line as a whole *)

Lemma options_eq (o : options) :
  o = mkOptions (witness o) (opt_quiet o) (verbose o) (logging o) (path o).
Proof.
  now destruct o.
Qed.

(** Decide the comparisons of an argument with the names of the options. *)
Ltac names :=
  repeat match goal with
         | N : ?a <> ?b |- context [(?a =? ?b)%string] =>
             rewrite (string_eqb_false a b N)
         end.

Ltac all_names :=
  repeat match goal with
         | N : ?a <> ?b |- _ =>
             try rewrite (string_eqb_false a b N) in *; clear N
         end.

Ltac name_cases arg :=
  destruct (String.eqb_spec arg "-h") as [->|?];
  [| destruct (String.eqb_spec arg "--version") as [->|?];
     [| destruct (String.eqb_spec arg "-n") as [->|?];
        [| destruct (String.eqb_spec arg "--no-witness") as [->|?];
           [| destruct (String.eqb_spec arg "-q") as [->|?];
              [| destruct (String.eqb_spec arg "--quiet") as [->|?];
                 [| destruct (String.eqb_spec arg "-v") as [->|?];
                    [| destruct (String.eqb_spec arg "--verbose") as [->|?];
                       [| destruct (String.eqb_spec arg "-l") as [->|?];
                          [| destruct (String.eqb_spec arg "--log")
                               as [->|?] ]]]]]]]]].

Lemma verbose_step (v : Z) :
  v <= INT_MAX ->
  v + (if v <? INT_MAX then 1 else 0) = Z.min INT_MAX (v + 1).
Proof.
  intros H. destruct (Z.ltb_spec v INT_MAX); lia.
Qed.

(** An argument that is taken changes the options, and the loop goes on. *)
Ltac compare_names :=
  cbn [String.eqb Ascii.eqb Bool.eqb orb andb negb existsb filter is_option
       length app] in *.

Lemma parse_arguments_taken (ndebug : bool) (arg : string)
    (rest : list string) (o : options) :
  verbose o <= INT_MAX ->
  taken ndebug arg = true ->
  (is_option arg = false -> path o = None) ->
  parse_arguments ndebug (arg :: rest) o
  = parse_arguments ndebug rest (merge o [arg]).
Proof.
  intros Hv Ht Hp. unfold taken, named in Ht.
  unfold merge, files, named. cbn [parse_arguments].
  assert (P : match path o with Some p => Some p | None => None end = path o)
    by (destruct (path o); reflexivity).
  name_cases arg; compare_names;
    rewrite ?andb_false_r, ?andb_true_r, ?orb_false_r in Ht;
    try discriminate Ht; cbn [hd_error];
    rewrite ?P, ?andb_true_r, ?orb_false_r, ?orb_true_r, ?andb_false_r,
      ?Z.add_0_r, ?verbose_step, ?Z.min_r by exact Hv;
    try reflexivity;
    try (destruct ndebug; [discriminate Ht | reflexivity]).
  all_names. cbn [orb andb negb length] in *.
  rewrite andb_false_r in Ht. cbn [orb] in Ht.
  apply negb_true_iff in Ht. rewrite (Hp Ht).
  fold (is_option arg). rewrite Ht. cbn [negb hd_error].
  rewrite andb_true_r, !orb_false_r, Z.add_0_r, Z.min_r by exact Hv.
  reflexivity.
Qed.

(** An argument that is not taken ends the run. *)
Lemma parse_arguments_refused (ndebug : bool) (arg : string)
    (rest : list string) (o : options) :
  taken ndebug arg = false \/ (is_option arg = false /\ path o <> None) ->
  exists status fmt args,
    parse_arguments ndebug (arg :: rest) o = Exit status fmt args.
Proof.
  intros H. cbn [parse_arguments].
  unfold taken, named in H.
  name_cases arg; compare_names;
    try (destruct H as [H | [H _]]; discriminate H);
    try (eexists; eexists; eexists; reflexivity).
  - destruct ndebug; [eexists; eexists; eexists; reflexivity |].
    destruct H as [H | [H _]]; discriminate H.
  - destruct ndebug; [eexists; eexists; eexists; reflexivity |].
    destruct H as [H | [H _]]; discriminate H.
  - fold (is_option arg). destruct (is_option arg) eqn:O.
    + eexists; eexists; eexists; reflexivity.
    + destruct (path o) as [p|] eqn:Pa;
        [eexists; eexists; eexists; reflexivity |].
      destruct H as [H | [_ H]]; [| contradiction].
      rewrite !orb_true_r in H. discriminate.
Qed.

Lemma merge_nil (o : options) : verbose o <= INT_MAX -> merge o [] = o.
Proof.
  intros H. unfold merge, files. cbn [existsb filter length negb hd_error].
  rewrite andb_true_r, !orb_false_r, Z.add_0_r, Z.min_r by exact H.
  destruct o as [w q v l [p|]]; reflexivity.
Qed.

Lemma merge_cons (o : options) (arg : string) (rest : list string) :
  merge (merge o [arg]) rest = merge o (arg :: rest).
Proof.
  unfold merge, files.
  cbn [existsb filter witness opt_quiet verbose logging path].
  f_equal.
  - destruct (witness o), (named _ arg), (existsb _ rest); reflexivity.
  - destruct (opt_quiet o), (named _ arg), (existsb _ rest); reflexivity.
  - destruct (named _ arg); cbn [length]; lia.
  - destruct (logging o), (named _ arg), (existsb _ rest); reflexivity.
  - destruct (path o); [reflexivity |].
    destruct (negb (is_option arg)); reflexivity.
Qed.

Lemma verbose_merge (o : options) (argv : list string) :
  verbose (merge o argv) <= INT_MAX.
Proof.
  unfold merge. cbn [verbose]. lia.
Qed.

Lemma path_merge_one (o : options) (arg : string) :
  path (merge o [arg])
  = match path o with
    | Some p => Some p
    | None => if is_option arg then None else Some arg
    end.
Proof.
  unfold merge, files. cbn [path filter].
  destruct (path o); [reflexivity |]. now destruct (is_option arg).
Qed.

Lemma paths_left_merge (o : options) (arg : string) :
  paths_left (merge o [arg])
  = (paths_left o - (if is_option arg then 0 else 1))%nat.
Proof.
  unfold paths_left. rewrite path_merge_one.
  destruct (path o); destruct (is_option arg); reflexivity.
Qed.

Lemma parse_arguments_app (ndebug : bool) (pre : list string) :
  forall (rest : list string) (o : options),
    verbose o <= INT_MAX ->
    forallb (taken ndebug) pre = true ->
    (length (files pre) <= paths_left o)%nat ->
    parse_arguments ndebug (pre ++ rest) o
    = parse_arguments ndebug rest (merge o pre).
Proof.
  induction pre as [|arg pre IH]; intros rest o Hv Ht Hf.
  - now rewrite merge_nil.
  - cbn [forallb] in Ht. apply andb_true_iff in Ht. destruct Ht as [Ta Tp].
    unfold files in Hf. cbn [filter] in Hf. fold (files pre) in Hf.
    cbn [app]. rewrite parse_arguments_taken; [| exact Hv | exact Ta |].
    + rewrite IH; [now rewrite merge_cons | apply verbose_merge | exact Tp |].
      rewrite paths_left_merge.
      destruct (is_option arg); cbn [negb length] in *; lia.
    + intros O. rewrite O in Hf. cbn [negb length] in Hf.
      unfold paths_left in Hf. destruct (path o); [lia | reflexivity].
Qed.

Lemma parse_arguments_proceeds (ndebug : bool) (argv : list string) :
  forall (o o' : options),
    verbose o <= INT_MAX ->
    parse_arguments ndebug argv o = Proceed o' ->
    forallb (taken ndebug) argv = true
    /\ (length (files argv) <= paths_left o)%nat.
Proof.
  induction argv as [|arg argv IH]; intros o o' Hv H.
  - split; [reflexivity |]. cbn. lia.
  - assert (R : taken ndebug arg = false
                \/ is_option arg = false /\ path o <> None -> False).
    { intros C.
      destruct (parse_arguments_refused ndebug arg argv o C)
        as (st & fmt & args & E).
      congruence. }
    destruct (taken ndebug arg) eqn:Ta; [| exfalso; apply R; now left].
    assert (Hp : is_option arg = false -> path o = None).
    { intros O. destruct (path o) eqn:Pa; [| reflexivity].
      exfalso. apply R. right. split; [exact O | discriminate]. }
    rewrite parse_arguments_taken in H by assumption.
    apply IH in H; [| apply verbose_merge]. destruct H as [F L].
    rewrite paths_left_merge in L.
    cbn [forallb]. rewrite Ta, F. split; [reflexivity |].
    unfold files in *. cbn [filter].
    destruct (is_option arg) eqn:O; cbn [negb length] in *; [lia |].
    unfold paths_left in *. rewrite (Hp eq_refl) in *. lia.
Qed.

(** X9.  The loop over the arguments gets to its end exactly on the
    command lines whose arguments are all options that set something
    ([-l] and [--log] only with logging compiled in) or paths, with at most
    one path among them.  The options it leaves do not depend on the order
    of the arguments nor on how often one is given: no witness if [-n] is
    there, quiet if [-q] is, logging if [-l] is, the path if there is one,
    and a verbose level of one more than the number of [-v], which stops at
    [INT_MAX] and never overflows. *)
Theorem arguments_accepted (ndebug : bool) (argv : list string) (o : options) :
  parse_arguments ndebug argv default_options = Proceed o
  <-> accepted ndebug argv = true /\ o = merge default_options argv.
Proof.
  assert (Hv : verbose default_options <= INT_MAX) by (vm_compute; discriminate).
  unfold accepted. split.
  - intros H.
    destruct (parse_arguments_proceeds ndebug argv _ _ Hv H) as [F L].
    change (paths_left default_options) with 1%nat in L.
    rewrite F. split; [apply Nat.leb_le, L |].
    rewrite <- (app_nil_r argv) in H.
    rewrite parse_arguments_app in H by assumption.
    cbn [parse_arguments] in H. congruence.
  - intros [A ->]. apply andb_true_iff in A. destruct A as [F L].
    apply Nat.leb_le in L.
    rewrite <- (app_nil_r argv) at 1.
    rewrite parse_arguments_app by assumption. reflexivity.
Qed.


(** ** The handlers of the signals, set and set back *)

Lemma signals_apart (a b c d e : Z) :
  NoDup [a; b; c; d; e] ->
  a <> b /\ a <> c /\ a <> d /\ a <> e /\ b <> c /\ b <> d
  /\ b <> e /\ c <> d /\ c <> e /\ d <> e.
Proof.
  intros Hnd.
  inversion Hnd as [|? ? Na Hnd1]; subst.
  inversion Hnd1 as [|? ? Nb Hnd2]; subst.
  inversion Hnd2 as [|? ? Nc Hnd3]; subst.
  inversion Hnd3 as [|? ? Nd Hnd4]; subst.
  cbn [In] in Na, Nb, Nc, Nd.
  repeat split; intros E; subst; tauto.
Qed.



(** X12.  The name [catch_signal] prints is the name of the signal it was
    called for, for each of the five signals of [SIGNALS], and
    [SIGNUNKNOWN] for every other number. *)
Theorem signal_name_spec (n : signal_numbers) (sig : Z) :
  NoDup (map fst (SIGNALS n)) ->
  (forall name, In (sig, name) (SIGNALS n) -> signal_name n sig = name)
  /\ (~ watched n sig -> signal_name n sig = "SIGNUNKNOWN"%string).
Proof.
  intros Hnd. destruct n as [a b c d e].
  cbn [SIGNALS map fst SIGABRT SIGBUS SIGINT SIGSEGV SIGTERM] in Hnd.
  destruct (signals_apart a b c d e Hnd)
    as (? & ? & ? & ? & ? & ? & ? & ? & ? & ?).
  unfold signal_name, watched.
  cbn [SIGNALS map fold_left fst snd In SIGABRT SIGBUS SIGINT SIGSEGV SIGTERM].
  split.
  - intros name [E | [E | [E | [E | [E | []]]]]]; inversion E; subst;
      signal_tests; reflexivity.
  - intros N.
    destruct (Z.eqb_spec sig a) as [->|?]; [exfalso; apply N; tauto |].
    destruct (Z.eqb_spec sig b) as [->|?]; [exfalso; apply N; tauto |].
    destruct (Z.eqb_spec sig c) as [->|?]; [exfalso; apply N; tauto |].
    destruct (Z.eqb_spec sig d) as [->|?]; [exfalso; apply N; tauto |].
    destruct (Z.eqb_spec sig e) as [->|?]; [exfalso; apply N; tauto |].
    reflexivity.
Qed.

Lemma signal_name_spec_witness :
  let n := mkSignals 6 7 2 11 15 in
  (forall name, In (2, name) (SIGNALS n) -> signal_name n 2 = name)
  /\ (~ watched n 2 -> signal_name n 2 = "SIGNUNKNOWN"%string).
Proof.
  apply (signal_name_spec (mkSignals 6 7 2 11 15) 2).
  repeat constructor; cbn; intuition discriminate.
Defined.
(** ** The witness in [main] *)

Lemma numbers_from_cons (i : Z) (n : nat) :
  numbers_from i (S n) = i :: numbers_from (i + 1) n.
Proof.
  unfold numbers_from. cbn [seq map]. rewrite Z.add_0_r. f_equal.
  rewrite <- seq_shift, map_map. apply map_ext. intros k. lia.
Qed.

Lemma print_values_app (a b : list Z) (p : printer) :
  print_values (a ++ b) p
  = match print_values a p with
    | Done p' => print_values b p'
    | Failed f => Failed f
    end.
Proof.
  revert p. induction a as [|x a IH]; intros p; [reflexivity |].
  cbn [app print_values]. destruct (print_value x p); [apply IH | reflexivity].
Qed.

(** The loop prints the values of the variables from [i] on, as long as
    its counter can be incremented. *)
Lemma print_values_from_run (val : Z -> Z) (V : Z) (n : nat) :
  forall (fuel : nat) (i : Z) (p : printer),
    i + Z.of_nat n = Z.max (V + 1) i -> V < INT_MAX -> (n < fuel)%nat ->
    print_values_from fuel val V i p
    = Some (print_values (map val (numbers_from i n)) p).
Proof.
  induction n as [|n IH]; intros fuel i p Hi HV Hf;
    (destruct fuel as [|fuel]; [lia |]); cbn [print_values_from].
  - destruct (Z.leb_spec i V); [lia | reflexivity].
  - destruct (Z.leb_spec i V); [| lia].
    rewrite numbers_from_cons. cbn [map print_values].
    destruct (print_value (val i) p) as [p'|f]; [| reflexivity].
    destruct (Z.ltb_spec INT_MAX (i + 1)); [lia |].
    apply IH; lia.
Qed.

(** With [INT_MAX] variables the counter of the loop cannot be incremented
    behind the last value. *)
Lemma print_values_from_overflow (val : Z -> Z) (n : nat) :
  (forall i, int_range (val i)) ->
  forall (fuel : nat) (i : Z) (p : printer),
    printer_ok p ->
    i + Z.of_nat (S n) = INT_MAX + 1 -> (S n < fuel)%nat ->
    print_values_from fuel val INT_MAX i p = Some (Failed SignedOverflow).
Proof.
  intros Hval. induction n as [|n IH]; intros fuel i p Hok Hi Hf;
    (destruct fuel as [|fuel]; [lia |]); cbn [print_values_from];
    (destruct (Z.leb_spec i INT_MAX); [| lia]);
    destruct (print_value_spec (val i) p Hok (Hval i)) as (p' & E & Hok' & _);
    rewrite E.
  - destruct (Z.ltb_spec INT_MAX (i + 1)); [reflexivity | lia].
  - destruct (Z.ltb_spec INT_MAX (i + 1)); [lia |].
    apply IH; [exact Hok' | lia | lia].
Qed.

(** X13.  The witness [main] prints for a model of fewer than [INT_MAX]
    variables is made of the value of every variable, from the first to
    the last one, and a zero behind them, printed by [print_value] and
    flushed at the end.  With [INT_MAX] variables, which the parser
    accepts, the counter of the loop overflows behind the last value,
    before the zero is printed. *)
Theorem model_printed (val : Z -> Z) (V : Z) (p : printer) :
  (V < INT_MAX ->
   print_model val V p
   = Some (print_witness (map val (numbers_from 1 (Z.to_nat V))) p))
  /\ (V = INT_MAX -> (forall i, int_range (val i)) -> printer_ok p ->
      print_model val V p = Some (Failed SignedOverflow)).
Proof.
  unfold print_model. split.
  - intros HV.
    rewrite (print_values_from_run val V (Z.to_nat V)) by lia.
    unfold print_witness, print_and_flush. rewrite print_values_app.
    destruct (print_values _ p) as [p1|f]; [| reflexivity].
    cbn [print_values]. destruct (print_value 0 p1); reflexivity.
  - intros -> Hval Hok.
    rewrite (print_values_from_overflow val (Z.to_nat INT_MAX - 1) Hval);
      [reflexivity | exact Hok | unfold INT_MAX; lia | unfold INT_MAX; lia].
Qed.

Lemma model_printed_witness :
  (3 < INT_MAX ->
   print_model (fun i => if Z.even i then - i else i) 3 (printer_start [])
   = Some (print_witness
             (map (fun i => if Z.even i then - i else i)
                  (numbers_from 1 (Z.to_nat 3))) (printer_start [])))
  /\ (3 = INT_MAX ->
      (forall i, int_range ((fun i => if Z.even i then - i else i) i)) ->
      printer_ok (printer_start []) ->
      print_model (fun i => if Z.even i then - i else i) 3 (printer_start [])
      = Some (Failed SignedOverflow)).
Proof.
  exact (model_printed (fun i => if Z.even i then - i else i) 3
           (printer_start [])).
Defined.

Example witness_of_three_variables :
  print_model (fun i => if Z.even i then - i else i) 3 (printer_start [])
  = Some (Done (mkPrinter (text " 1 -2 3 0" ++ NUL :: repeat NUL 70) 0
                          (line "v 1 -2 3 0"))).
Proof.
  vm_compute. reflexivity.
Qed.

(** ** The values of a witness, read back *)

Lemma value_snoc (ds : list ascii) (c : ascii) :
  value (ds ++ [c]) = 10 * value ds + (code c - 48).
Proof.
  unfold value. rewrite value_from_app. reflexivity.
Qed.

(** The digits [printf] writes are those of the number. *)
Lemma decimal_fuel_value (fuel : nat) :
  forall n, 0 <= n < 2 ^ Z.of_nat fuel -> value (decimal_fuel fuel n) = n.
Proof.
  induction fuel as [|fuel IH]; intros n Hn.
  - change (2 ^ Z.of_nat 0) with 1 in Hn. assert (n = 0) by lia. now subst.
  - cbn [decimal_fuel]. rewrite value_snoc.
    pose proof (Z.mod_pos_bound n 10 eq_refl) as Hm.
    rewrite code_digit_char by lia.
    rewrite Nat2Z.inj_succ, Z.pow_succ_r in Hn by lia.
    destruct (Z.ltb_spec n 10) as [Hs|Hl].
    + change (value []) with 0. rewrite Z.mod_small by lia. lia.
    + rewrite IH.
      * pose proof (Z.div_mod n 10). lia.
      * split; [apply Z.div_pos; lia |].
        apply Z.div_lt_upper_bound; lia.
Qed.

Lemma decimal_fuel_head (fuel : nat) :
  forall n, 1 <= n < 2 ^ Z.of_nat fuel ->
    exists d rest, decimal_fuel fuel n = digit_char d :: rest /\ 1 <= d <= 9.
Proof.
  induction fuel as [|fuel IH]; intros n Hn.
  - change (2 ^ Z.of_nat 0) with 1 in Hn. lia.
  - cbn [decimal_fuel].
    rewrite Nat2Z.inj_succ, Z.pow_succ_r in Hn by lia.
    destruct (Z.ltb_spec n 10) as [Hs|Hl].
    + exists n, []. rewrite Z.mod_small by lia. split; [reflexivity | lia].
    + destruct (IH (n / 10)) as (d & rest & E & Hd).
      * split; [apply Z.div_le_lower_bound; lia |].
        apply Z.div_lt_upper_bound; lia.
      * rewrite E. exists d, (rest ++ [digit_char (n mod 10)]).
        split; [reflexivity | exact Hd].
Qed.

Lemma log2_fuel (n : Z) : 0 <= n -> n < 2 ^ Z.of_nat (S (Z.to_nat (Z.log2 n))).
Proof.
  intros Hn. rewrite Nat2Z.inj_succ, Z2Nat.id by apply Z.log2_nonneg.
  destruct (Z.eq_dec n 0) as [->|N]; [reflexivity |].
  apply Z.log2_spec. lia.
Qed.

(** [decimal] gives the numeral of the number. *)
Lemma decimal_numeral (n : Z) :
  0 <= n -> numeral (decimal n) /\ value (decimal n) = n.
Proof.
  intros Hn. pose proof (log2_fuel n Hn) as Hf. unfold decimal.
  split; [| apply decimal_fuel_value; lia].
  split; [| split].
  - pose proof (decimal_fuel_nonempty (Z.to_nat (Z.log2 n)) n) as L.
    intros E. rewrite E in L. simpl in L. lia.
  - apply decimal_fuel_digits, Hn.
  - intros r E. destruct (Z.eq_dec n 0) as [->|N].
    + vm_compute in E. now inversion E.
    + destruct (decimal_fuel_head (S (Z.to_nat (Z.log2 n))) n)
        as (d & rest & E' & Hd); [lia |].
      rewrite E' in E. inversion E as [[Hc Hr]].
      assert (C : code (digit_char d) = code "0") by now rewrite Hc.
      rewrite code_digit_char in C by lia. codes. lia.
Qed.

Lemma format_value_literal (lit : Z) :
  format_value lit
  = " "%char :: render_literal (lit <? 0) (decimal (Z.abs lit)).
Proof.
  unfold format_value, render_literal.
  destruct (Z.ltb_spec lit 0).
  - rewrite Z.abs_neq by lia. reflexivity.
  - rewrite Z.abs_eq by lia. reflexivity.
Qed.

Lemma value_items_text (rest : list Z) :
  forall lit,
    render_items (value_items (lit :: rest))
    = render_literal (lit <? 0) (decimal (Z.abs lit))
      ++ flat_map format_value rest ++ [LF].
Proof.
  induction rest as [|x rest IH]; intros lit.
  - unfold render_items. cbn [value_items flat_map render_item
                              render_delimiter render_eol].
    now rewrite app_nil_r.
  - unfold render_items in *. cbn [value_items flat_map render_item] in *.
    change (value_items (x :: rest)) with
      (Lit (x <? 0) (decimal (Z.abs x))
           match rest with [] => Newline Unix | _ :: _ => Space end
       :: value_items rest) in IH.
    cbn [flat_map render_item] in IH. rewrite IH.
    rewrite format_value_literal. cbn [render_delimiter].
    now rewrite <- !app_assoc.
Qed.

Lemma values_line_text (lits : list Z) :
  render_items (values_line lits) = flat_map format_value lits ++ [LF].
Proof.
  destruct lits as [|lit rest]; [reflexivity |].
  unfold values_line. change (render_items (Skip Space :: ?l))
    with (" "%char :: render_items l).
  rewrite value_items_text. cbn [flat_map].
  now rewrite format_value_literal, <- app_assoc.
Qed.

Lemma value_items_literals (lits : list Z) :
  literals (value_items lits) = lits.
Proof.
  induction lits as [|lit rest IH]; [reflexivity |].
  cbn [value_items literals]. rewrite IH. f_equal.
  unfold literal_value.
  rewrite (proj2 (decimal_numeral (Z.abs lit) (Z.abs_nonneg lit))).
  destruct (Z.ltb_spec lit 0); lia.
Qed.

Lemma values_line_literals (lits : list Z) :
  literals (values_line lits) = lits.
Proof.
  destruct lits as [|lit rest]; [reflexivity |].
  unfold values_line. cbn [literals]. apply value_items_literals.
Qed.

Lemma values_line_ok (V : Z) (lits : list Z) :
  Forall (fun x => Z.abs x <= V) lits -> Forall (item_ok V) (values_line lits).
Proof.
  intros H. assert (K : Forall (item_ok V) (value_items lits)).
  { induction H as [|lit rest Hl _ IH]; [constructor |].
    cbn [value_items]. constructor; [| exact IH].
    destruct (decimal_numeral (Z.abs lit) (Z.abs_nonneg lit)) as [N E].
    cbn [item_ok]. rewrite E.
    split; [exact N | split; [exact Hl |]]. now destruct rest. }
  destruct lits; constructor; try exact K; exact I.
Qed.

(** X14.  The text [print_value] gives the values of a witness is text the
    parser reads: behind a header, a line of values that are variables of
    the header or their negations, in clauses that are closed, is parsed
    without error, and the literals that are added are the values that were
    printed, each one with its sign. *)
Theorem printed_values_read_back (V M : Z) (h : header) (lits : list Z) :
  header_ok V M h ->
  Forall (fun x => Z.abs x <= V) lits ->
  closed lits = M -> last lits 0 = 0 ->
  exists s',
    parse (initial (render_header h ++ flat_map format_value lits ++ [LF]))
    = Ok (M, M) s'
    /\ added s' = lits /\ file s' = [].
Proof.
  intros Hh Hl Hc Hz.
  pose proof (values_line_ok V lits Hl) as Hitems.
  set (input := render_header h ++ _).
  destruct (parse_prefix V M h (values_line lits) [] (initial input) Hh Hitems)
    as (fuel & s' & Hfuel & R & Hs' & Hv & Ha & E).
  { rewrite values_line_literals, <- Hc. apply (closed_room lits 0 Hz). }
  { unfold input. cbn [initial file].
    now rewrite values_line_text, app_nil_r. }
  rewrite values_line_literals in *.
  exists s'. rewrite E. unfold bind at 1.
  rewrite body_loop_eof by (auto; lia).
  unfold bind. rewrite end_of_file_closed.
  - unfold locals_after. cbn [parsed_clauses initial added] in *.
    unfold closed in Hc. rewrite Hc. auto.
  - unfold locals_after. cbn [lit]. exact Hz.
  - unfold locals_after. cbn [parsed_clauses]. unfold closed in Hc. lia.
Qed.

Lemma printed_values_read_back_witness :
  exists s',
    parse (initial (render_header (plain_header "3" "2")
                    ++ flat_map format_value [1; -2; 0; -3; 0] ++ [LF]))
    = Ok (2, 2) s'
    /\ added s' = [1; -2; 0; -3; 0] /\ file s' = [].
Proof.
  apply (printed_values_read_back 3 2 (plain_header "3" "2") [1; -2; 0; -3; 0]).
  - header_proof.
  - repeat constructor; vm_compute; discriminate.
  - reflexivity.
  - reflexivity.
Defined.
(** ** The values of the lines of a witness *)

Lemma v_line_not_nil (l : list ascii) : v_line l <> [].
Proof.
  discriminate.
Qed.

(** A value that fits the line is put behind the values that are there. *)
Lemma print_value_fits (lit : Z) (p p' : printer) :
  printer_ok p -> int_range lit ->
  size_buffer p + Z.of_nat (length (format_value lit)) <= 77 ->
  print_value lit p = Done p' -> stdout p' = stdout p.
Proof.
  intros (L & S & P) Hlit Hfit. unfold print_value.
  destruct (format_value_spec lit Hlit) as [Hsize _].
  destruct (Z.leb_spec 32 (Z.of_nat (length (format_value lit)))); [lia |].
  rewrite wrap64_small by arith.
  destruct (Z.ltb_spec 77 (size_buffer p + Z.of_nat (length (format_value lit))));
    [lia |].
  destruct (_ <? _); [discriminate |]. intros E. inversion E. reflexivity.
Qed.

(** What [print_value] does with a value, by the room in the line. *)
Lemma print_value_cases (lit : Z) (p : printer) :
  printer_ok p -> int_range lit ->
  exists p',
    print_value lit p = Done p' /\ printer_ok p'
    /\ if (77 <? length (pending p) + length (format_value lit))%nat
       then pending p <> [] /\ stdout p' = stdout p ++ v_line (pending p)
            /\ pending p' = format_value lit
       else stdout p' = stdout p
            /\ pending p' = pending p ++ format_value lit.
Proof.
  intros Hok Hlit. pose proof (pending_length p Hok) as Hlen.
  destruct (print_value_spec lit p Hok Hlit) as (p' & E & Hok' & _ & Hcase).
  pose proof (pending_length p' Hok') as Hlen'.
  pose proof Hok as (_ & S & _). pose proof Hok' as (_ & S' & _).
  exists p'. split; [exact E | split; [exact Hok' |]].
  destruct (Nat.ltb_spec 77 (length (pending p) + length (format_value lit)))
    as [Hfull|Hfits].
  - destruct Hcase as [[O1 P1]|((_ & Hne & _) & O1 & P1)]; [| auto].
    rewrite P1, length_app in Hlen'. lia.
  - destruct Hcase as [[O1 P1]|(_ & O1 & P1)]; [auto |].
    rewrite (print_value_fits lit p p' Hok Hlit) in O1 by (assumption || lia).
    exfalso. apply (v_line_not_nil (pending p)).
    apply (app_inv_head (stdout p)). now rewrite app_nil_r.
Qed.

Lemma values_text_app (a b : list Z) :
  values_text (a ++ b) = values_text a ++ values_text b.
Proof.
  unfold values_text. apply flat_map_app.
Qed.

Lemma values_text_nil (g : list Z) :
  Forall int_range g -> values_text g = [] -> g = [].
Proof.
  intros H E. destruct H as [|x g Hx _]; [reflexivity |].
  destruct (format_value_spec x Hx) as [L _].
  unfold values_text in E. cbn [flat_map] in E.
  apply app_eq_nil in E. destruct E as [E _]. rewrite E in L. simpl in L. lia.
Qed.

(** The lines that are written and the line in the buffer, value by
    value: [cur] are the values in the buffer before. *)
Lemma print_values_groups (lits : list Z) :
  Forall int_range lits ->
  forall (p : printer) (cur : list Z),
    printer_ok p -> Forall int_range cur -> pending p = values_text cur ->
    exists p' done last more tail,
      print_values lits p = Done p' /\ printer_ok p'
      /\ stdout p' = stdout p ++ flat_map v_line (map values_text done)
      /\ pending p' = values_text last
      /\ cur ++ lits = concat done ++ last
      /\ Forall (fun g => g <> []) done
      /\ Forall int_range last
      /\ done ++ [last] = (cur ++ more) :: tail
      /\ filled (done ++ [last]).
Proof.
  induction 1 as [|lit lits Hlit Hlits IH]; intros p cur Hok Hcur Hp.
  - exists p, [], cur, [], []. cbn [print_values map flat_map concat app].
    rewrite !app_nil_r.
    split; [reflexivity |]. split; [exact Hok |]. split; [reflexivity |].
    split; [exact Hp |]. split; [reflexivity |]. split; [constructor |].
    split; [exact Hcur |]. split; [reflexivity | exact I].
  - destruct (print_value_cases lit p Hok Hlit) as (p1 & E1 & Hok1 & Hcase).
    cbn [print_values]. rewrite E1.
    destruct (77 <? length (pending p) + length (format_value lit))%nat eqn:Full.
    + destruct Hcase as (Hne & O1 & P1).
      destruct (IH p1 [lit] Hok1) as
        (p' & done & last & more & tail & E & Hok' & O & P & C & N & R & G & F).
      { constructor; [exact Hlit | constructor]. }
      { unfold values_text. cbn [flat_map]. now rewrite app_nil_r. }
      exists p', (cur :: done), last, [], (done ++ [last]).
      split; [exact E |]. split; [exact Hok' |].
      split; [rewrite O, O1, Hp, <- app_assoc; reflexivity |].
      split; [exact P |].
      split; [cbn [concat]; rewrite <- app_assoc, <- C; reflexivity |].
      split; [constructor; [| exact N] |].
      { intros ->. apply Hne. rewrite Hp. reflexivity. }
      split; [exact R |].
      split; [now rewrite app_nil_r |].
      cbn [app]. rewrite G in *. cbn [filled app]. split; [| exact F].
      apply Nat.ltb_lt in Full. rewrite Hp in Full. exact Full.
    + destruct Hcase as (O1 & P1).
      destruct (IH p1 (cur ++ [lit]) Hok1) as
        (p' & done & last & more & tail & E & Hok' & O & P & C & N & R & G & F).
      { apply Forall_app. split; [exact Hcur | constructor; [exact Hlit | constructor]]. }
      { rewrite P1, Hp, values_text_app. unfold values_text at 3.
        cbn [flat_map]. now rewrite app_nil_r. }
      exists p', done, last, (lit :: more), tail.
      split; [exact E |]. split; [exact Hok' |].
      split; [now rewrite O, O1 |]. split; [exact P |].
      split; [rewrite <- C, <- app_assoc; reflexivity |].
      split; [exact N |]. split; [exact R |].
      split; [rewrite G, <- app_assoc; reflexivity | exact F].
Qed.

Lemma printer_start_ok (out : list ascii) : printer_ok (printer_start out).
Proof.
  split; [reflexivity | split; [cbn; lia | constructor]].
Qed.

Lemma filled_empty_last (done : list (list Z)) :
  filled (done ++ [[]]) -> done = [].
Proof.
  induction done as [|g done IH]; [reflexivity |].
  destruct done as [|g' done]; cbn [app filled]; [tauto |].
  intros [_ F]. specialize (IH F). discriminate.
Qed.

(** X15.  The lines of a witness are made of whole values: no value is
    cut by the end of a line, every line holds at least one value, and every
    line but the last one is full, the value that starts the next line
    being one that did not fit in the 77 characters behind the [v]. *)
Theorem lines_of_whole_values (lits : list Z) (out : list ascii) :
  Forall int_range lits ->
  exists p groups,
    print_and_flush lits (printer_start out) = Done p
    /\ stdout p = out ++ flat_map v_line (map values_text groups)
    /\ concat groups = lits
    /\ Forall (fun g => g <> []) groups
    /\ filled groups.
Proof.
  intros Hlits.
  destruct (print_values_groups lits Hlits (printer_start out) [])
    as (p1 & done & last & more & tail & E & Hok & O & P & C & N & R & G & F);
    [apply printer_start_ok | constructor | reflexivity |].
  destruct (flush_spec p1 Hok) as (p2 & E2 & _ & _ & O2 & _).
  unfold print_and_flush. rewrite E, E2. cbn [app] in C.
  destruct last as [|x last].
  - exists p2, done. rewrite P in O2. cbn in O2.
    pose proof (filled_empty_last done F) as D. subst done.
    rewrite O2, O, app_nil_r. cbn [concat app] in C.
    split; [reflexivity |]. split; [reflexivity |].
    split; [now rewrite C |]. split; [constructor | exact I].
  - exists p2, (done ++ [x :: last]).
    assert (Hne : values_text (x :: last) <> []).
    { intros Z0. apply values_text_nil in Z0; [discriminate | exact R]. }
    rewrite P in O2. destruct (values_text (x :: last)) as [|c l] eqn:T;
      [contradiction |].
    split; [reflexivity |].
    split; [rewrite O2, O, map_app, flat_map_app, <- app_assoc;
            cbn [map flat_map printer_start stdout]; rewrite T, app_nil_r;
            reflexivity |].
    split; [rewrite concat_app; cbn [concat]; now rewrite app_nil_r |].
    split; [apply Forall_app; split; [exact N |]; constructor;
            [discriminate | constructor] | exact F].
Qed.

Lemma lines_of_whole_values_witness :
  exists p groups,
    print_and_flush (repeat (-2147483647) 7) (printer_start []) = Done p
    /\ stdout p = [] ++ flat_map v_line (map values_text groups)
    /\ concat groups = repeat (-2147483647) 7
    /\ Forall (fun g => g <> []) groups
    /\ filled groups.
Proof.
  apply (lines_of_whole_values (repeat (-2147483647) 7) []).
  repeat constructor; vm_compute; discriminate.
Defined.

Example seven_long_values :
  match print_and_flush (repeat (-2147483647) 7) (printer_start []) with
  | Done p =>
      stdout p
      = flat_map v_line
          (map values_text [repeat (-2147483647) 6; [-2147483647]])
  | Failed _ => False
  end.
Proof.
  vm_compute. reflexivity.
Qed.
(** ** The text behind a run of the parser *)

Lemma took_refl (s : state) : took [] s s.
Proof.
  repeat split.
Qed.

Lemma took_trans (k1 k2 : list ascii) (s s1 s2 : state) :
  took k1 s s1 -> took k2 s1 s2 -> took (k1 ++ k2) s s2.
Proof.
  intros (F1 & V1 & A1) (F2 & V2 & A2).
  split; [rewrite F1, F2, app_assoc; reflexivity | split; congruence].
Qed.

Lemma follows_took (k : list ascii) (s s' : state) :
  follows k s s' -> took k s s'.
Proof.
  intros ((F & _) & V & A). repeat split; assumption.
Qed.

Lemma holds_ret {A} (a : A) (s : state) (Q : A -> state -> Prop)
    (E : state -> Prop) :
  Q a s -> holds (ret a) s Q E.
Proof.
  auto.
Qed.

Lemma holds_eq {A} (m : M A) (s : state) (Q : A -> state -> Prop)
    (E : state -> Prop) :
  (forall a s', m s = Ok a s' -> Q a s') -> (forall s', E s') ->
  holds m s Q E.
Proof.
  intros HQ HE. unfold holds. destruct (m s); auto.
Qed.

(** A fact about the value alone can be used for the state. *)
Lemma holds_and_value {A} (m : M A) (s : state) (P : A -> Prop)
    (Q : A -> state -> Prop) (E : state -> Prop) :
  holds m s (fun a _ => P a) (fun _ => True) ->
  holds m s (fun a s' => P a -> Q a s') E ->
  holds m s Q E.
Proof.
  unfold holds. destruct (m s); auto.
Qed.

(** What [next] has taken from the stream when it returns. *)
Lemma next_inv (s : state) :
  holds next s (fun ch s' => next_result s ch s') (fun _ => True).
Proof.
  apply holds_eq; [| auto]. intros ch s' N. unfold next_result.
  destruct (next_head s s' ch N)
    as [[F ->]|[(c & r & F & Hc & ->)|(r & F & ->)]].
  - left. rewrite next_eof in N by exact F. inversion N. subst. auto.
  - right. destruct (next_step s c r F Hc) as (s1 & N1 & T1 & F1).
    rewrite N in N1. inversion N1. subst s1.
    exists [c]. split; [left; now exists c |].
    apply follows_took in T1. exact T1.
  - right. rewrite (next_crlf s r F) in N. inversion N.
    exists [CR; LF]. split; [now right |].
    split; [cbn [advance file tl]; rewrite F; reflexivity | split; reflexivity].
Qed.

Lemma token_not_eof (ch : Z) (k : list ascii) : token ch k -> ch <> EOF.
Proof.
  intros [(c & _ & _ & ->)|[_ ->]]; [| discriminate].
  pose proof (code_range c). unfold EOF. lia.
Qed.

(** The bytes of a token that is not a line feed: one byte, the character. *)
Lemma token_plain (ch : Z) (k : list ascii) :
  token ch k -> ch <> code LF ->
  exists c, k = [c] /\ c <> CR /\ c <> LF /\ ch = code c.
Proof.
  intros [(c & -> & Hc & ->)|[_ ->]] N; [| contradiction].
  exists c. repeat split; auto. intros ->. contradiction.
Qed.

(** The bytes of a token that is a line feed: an end of line. *)
Lemma token_eol (k : list ascii) :
  token (code LF) k -> exists e, k = render_eol e.
Proof.
  intros [(c & -> & Hc & E)|[-> _]]; [| now exists Dos].
  apply code_inj in E. subst c. now exists Unix.
Qed.

(** The token of a byte that is known. *)
Lemma token_char (c : ascii) (k : list ascii) :
  token (code c) k -> c <> LF -> k = [c].
Proof.
  intros T N. destruct (token_plain _ _ T) as (c' & -> & _ & _ & E).
  - intros E. apply code_inj in E. contradiction.
  - apply code_inj in E. now subst.
Qed.

Lemma skip_line_inv (msg : string) (fuel : nat) :
  forall s,
    holds (skip_line msg fuel) s
          (fun _ s' => exists t e, comment_text t
                                   /\ took (t ++ render_eol e) s s')
          (fun _ => True).
Proof.
  induction fuel as [|fuel IH]; intros s; [exact I |].
  cbn [skip_line]. apply holds_bind.
  eapply holds_weaken; [apply next_inv | cbv beta | auto].
  intros ch s1 [(-> & F & ->)|(k & T & K)].
  - cbn. exact I.
  - destruct (Z.eqb_spec ch (code LF)) as [->|N]; cbn [negb].
    + destruct (token_eol k T) as [e ->].
      apply holds_ret. exists [], e. split; [constructor | exact K].
    + destruct (Z.eqb_spec ch EOF) as [E|_];
        [now apply token_not_eof in T |].
      destruct (token_plain ch k T N) as (c & -> & Hcr & Hlf & ->).
      eapply holds_weaken; [apply IH | cbv beta | auto].
      intros _ s2 (t & e & Ht & K2). exists (c :: t), e.
      split; [constructor; [split; assumption | exact Ht] |].
      exact (took_trans [c] _ _ _ _ K K2).
Qed.

Lemma skip_blanks_inv (fuel : nat) :
  forall s,
    holds (skip_blanks fuel) s
          (fun ch s' => exists ws s1,
               blanks ws /\ took ws s s1 /\ next_result s1 ch s'
               /\ ch <> code " " /\ ch <> code TAB)
          (fun _ => True).
Proof.
  induction fuel as [|fuel IH]; intros s; [exact I |].
  cbn [skip_blanks]. apply holds_bind.
  eapply holds_weaken; [apply next_inv | cbv beta | auto].
  intros ch s1 R.
  destruct (Z.eqb_spec ch (code " ")) as [->|N1]; cbn [orb].
  - destruct R as [(E & _)|(k & T & K)]; [discriminate |].
    rewrite (token_char " " k T) in K by discriminate.
    eapply holds_weaken; [apply IH | cbv beta | auto].
    intros ch2 s2 (ws & s3 & Hws & K3 & R3 & B).
    exists (" "%char :: ws), s3.
    split; [constructor; [now left | exact Hws] |].
    split; [exact (took_trans [" "%char] _ _ _ _ K K3) | auto].
  - destruct (Z.eqb_spec ch (code TAB)) as [->|N2].
    + destruct R as [(E & _)|(k & T & K)]; [discriminate |].
      rewrite (token_char TAB k T) in K by discriminate.
      eapply holds_weaken; [apply IH | cbv beta | auto].
      intros ch2 s2 (ws & s3 & Hws & K3 & R3 & B).
      exists (TAB :: ws), s3.
      split; [constructor; [now right | exact Hws] |].
      split; [exact (took_trans [TAB] _ _ _ _ K K3) | auto].
    + apply holds_ret. exists [], s.
      split; [constructor |]. split; [apply took_refl | auto].
Qed.

Lemma header_comments_inv (fuel : nat) :
  forall s,
    holds (header_comments fuel) s
          (fun ch s' => exists cs s1,
               Forall (fun l => comment_text (fst l)) cs
               /\ took (flat_map (fun l => render_comment (fst l) (snd l)) cs)
                       s s1
               /\ next_result s1 ch s' /\ ch <> code "c")
          (fun _ => True).
Proof.
  induction fuel as [|fuel IH]; intros s; [exact I |].
  cbn [header_comments]. apply holds_bind.
  eapply holds_weaken; [apply next_inv | cbv beta | auto].
  intros ch s1 R.
  destruct (Z.eqb_spec ch (code "c")) as [->|N].
  - destruct R as [(E & _)|(k & T & K)]; [discriminate |].
    rewrite (token_char "c" k T) in K by discriminate.
    apply holds_bind.
    eapply holds_weaken;
      [ apply (skip_line_inv _ (S (length (file s1)))) | cbv beta | auto ].
    intros _ s2 (t & e & Ht & K2).
    eapply holds_weaken; [apply IH | cbv beta | auto].
    intros ch3 s3 (cs & s4 & Hcs & K4 & R4 & B).
    exists ((t, e) :: cs), s4.
    split; [constructor; [exact Ht | exact Hcs] |].
    split; [| auto]. cbn [flat_map fst snd]. unfold render_comment at 1.
    change ("c"%char :: t ++ render_eol e) with (["c"%char] ++ t ++ render_eol e).
    rewrite <- app_assoc.
    exact (took_trans _ _ _ _ _ K (took_trans _ _ _ _ _ K2 K4)).
  - apply holds_ret. exists [], s.
    split; [constructor |]. split; [apply took_refl | auto].
Qed.

(** A digit that [next] gives is a byte of the stream. *)
Lemma next_result_digit (s s' : state) (ch : Z) :
  next_result s ch s' -> isdigit ch = true ->
  exists c, is_digit c /\ ch = code c /\ took [c] s s'.
Proof.
  intros R D. pose proof (proj1 (isdigit_iff ch) D) as B.
  destruct R as [(-> & _)|(k & T & K)]; [unfold EOF in B; lia |].
  destruct (token_plain ch k T) as (c & -> & _ & _ & ->); [codes; lia |].
  exists c. auto.
Qed.

(** A character that [next] gives and that is known is a byte of the
    stream. *)
Lemma next_result_char (s s' : state) (c : ascii) :
  next_result s (code c) s' -> c <> LF -> took [c] s s'.
Proof.
  intros [(E & _)|(k & T & K)] N.
  - pose proof (code_range c). unfold EOF in E. lia.
  - now rewrite (token_char c k T N) in K.
Qed.

Lemma literal_digits_inv (fuel : nat) :
  forall acc s, 0 <= acc <= INT_MAX ->
    holds (literal_digits fuel acc) s
          (fun r s' => exists ds s1,
               Forall is_digit ds /\ took ds s s1
               /\ next_result s1 (snd r) s' /\ isdigit (snd r) = false
               /\ fst r = value_from acc ds
               /\ (ds <> [] -> acc <> 0) /\ 0 <= fst r <= INT_MAX)
          (fun _ => True).
Proof.
  induction fuel as [|fuel IH]; intros acc s Hacc; [exact I |].
  cbn [literal_digits]. apply holds_bind.
  eapply holds_weaken; [apply next_inv | cbv beta | auto].
  intros ch s1 R. destruct (isdigit ch) eqn:D.
  - destruct (next_result_digit s s1 ch R D) as (c & Hc & -> & K).
    pose proof (digit_code c Hc) as Bc.
    apply holds_bind, holds_when_error; [exact I | intros Z0].
    apply Z.eqb_neq in Z0.
    apply holds_bind, holds_when_error; [exact I | intros B].
    change (INT_MAX ÷ 10) with 214748364 in B. apply Z.ltb_ge in B.
    apply holds_bind, holds_int_val. apply holds_bind, holds_int_val.
    apply holds_bind, holds_when_error; [exact I | intros B2].
    apply Z.ltb_ge in B2. codes.
    apply holds_bind, holds_int_val.
    eapply holds_weaken; [apply IH; arith | cbv beta | auto].
    intros [v ch2] s2 (ds & s3 & Hds & K3 & R3 & D3 & E & _ & Hv).
    cbn [fst snd] in *. exists (c :: ds), s3.
    split; [constructor; assumption |].
    split; [exact (took_trans [c] _ _ _ _ K K3) |].
    split; [exact R3 |]. split; [exact D3 |].
    split; [rewrite value_from_cons, E; f_equal; lia |].
    split; [intros _; exact Z0 | exact Hv].
  - apply holds_ret. exists [], s. cbn [fst snd].
    split; [constructor |]. split; [apply took_refl |].
    split; [exact R |]. split; [exact D |].
    split; [reflexivity |]. split; [intros N; now destruct N | exact Hacc].
Qed.

Lemma clauses_digits_inv (fuel : nat) :
  forall acc s, 0 <= acc <= MAX_SIZE_T ->
    holds (clauses_digits fuel acc) s
          (fun r s' => exists ds s1,
               Forall is_digit ds /\ took ds s s1
               /\ next_result s1 (snd r) s' /\ isdigit (snd r) = false
               /\ fst r = value_from acc ds
               /\ (ds <> [] -> acc <> 0) /\ 0 <= fst r <= MAX_SIZE_T)
          (fun _ => True).
Proof.
  induction fuel as [|fuel IH]; intros acc s Hacc; [exact I |].
  cbn [clauses_digits]. apply holds_bind.
  eapply holds_weaken; [apply next_inv | cbv beta | auto].
  intros ch s1 R. destruct (isdigit ch) eqn:D.
  - destruct (next_result_digit s s1 ch R D) as (c & Hc & -> & K).
    pose proof (digit_code c Hc) as Bc.
    apply holds_bind, holds_when_error; [exact I | intros Z0].
    apply Z.eqb_neq in Z0.
    apply holds_bind, holds_when_error; [exact I | intros B].
    change (MAX_SIZE_T / 10) with 1844674407370955161 in B.
    apply Z.ltb_ge in B.
    apply holds_bind, holds_int_val. codes.
    rewrite (wrap64_small (acc * 10)) by arith.
    rewrite (wrap64_small (MAX_SIZE_T - (code c - 48))) by arith.
    apply holds_bind, holds_when_error; [exact I | intros B2].
    apply Z.ltb_ge in B2.
    rewrite (wrap64_small (acc * 10 + (code c - 48))) by arith.
    eapply holds_weaken; [apply IH; arith | cbv beta | auto].
    intros [v ch2] s2 (ds & s3 & Hds & K3 & R3 & D3 & E & _ & Hv).
    cbn [fst snd] in *. exists (c :: ds), s3.
    split; [constructor; assumption |].
    split; [exact (took_trans [c] _ _ _ _ K K3) |].
    split; [exact R3 |]. split; [exact D3 |].
    split; [rewrite value_from_cons, E; f_equal; lia |].
    split; [intros _; exact Z0 | exact Hv].
  - apply holds_ret. exists [], s. cbn [fst snd].
    split; [constructor |]. split; [apply took_refl |].
    split; [exact R |]. split; [exact D |].
    split; [reflexivity |]. split; [intros N; now destruct N | exact Hacc].
Qed.

Lemma holds_set_variables (v : Z) (s : state) (Q : unit -> state -> Prop)
    (E : state -> Prop) :
  Q tt (mkState (file s) (lineno s) (bytes s) v (added s)) ->
  holds (set_variables v) s Q E.
Proof.
  auto.
Qed.

Lemma variables_digits_inv (fuel : nat) :
  forall s, 0 <= variables s <= INT_MAX ->
    holds (variables_digits fuel) s
          (fun ch s' => exists ds s1,
               Forall is_digit ds /\ file s = ds ++ file s1
               /\ added s1 = added s
               /\ variables s1 = value_from (variables s) ds
               /\ next_result s1 ch s' /\ isdigit ch = false
               /\ (ds <> [] -> variables s <> 0)
               /\ 0 <= variables s1 <= INT_MAX)
          (fun _ => True).
Proof.
  induction fuel as [|fuel IH]; intros s Hv; [exact I |].
  cbn [variables_digits]. apply holds_bind.
  eapply holds_weaken; [apply next_inv | cbv beta | auto].
  intros ch s1 R. destruct (isdigit ch) eqn:D.
  - destruct (next_result_digit s s1 ch R D) as (c & Hc & -> & (F1 & V1 & A1)).
    pose proof (digit_code c Hc) as Bc.
    apply holds_bind, holds_get_variables. rewrite V1.
    apply holds_bind, holds_when_error; [exact I | intros Z0].
    apply Z.eqb_neq in Z0.
    apply holds_bind, holds_when_error; [exact I | intros B].
    change (INT_MAX ÷ 10) with 214748364 in B. apply Z.ltb_ge in B.
    apply holds_bind, holds_int_val. apply holds_bind, holds_set_variables.
    apply holds_bind, holds_int_val.
    apply holds_bind, holds_when_error; [exact I | intros B2].
    apply Z.ltb_ge in B2. codes.
    apply holds_bind, holds_int_val. apply holds_bind, holds_set_variables.
    cbn [file lineno bytes added].
    set (s2 := mkState _ _ _ _ _).
    eapply holds_weaken;
      [apply (IH s2); subst s2; cbn [variables]; arith | cbv beta | auto].
    intros ch2 s3 (ds & s4 & Hds & F4 & A4 & V4 & R4 & D4 & _ & Hv4).
    subst s2. cbn [file variables added] in *.
    exists (c :: ds), s4.
    split; [constructor; assumption |].
    split; [rewrite F1, F4; reflexivity |].
    split; [congruence |].
    split; [rewrite value_from_cons, V4; f_equal; lia |].
    split; [exact R4 |]. split; [exact D4 |].
    split; [intros _; exact Z0 | exact Hv4].
  - apply holds_ret. exists [], s.
    split; [constructor |]. split; [reflexivity |].
    split; [reflexivity |]. split; [reflexivity |].
    split; [exact R |]. split; [exact D |].
    split; [intros N; now destruct N | exact Hv].
Qed.

(** Read a character the parser insists on. *)
Ltac expect ch s1 K :=
  let R := fresh "R" in
  let E := fresh "E" in
  apply holds_bind;
  eapply holds_weaken; [apply next_inv | cbv beta | auto];
  intros ch s1 R;
  apply holds_bind, holds_when_error; [exact I | intros E];
  apply negb_false_iff, Z.eqb_eq in E; subst ch;
  pose proof (next_result_char _ _ _ R ltac:(discriminate)) as K;
  clear R.

Lemma numeral_cons (c : ascii) (ds : list ascii) :
  is_digit c -> Forall is_digit ds -> (ds <> [] -> code c - 48 <> 0) ->
  numeral (c :: ds).
Proof.
  intros Hc Hds Hz. split; [discriminate | split; [now constructor |]].
  intros r E. inversion E. subst.
  destruct r as [|d r]; [reflexivity |]. exfalso. apply Hz; [discriminate |].
  reflexivity.
Qed.

(** The two numbers of a header that is read, and the end of its line. *)
Lemma parse_numbers_inv (ch : Z) (s0 s : state) :
  next_result s0 ch s ->
  holds (parse_numbers ch) s
        (fun sc s' => exists dV b2 dM b3 e,
             numeral dV /\ blanks b2 /\ numeral dM /\ blanks b3
             /\ file s0 = dV ++ " "%char :: b2 ++ dM ++ b3 ++ render_eol e
                          ++ file s'
             /\ variables s' = value dV /\ variables s' <= INT_MAX
             /\ sc = value dM /\ sc <= MAX_SIZE_T
             /\ added s' = added s0)
        (fun _ => True).
Proof.
  intros R0. unfold parse_numbers.
  apply holds_bind, holds_when_error; [exact I | intros D0].
  apply negb_false_iff in D0.
  destruct (next_result_digit s0 s ch R0 D0) as (cv & Hcv & -> & (F0 & V0 & A0)).
  pose proof (digit_code cv Hcv) as Bcv. codes.
  apply holds_bind, holds_int_val. apply holds_bind, holds_set_variables.
  set (s1 := mkState _ _ _ _ _).
  apply holds_bind.
  eapply holds_weaken;
    [ apply (variables_digits_inv (S (length (file s1))) s1);
      subst s1; cbn [variables]; arith
    | cbv beta | auto ].
  intros ch2 s2 (dv & s3 & Hdv & F3 & A3 & V3 & R3 & D3 & Z3 & B3).
  subst s1. cbn [file variables added] in *.
  apply holds_bind, holds_get_variables.
  apply holds_bind, holds_when_error; [exact I | intros E2].
  apply negb_false_iff, Z.eqb_eq in E2. subst ch2.
  pose proof (next_result_char _ _ " "%char R3 ltac:(discriminate))
    as (F4 & V4 & A4).
  apply holds_bind.
  eapply holds_weaken;
    [ apply (skip_blanks_inv (S (length (file s2)))) | cbv beta | auto ].
  intros ch5 s5 (b2 & s6 & Hb2 & (F6 & V6 & A6) & R6 & _).
  apply holds_bind, holds_when_error; [exact I | intros D5].
  apply negb_false_iff in D5.
  destruct (next_result_digit s6 s5 ch5 R6 D5) as (cm & Hcm & -> & (F7 & V7 & A7)).
  pose proof (digit_code cm Hcm) as Bcm. codes.
  rewrite (wrap64_small (code cm - 48)) by arith.
  apply holds_bind.
  eapply holds_weaken;
    [ apply (clauses_digits_inv (S (length (file s5))) (code cm - 48) s5); arith
    | cbv beta | auto ].
  intros [sc ch8] s8 (dm & s9 & Hdm & (F9 & V9 & A9) & R9 & D9 & E9 & Z9 & B9).
  cbn [fst snd] in *.
  assert (fin : forall ch' b3 s10 s',
             blanks b3 -> took b3 s9 s10 -> next_result s10 ch' s' ->
             holds (when (negb (ch' =? 10))
                      (parse_error "expected new line after 'p cnf %d %zu'"
                         [variables s2; sc]) ;; ret sc) s'
                   (fun sc0 s'0 => exists dV b2 dM b3 e,
                        numeral dV /\ blanks b2 /\ numeral dM /\ blanks b3
                        /\ file s0 = dV ++ " "%char :: b2 ++ dM ++ b3
                                     ++ render_eol e ++ file s'0
                        /\ variables s'0 = value dV /\ variables s'0 <= INT_MAX
                        /\ sc0 = value dM /\ sc0 <= MAX_SIZE_T
                        /\ added s'0 = added s0)
                   (fun _ => True)).
  { intros ch' b3 s10 s' Hb3 (F10 & V10 & A10) R10.
    apply holds_bind, holds_when_error; [exact I | intros E10].
    apply negb_false_iff, Z.eqb_eq in E10. subst ch'.
    destruct R10 as [(E & _)|(k & T & (F11 & V11 & A11))]; [discriminate |].
    destruct (token_eol k T) as [e ->].
    apply holds_ret. exists (cv :: dv), b2, (cm :: dm), b3, e.
    split; [apply numeral_cons; auto; intros N; lia |].
    split; [exact Hb2 |].
    split; [apply numeral_cons; auto; intros N; lia |].
    split; [exact Hb3 |].
    split.
    { rewrite F0, F3, F4, F6, F7, F9, F10, F11.
      repeat (rewrite <- app_assoc || rewrite <- app_comm_cons).
      reflexivity. }
    change (value (cv :: dv)) with (value_from (code cv - 48) dv).
    change (value (cm :: dm)) with (value_from (code cm - 48) dm).
    assert (Vs : variables s' = variables s3) by congruence.
    split; [congruence |]. split; [lia |].
    split; [exact E9 |]. split; [lia | congruence]. }
  apply holds_bind.
  destruct ((ch8 =? 32) || (ch8 =? 9)) eqn:Bl.
  - assert (Hb : exists b, (b = " "%char \/ b = TAB) /\ took [b] s9 s8).
    { destruct (Z.eqb_spec ch8 32) as [->|N1].
      - exists " "%char. split; [now left |].
        exact (next_result_char _ _ " "%char R9 ltac:(discriminate)).
      - destruct (Z.eqb_spec ch8 9) as [->|N2]; [| discriminate].
        exists TAB. split; [now right |].
        exact (next_result_char _ _ TAB R9 ltac:(discriminate)). }
    destruct Hb as (b & Hb & K8).
    eapply holds_weaken;
      [ apply (skip_blanks_inv (S (length (file s8)))) | cbv beta | auto ].
    intros ch10 s10 (ws & s11 & Hws & K11 & R11 & _).
    apply (fin ch10 (b :: ws) s11 s10); [now constructor | | exact R11].
    exact (took_trans [b] _ _ _ _ K8 K11).
  - apply holds_ret. apply (fin ch8 [] s9 s8);
      [constructor | apply took_refl | exact R9].
Qed.

(** The header that has been read when [parse_header] returns. *)
Lemma parse_header_inv (s : state) :
  holds parse_header s
        (fun sc s' => exists h,
             header_ok (variables s') sc h
             /\ file s = render_header h ++ file s'
             /\ added s' = added s)
        (fun _ => True).
Proof.
  unfold parse_header. apply holds_bind.
  eapply holds_weaken;
    [ apply (header_comments_inv (S (length (file s)))) | cbv beta | auto ].
  intros ch s1 (cs & s0 & Hcs & (F0 & V0 & A0) & R0 & _).
  apply holds_bind, holds_when_error; [exact I | intros E].
  apply negb_false_iff, Z.eqb_eq in E. subst ch.
  pose proof (next_result_char _ _ "p"%char R0 ltac:(discriminate))
    as (F1 & V1 & A1).
  expect ch2 s2 K2. expect ch3 s3 K3. expect ch4 s4 K4. expect ch5 s5 K5.
  expect ch6 s6 K6.
  destruct K2 as (F2 & V2 & A2), K3 as (F3 & V3 & A3), K4 as (F4 & V4 & A4),
    K5 as (F5 & V5 & A5), K6 as (F6 & V6 & A6).
  apply holds_bind.
  eapply holds_weaken;
    [ apply (skip_blanks_inv (S (length (file s6)))) | cbv beta | auto ].
  intros ch7 s7 (b1 & s8 & Hb1 & (F8 & V8 & A8) & R8 & _).
  eapply holds_weaken; [apply (parse_numbers_inv ch7 s8 s7 R8) | cbv beta | auto].
  intros sc s' (dV & b2 & dM & b3 & e & HnV & Hb2 & HnM & Hb3 & F9 & Vs & Vm
                & Es & Em & A9).
  exists (mkHeader cs b1 dV b2 dM b3 e).
  split; [| split; [| congruence]].
  - unfold header_ok, header_shape.
    cbn [leading blanks1 blanks2 blanks3 declared_variables declared_clauses].
    repeat split; auto; try apply HnV; try apply HnM.
  - unfold render_header.
    cbn [leading blanks1 blanks2 blanks3 declared_variables declared_clauses
         header_eol].
    rewrite F0, F1, F2, F3, F4, F5, F6, F8, F9.
    change (list_ascii_of_string "p cnf ")
      with ["p"; " "; "c"; "n"; "f"; " "]%char.
    repeat (rewrite <- app_assoc || rewrite <- app_comm_cons).
    reflexivity.
Qed.

(** What stands behind the digits of a literal that is taken. *)
Lemma delimiter_inv (ch : Z) (s1 s2 : state) :
  next_result s1 ch s2 ->
  (negb (ch =? code " ") && negb (ch =? code TAB)
   && negb (ch =? code LF) && negb (ch =? code "c")) = false ->
  exists k, took k s1 s2
    /\ ((ch = code " " /\ k = render_delimiter Space)
        \/ (ch = code TAB /\ k = render_delimiter Tabulator)
        \/ (ch = code LF /\ exists e, k = render_delimiter (Newline e))
        \/ (ch = code "c" /\ k = ["c"%char])).
Proof.
  intros R B.
  destruct (Z.eqb_spec ch (code " ")) as [->|N1].
  { exists [" "%char]. split; [| now left].
    exact (next_result_char _ _ " "%char R ltac:(discriminate)). }
  destruct (Z.eqb_spec ch (code TAB)) as [->|N2].
  { exists [TAB]. split; [| right; now left].
    exact (next_result_char _ _ TAB R ltac:(discriminate)). }
  destruct (Z.eqb_spec ch (code LF)) as [->|N3].
  { destruct R as [(E & _)|(k & T & K)]; [discriminate |].
    destruct (token_eol k T) as [e ->]. exists (render_eol e).
    split; [exact K |]. right. right. left. split; [reflexivity |].
    now exists e. }
  destruct (Z.eqb_spec ch (code "c")) as [->|N4]; [| discriminate].
  exists ["c"%char]. split; [| right; right; now right].
  exact (next_result_char _ _ "c"%char R ltac:(discriminate)).
Qed.

(** The literal that has been read when [parse_literal] returns: [c] is
    its first digit, taken from the stream before. *)
Lemma parse_literal_inv (M : Z) (l : locals) (sign : Z) (c : ascii)
    (s0 s : state) :
  is_digit c -> took [c] s0 s -> sign = 1 \/ sign = -1 ->
  holds (parse_literal M l sign (code c)) s
        (fun r s' => exists ds d,
             numeral ds /\ value ds <= variables s0 /\ delimiter_ok d
             /\ file s0 = ds ++ render_delimiter d ++ file s'
             /\ variables s' = variables s0
             /\ added s' = added s0 ++ [value ds * sign])
        (fun _ => True).
Proof.
  intros Hc (F0 & V0 & A0) Hsign. pose proof (digit_code c Hc) as Bc.
  unfold parse_literal.
  apply holds_bind, holds_assert. intros _.
  apply holds_bind, holds_when_error; [exact I | intros _].
  apply holds_bind, holds_int_val. apply holds_bind. codes.
  eapply holds_weaken;
    [ apply (literal_digits_inv (S (length (file s))) (code c - 48) s); arith
    | cbv beta | auto ].
  intros [lit1 ch1] s2 (ds & s1 & Hds & (F1 & V1 & A1) & R1 & D1 & E1 & Z1 & B1).
  cbn [fst snd] in *.
  apply holds_bind, holds_assert. intros _.
  apply holds_bind, holds_int_val.
  apply holds_bind, holds_when_error; [exact I | intros Hd].
  destruct (delimiter_inv ch1 s1 s2 R1 Hd) as (k & (F2 & V2 & A2) & Hk).
  apply holds_bind, holds_assert. intros _.
  apply holds_bind, holds_get_variables.
  apply holds_bind, holds_int_val.
  apply holds_bind, holds_when_error; [exact I | intros Hle].
  apply Z.ltb_ge in Hle.
  apply holds_bind, holds_satch_add.
  set (s3 := mkState _ _ _ _ _).
  assert (N : numeral (c :: ds)) by (apply numeral_cons; auto).
  assert (Ev : value (c :: ds) = lit1) by (symmetry; exact E1).
  assert (Hv : value (c :: ds) <= variables s0).
  { rewrite Ev. assert (variables s2 = variables s0) by congruence.
    destruct Hsign; subst sign; lia. }
  assert (fin : forall d s', delimiter_ok d ->
             file s1 = render_delimiter d ++ file s' ->
             variables s' = variables s3 -> added s' = added s3 ->
             exists ds0 d0,
               numeral ds0 /\ value ds0 <= variables s0 /\ delimiter_ok d0
               /\ file s0 = ds0 ++ render_delimiter d0 ++ file s'
               /\ variables s' = variables s0
               /\ added s' = added s0 ++ [value ds0 * sign]).
  { intros d s' Hd' Fd Vd Ad. exists (c :: ds), d.
    split; [exact N |]. split; [exact Hv |]. split; [exact Hd' |].
    subst s3. cbn [variables added] in *.
    split; [rewrite F0, F1, Fd; reflexivity |].
    split; [congruence |]. rewrite Ad, Ev. congruence. }
  apply holds_bind.
  destruct Hk as [[-> ->]|[[-> ->]|[[-> (e & ->)]|[-> ->]]]];
    cbv beta iota delta [when]; codes;
    try (change (32 =? 99) with false); try (change (9 =? 99) with false);
    try (change (10 =? 99) with false); try (change (99 =? 99) with true);
    cbv iota.
  - apply holds_ret, holds_ret. cbn [snd fst].
    apply (fin Space); [exact I | exact F2 | reflexivity | reflexivity].
  - apply holds_ret, holds_ret.
    apply (fin Tabulator); [exact I | exact F2 | reflexivity | reflexivity].
  - apply holds_ret, holds_ret.
    apply (fin (Newline e)); [exact I | exact F2 | reflexivity | reflexivity].
  - eapply holds_weaken;
      [ apply (skip_line_inv _ (S (length (file s3)))) | cbv beta | auto ].
    intros _ s4 (t & e & Ht & (F4 & V4 & A4)). apply holds_ret.
    apply (fin (Comment t e)); [exact Ht | | exact V4 | exact A4].
    subst s3. cbn [file] in F4. rewrite F2, F4. reflexivity.
Qed.

(** What an iteration of the clause loop has read when it returns: an
    item, or nothing at the end of the stream. *)
Lemma body_iteration_inv (M : Z) (l : locals) (s : state) :
  holds (body_iteration M l) s
        (fun r s' =>
           match fst r with
           | Break => file s = [] /\ s' = s
           | Continue =>
               exists i, item_ok (variables s) i
                         /\ file s = render_item i ++ file s'
                         /\ variables s' = variables s
                         /\ added s' = added s ++ literals [i]
           end)
        (fun _ => True).
Proof.
  unfold body_iteration. apply holds_bind.
  eapply holds_weaken; [apply next_inv | cbv beta | auto].
  intros ch s1 R.
  assert (skip : forall d, delimiter_ok d ->
             forall s', file s = render_delimiter d ++ file s' ->
                        variables s' = variables s -> added s' = added s ->
                        exists i, item_ok (variables s) i
                                  /\ file s = render_item i ++ file s'
                                  /\ variables s' = variables s
                                  /\ added s' = added s ++ literals [i]).
  { intros d Hd s' F V A. exists (Skip d).
    cbn [item_ok render_item literals]. rewrite app_nil_r. auto. }
  destruct (Z.eqb_spec ch (code " ")) as [->|N1].
  { destruct (next_result_char _ _ " "%char R ltac:(discriminate))
      as (F & V & A).
    apply holds_ret. cbn [fst]. now apply (skip Space). }
  destruct (Z.eqb_spec ch (code TAB)) as [->|N2].
  { destruct (next_result_char _ _ TAB R ltac:(discriminate)) as (F & V & A).
    apply holds_ret. cbn [fst]. now apply (skip Tabulator). }
  destruct (Z.eqb_spec ch (code LF)) as [->|N3].
  { destruct R as [(E & _)|(k & T & (F & V & A))]; [discriminate |].
    destruct (token_eol k T) as [e ->].
    apply holds_ret. cbn [fst]. now apply (skip (Newline e)). }
  cbn [orb].
  destruct (Z.eqb_spec ch EOF) as [->|N4].
  { destruct R as [(_ & F & ->)|(k & T & _)];
      [| now apply token_not_eof in T].
    apply holds_ret. cbn [fst]. auto. }
  destruct R as [(E & _)|(k & T & K)]; [contradiction |].
  destruct (token_plain ch k T N3) as (c0 & -> & _ & _ & ->).
  destruct (Z.eqb_spec (code c0) (code "c")) as [E|N5].
  { apply code_inj in E. subst c0. destruct K as (F & V & A).
    apply holds_bind.
    eapply holds_weaken;
      [ apply (skip_line_inv _ (S (length (file s1)))) | cbv beta | auto ].
    intros _ s2 (t & e & Ht & (F2 & V2 & A2)). apply holds_ret. cbn [fst].
    apply (skip (Comment t e)); [exact Ht | | congruence | congruence].
    rewrite F, F2. reflexivity. }
  assert (lit : forall (negative : bool) (sign : Z) (c : ascii)
                       (k0 : list ascii) (s2 : state),
             (sign = if negative then -1 else 1) -> is_digit c ->
             k0 = (if negative then ["-"%char] else []) ->
             file s = k0 ++ [c] ++ file s2 ->
             variables s2 = variables s -> added s2 = added s ->
             holds (parse_literal M l sign (code c)) s2
                   (fun r s' =>
                      match fst r with
                      | Break => file s = [] /\ s' = s
                      | Continue =>
                          exists i, item_ok (variables s) i
                                    /\ file s = render_item i ++ file s'
                                    /\ variables s' = variables s
                                    /\ added s' = added s ++ literals [i]
                      end)
                   (fun _ => True)).
  { intros negative sign c k0 s2 Hsign Hc Hk F2 V2 A2.
    set (s0 := mkState ([c] ++ file s2) (lineno s2) (bytes s2) (variables s2)
                       (added s2)).
    apply holds_and_value with (P := fun r => fst r = Continue).
    { apply parse_literal_continues. }
    eapply holds_weaken;
      [ apply (parse_literal_inv M l sign c s0 s2 Hc);
        [repeat split | destruct negative; subst sign; auto]
      | cbv beta | auto ].
    intros r s' (ds & d & Hn & Hv & Hd & F & V & A) ->.
    subst s0. cbn [file variables added] in *.
    exists (Lit negative ds d). cbn [item_ok render_item literals].
    split; [rewrite <- V2; auto |].
    split; [unfold render_literal; rewrite F2, F, <- Hk, <- !app_assoc;
            reflexivity |].
    split; [congruence |]. rewrite A, A2. f_equal. f_equal.
    unfold literal_value. destruct negative; subst sign; lia. }
  apply holds_bind.
  destruct (Z.eqb_spec (code c0) (code "-")) as [E|N6].
  - apply code_inj in E. subst c0. destruct K as (F & V & A).
    apply holds_bind.
    eapply holds_weaken; [apply next_inv | cbv beta | auto].
    intros ch2 s2 R2.
    apply holds_bind, holds_when_error; [exact I | intros D2].
    apply negb_false_iff in D2.
    destruct (next_result_digit s1 s2 ch2 R2 D2) as (c & Hc & -> & (F2 & V2 & A2)).
    apply holds_ret.
    apply (lit true (-1) c ["-"%char] s2);
      [ reflexivity | exact Hc | reflexivity | rewrite F, F2; reflexivity
      | congruence | congruence ].
  - apply holds_bind, holds_when_error; [exact I | intros D].
    apply negb_false_iff in D. destruct K as (F & V & A).
    apply holds_ret.
    apply (lit false 1 c0 [] s1);
      [ reflexivity | exact D | reflexivity | exact F | exact V | exact A ].
Qed.

Lemma literals_app (a b : list item) :
  literals (a ++ b) = literals a ++ literals b.
Proof.
  induction a as [|[d|negative ds d] a IH]; cbn [app literals];
    [reflexivity | exact IH | now rewrite IH].
Qed.

(** The items the clause loop has read when it returns. *)
Lemma body_loop_inv (M : Z) (fuel : nat) :
  forall (l : locals) (s : state),
    holds (body_loop fuel M l) s
          (fun _ s' => exists items,
               Forall (item_ok (variables s)) items
               /\ file s = render_items items
               /\ variables s' = variables s
               /\ added s' = added s ++ literals items)
          (fun _ => True).
Proof.
  induction fuel as [|fuel IH]; intros l s; [exact I |].
  cbn [body_loop]. apply holds_bind.
  eapply holds_weaken; [apply body_iteration_inv | cbv beta | auto].
  intros [[|] l'] s1 H; cbn [fst] in H.
  - destruct H as (i & Hi & F & V & A).
    eapply holds_weaken; [apply IH | cbv beta | auto].
    intros l2 s2 (items & Hitems & F2 & V2 & A2).
    exists (i :: items).
    split; [constructor; [exact Hi | now rewrite <- V] |].
    split; [unfold render_items in *; cbn [flat_map]; rewrite F, F2;
            reflexivity |].
    split; [congruence |].
    change (i :: items) with ([i] ++ items).
    rewrite literals_app, A2, A, <- app_assoc. reflexivity.
  - destruct H as [F ->]. apply holds_ret. exists [].
    split; [constructor |]. split; [exact F |].
    split; [reflexivity |]. cbn [literals]. now rewrite app_nil_r.
Qed.

(** The file that has been read when [parse] returns. *)
Lemma parse_inv (s : state) :
  holds parse s
        (fun r s' => exists h items,
             header_ok (variables s') (fst r) h
             /\ Forall (item_ok (variables s')) items
             /\ file s = render_header h ++ render_items items
             /\ added s' = added s ++ literals items)
        (fun _ => True).
Proof.
  unfold parse, parse_body. apply holds_bind.
  eapply holds_weaken; [apply parse_header_inv | cbv beta | auto].
  intros sc s1 (h & Hh & F1 & A1).
  apply holds_bind. apply holds_bind.
  eapply holds_weaken;
    [ apply (body_loop_inv sc (S (length (file s1)))) | cbv beta | auto ].
  intros l s2 (items & Hitems & F2 & V2 & A2).
  eapply holds_weaken; [apply end_of_file_state | cbv beta | auto].
  intros l' s3 (-> & _). apply holds_ret. cbn [fst].
  exists h, items. rewrite V2.
  split; [exact Hh |]. split; [exact Hitems |].
  split; [rewrite F1, F2; reflexivity | congruence].
Qed.

(** X16.  The parser accepts nothing but well-formed DIMACS files: when
    [parse] returns, the input is the text of a header and of literals,
    white space and comments behind it, every literal followed by white
    space or by a comment, in clauses that are closed by their zeros and
    that are as many as the header says, over the variables the header
    declares.  The literals that were added are those of this text, and the
    numbers that [parse] gives and [variables] are those of its header. *)
Theorem parse_accepts_dimacs_only (input : list ascii) (r : Z * Z)
    (s' : state) :
  parse (initial input) = Ok r s' ->
  exists h items,
    dimacs (variables s') (fst r) h items None
    /\ input = render h items None
    /\ added s' = literals items
    /\ snd r = fst r.
Proof.
  intros R.
  destruct (holds_ok _ _ _ _ _ _ (parse_inv (initial input)) R)
    as (h & items & Hh & Hitems & F & A).
  destruct (holds_ok _ _ _ _ _ _ (parse_tallied input) R) as (E & C & L & _).
  cbn [initial file added app] in *.
  exists h, items. split; [| split; [| split; [exact A | now symmetry]]].
  - split; [exact Hh |]. split; [exact Hitems |]. split; [exact I |].
    cbn [final_literals]. rewrite app_nil_r, <- A. split; assumption.
  - unfold render. cbn [render_final]. now rewrite app_nil_r.
Qed.

Lemma parse_accepts_dimacs_only_witness :
  let input := line "c a comment" ++ line "p cnf 2 2"
               ++ line "1 -2 0c closed" ++ line "2 0" in
  let s' := mkState [] 5 41 2 [1; -2; 0; 2; 0] in
  exists h items,
    dimacs (variables s') (fst (2, 2)) h items None
    /\ input = render h items None
    /\ added s' = literals items
    /\ snd (2, 2) = fst (2, 2).
Proof.
  intros input s'.
  apply (parse_accepts_dimacs_only input (2, 2) s').
  vm_compute. reflexivity.
Defined.

(** ** The errors of headers and bodies that go wrong *)

(** The header up to the first digit of the number of clauses. *)
Lemma parse_header_clauses (V M : Z) (h : header) (cm : ascii)
    (rest : list ascii) (s : state) :
  header_form V M h -> is_digit cm ->
  file s = render_header_start h ++ cm :: rest ->
  exists s',
    parse_header s = parse_clauses V (code cm) s'
    /\ file s' = rest /\ variables s' = V /\ added s' = added s.
Proof.
  destruct h as [cs b1 dV b2 dM b3 e].
  unfold header_form, render_header_start.
  cbn [leading blanks1 blanks2 blanks3 declared_variables declared_clauses].
  intros (Hcs & Hb1 & Hb2 & _ & HnV & HV & _ & _ & HVmax) Hcm Hs.
  destruct (numeral_inv _ HnV) as (cv & dv & -> & Hcv & Hdv & Hposv & Hvalv).
  pose proof (digit_code _ Hcv) as Bcv. pose proof (digit_code _ Hcm) as Bcm.
  repeat (rewrite <- app_assoc in Hs || rewrite <- app_comm_cons in Hs).
  destruct (parse_header_start cs b1 cv _ s Hcs Hb1 Hcv Hs)
    as (s8 & E8 & (R8 & V8 & A8) & Hs8).
  rewrite E8. unfold parse_numbers.
  unfold is_digit in Hcv, Hcm. rewrite Hcv. run. unfold set_variables. run.
  match goal with |- context [fueled variables_digits ?st] => set (s9 := st) end.
  destruct (variables_digits_step dv s9 _ Hdv Hs8)
    as (s10 & E10 & R10 & Hs10 & V10 & A10).
  { now apply blank_not_digit; left. }
  { subst s9. cbn [variables]. lia. }
  { exact Hposv. }
  { subst s9. cbn [variables]. rewrite <- Hvalv. lia. }
  assert (HvV : variables s10 = V)
    by (rewrite V10; subst s9; cbn [variables]; congruence).
  assert (HaV : added s10 = added s) by (rewrite A10; subst s9; cbn [added]; congruence).
  clearbody s9. rewrite E10. read_char as s11 N11 R11 V11 A11 Hs11.
  destruct (skip_blanks_step _ s11 _ Hb2 Hs11)
    as (s12 & E12 & (R12 & V12 & A12) & Hs12).
  { now apply digit_not_blank. }
  rewrite E12. read_char as s13 N13 R13 V13 A13 Hs13. rewrite Hcm. run.
  exists s13. split; [| split; [exact Hs13 | split; congruence]].
  unfold parse_clauses. run.
  replace (variables s11) with V by congruence. reflexivity.
Qed.

(** The loop over the digits of the number of clauses stops at the first
    digit with which the number read so far does not fit [size_t] any
    more: nothing wraps around. *)
Lemma clauses_digits_overflow (ds : list ascii) :
  Forall is_digit ds ->
  forall (fuel : nat) (acc : Z) (s : state) (rest : list ascii),
    file s = ds ++ rest ->
    (length ds < fuel)%nat ->
    0 < acc <= MAX_SIZE_T ->
    MAX_SIZE_T < value_from acc ds ->
    exists pre c post s',
      ds = pre ++ c :: post
      /\ value_from acc pre <= MAX_SIZE_T < value_from acc (pre ++ [c])
      /\ clauses_digits fuel acc s
         = ParseError (if MAX_SIZE_T / 10 <? value_from acc pre
                       then "way too many clauses specified"
                       else "too many clauses specified") [] s'
      /\ file s' = post ++ rest
      /\ variables s' = variables s /\ added s' = added s.
Proof.
  induction 1 as [|c ds Hc Hds IH]; intros fuel acc s rest Hs Hfuel Hv Hover.
  - unfold value_from in Hover. simpl in Hover. lia.
  - destruct fuel as [|fuel]; [simpl in Hfuel; lia |].
    simpl in Hs. rewrite value_from_cons in Hover.
    cbn [clauses_digits].
    destruct (next_step s c _ Hs) as (s1 & N1 & (R1 & V1 & A1) & Hs1);
      [now apply digit_not_CR |].
    rewrite (bind_ok _ _ _ _ _ N1).
    assert (Hc' := Hc). unfold is_digit in Hc'. rewrite Hc'.
    apply digit_code in Hc.
    destruct (Z.ltb_spec 1844674407370955161 acc) as [Hway|Hway].
    { exists [], c, ds, s1. cbn [app].
      change (value_from acc []) with acc.
      change (value_from acc [c]) with (10 * acc + (code c - 48)).
      split; [reflexivity |]. split; [arith |].
      split; [run; reflexivity | auto]. }
    destruct (Z.ltb_spec (MAX_SIZE_T - (code c - 48)) (acc * 10)) as [Hbig|Hbig].
    { exists [], c, ds, s1. cbn [app].
      change (value_from acc []) with acc.
      change (value_from acc [c]) with (10 * acc + (code c - 48)).
      split; [reflexivity |]. split; [arith |].
      split; [| auto].
      rewrite (wrap64_small (acc * 10)) by arith. run.
      rewrite (wrap64_small (MAX_SIZE_T - (code c - 48))) by arith.
      run. reflexivity. }
    rewrite (wrap64_small (acc * 10)) by arith. run.
    rewrite (wrap64_small (MAX_SIZE_T - (code c - 48))) by arith. run.
    rewrite (wrap64_small (acc * 10 + (code c - 48))) by arith.
    destruct (IH fuel (acc * 10 + (code c - 48)) s1 rest)
      as (pre & c' & post & s' & E & B & P & F & V & A).
    + exact Hs1.
    + simpl in Hfuel. lia.
    + arith.
    + replace (acc * 10 + (code c - 48)) with (10 * acc + (code c - 48)) by lia.
      exact Hover.
    + exists (c :: pre), c', post, s'.
      rewrite <- !app_comm_cons, !value_from_cons.
      replace (10 * acc + (code c - 48))
        with (acc * 10 + (code c - 48)) by lia.
      split; [now rewrite E |]. split; [exact B |].
      split; [exact P |]. split; [exact F | split; congruence].
Qed.

(** X17.  The number of clauses of a header is taken up to the largest
    value of [size_t], and every number beyond it is a parse error: the
    digits are added up from left to right without wrapping around, and the
    error is raised at the first digit with which the number leaves the
    range, the rest of the line unread. *)
Theorem clauses_up_to_size_max (V M : Z) (h : header) (rest : list ascii) :
  header_form V M h ->
  (M <= MAX_SIZE_T ->
   exists s',
     parse_header (initial (render_header h ++ rest)) = Ok M s'
     /\ variables s' = V /\ file s' = rest)
  /\ (MAX_SIZE_T < M ->
      exists pre c post s',
        declared_clauses h = pre ++ c :: post
        /\ value pre <= MAX_SIZE_T < value (pre ++ [c])
        /\ parse (initial (render_header h ++ rest))
           = ParseError (if MAX_SIZE_T / 10 <? value pre
                         then "way too many clauses specified"
                         else "too many clauses specified") [] s'
        /\ variables s' = V
        /\ file s' = post ++ blanks3 h ++ render_eol (header_eol h) ++ rest).
Proof.
  intros Hform. split.
  - intros HM.
    destruct (parse_header_text V M h (initial (render_header h ++ rest)) rest)
      as (s' & E & _ & F & Hv & _); [| reflexivity | exists s'; auto].
    destruct Hform as (H1 & H2 & H3 & H4 & H5 & H6 & H7 & H8 & H9).
    exact (conj (conj H1 (conj H2 (conj H3 (conj H4 (conj H5 (conj H6
             (conj H7 (conj H8 HM)))))))) H9).
  - intros HM. pose proof Hform as (_ & _ & _ & _ & _ & _ & HnM & HVal & _).
    destruct (numeral_inv _ HnM) as (cm & dm & EdM & Hcm & Hdm & Hposm & Hvalm).
    pose proof (digit_code _ Hcm) as Bcm.
    set (tail := blanks3 h ++ render_eol (header_eol h) ++ rest).
    set (s := initial _).
    assert (Hs : file s = render_header_start h ++ cm :: dm ++ tail).
    { subst s tail. cbn [initial file]. unfold render_header, render_header_start.
      rewrite EdM.
      repeat (rewrite <- app_assoc || rewrite <- app_comm_cons). reflexivity. }
    destruct (parse_header_clauses V M h cm _ s Hform Hcm Hs)
      as (s1 & E1 & Hs1 & V1 & A1).
    assert (Hdm' : dm <> []).
    { intros ->. rewrite Hvalm in HVal. unfold value_from in HVal.
      simpl in HVal. arith. }
    destruct (clauses_digits_overflow dm Hdm (S (length (file s1)))
                (code cm - 48) s1 tail)
      as (pre & c & post & s' & E & B & P & F & Vs & A).
    { exact Hs1. }
    { rewrite Hs1, length_app. lia. }
    { specialize (Hposm Hdm'). arith. }
    { rewrite <- Hvalm, HVal. exact HM. }
    exists (cm :: pre), c, post, s'.
    assert (Ev : forall k, value (cm :: k) = value_from (code cm - 48) k)
      by reflexivity.
    rewrite <- app_comm_cons, !Ev.
    split; [now rewrite EdM, E |]. split; [exact B |].
    split; [| split; [congruence | exact F]].
    unfold parse. unfold bind at 1. rewrite E1.
    unfold parse_clauses. codes. rewrite (wrap64_small (code cm - 48)) by arith.
    unfold bind at 1. rewrite fueled_eq, P. reflexivity.
Qed.

Lemma clauses_up_to_size_max_witness :
  (18446744073709551615 <= MAX_SIZE_T ->
   exists s',
     parse_header (initial (render_header (plain_header "1" "18446744073709551615")
                            ++ []))
     = Ok 18446744073709551615 s'
     /\ variables s' = 1 /\ file s' = [])
  /\ (MAX_SIZE_T < 18446744073709551615 ->
      exists pre c post s',
        declared_clauses (plain_header "1" "18446744073709551615")
        = pre ++ c :: post
        /\ value pre <= MAX_SIZE_T < value (pre ++ [c])
        /\ parse (initial (render_header
                             (plain_header "1" "18446744073709551615") ++ []))
           = ParseError (if MAX_SIZE_T / 10 <? value pre
                         then "way too many clauses specified"
                         else "too many clauses specified") [] s'
        /\ variables s' = 1
        /\ file s' = post ++ blanks3 (plain_header "1" "18446744073709551615")
                     ++ render_eol (header_eol
                                      (plain_header "1" "18446744073709551615"))
                     ++ []).
Proof.
  apply (clauses_up_to_size_max 1 18446744073709551615
           (plain_header "1" "18446744073709551615") []).
  unfold header_form. cbn [plain_header leading blanks1 blanks2 blanks3
                           declared_variables declared_clauses].
  repeat match goal with
         | |- _ /\ _ => split
         | |- Forall _ [] => constructor
         | |- blanks [] => constructor
         | |- numeral _ => numeral_proof
         | |- _ = _ => reflexivity
         | |- _ <= _ => vm_compute; discriminate
         end.
Defined.

Example clauses_size_max_plus_one :
  message (parse (initial (line "p cnf 1 18446744073709551616")))
  = Some ("too many clauses specified"%string, []).
Proof.
  vm_compute. reflexivity.
Qed.

(** A digit behind a zero ends each of the three loops over digits. *)
Lemma variables_digits_zero (fuel : nat) (d : ascii) (rest : list ascii)
    (s : state) :
  is_digit d -> file s = d :: rest -> variables s = 0 ->
  exists s',
    variables_digits (S fuel) s
    = ParseError "invalid digit after '0' while parsing maximum variable" [] s'
    /\ added s' = added s.
Proof.
  intros Hd Hs Hv. cbn [variables_digits].
  destruct (next_step s d _ Hs) as (s1 & N1 & (R1 & V1 & A1) & Hs1);
    [now apply digit_not_CR |].
  rewrite (bind_ok _ _ _ _ _ N1). unfold is_digit in Hd. rewrite Hd.
  exists s1. split; [| exact A1].
  unfold bind at 1. unfold get_variables. unfold bind at 1.
  rewrite V1, Hv. reflexivity.
Qed.

Lemma clauses_digits_zero (fuel : nat) (d : ascii) (rest : list ascii)
    (s : state) :
  is_digit d -> file s = d :: rest ->
  exists s',
    clauses_digits (S fuel) 0 s
    = ParseError "invalid digit after '0' while parsing number of clauses" [] s'
    /\ added s' = added s.
Proof.
  intros Hd Hs. cbn [clauses_digits].
  destruct (next_step s d _ Hs) as (s1 & N1 & (R1 & V1 & A1) & Hs1);
    [now apply digit_not_CR |].
  rewrite (bind_ok _ _ _ _ _ N1). unfold is_digit in Hd. rewrite Hd.
  exists s1. split; [| exact A1]. run. reflexivity.
Qed.

Lemma literal_digits_zero (fuel : nat) (d : ascii) (rest : list ascii)
    (s : state) :
  is_digit d -> file s = d :: rest ->
  exists s',
    literal_digits (S fuel) 0 s
    = ParseError "invalid digit after '0' in number" [] s'
    /\ added s' = added s.
Proof.
  intros Hd Hs. cbn [literal_digits].
  destruct (next_step s d _ Hs) as (s1 & N1 & (R1 & V1 & A1) & Hs1);
    [now apply digit_not_CR |].
  rewrite (bind_ok _ _ _ _ _ N1). unfold is_digit in Hd. rewrite Hd.
  exists s1. split; [| exact A1]. run. reflexivity.
Qed.

Lemma zero_digit : is_digit "0"%char.
Proof.
  reflexivity.
Qed.

Lemma parse_numbers_zero (d : ascii) (rest : list ascii) (s : state) :
  is_digit d -> file s = d :: rest ->
  exists s',
    parse_numbers (code "0") s
    = ParseError "invalid digit after '0' while parsing maximum variable" [] s'
    /\ file s' = rest /\ added s' = added s.
Proof.
  intros Hd Hs. unfold parse_numbers.
  change (isdigit (code "0")) with true. run. unfold set_variables. run.
  match goal with |- context [fueled variables_digits ?st] => set (s9 := st) end.
  destruct (variables_digits_zero (length (file s9)) d rest s9 Hd Hs eq_refl)
    as (s' & E & A).
  destruct (next_step s9 d rest Hs) as (s2 & N2 & _ & Hs2);
    [now apply digit_not_CR |].
  exists s'. unfold fueled. rewrite E. split; [reflexivity |].
  split; [| exact A].
  cbn [variables_digits] in E. rewrite (bind_ok _ _ _ _ _ N2) in E.
  unfold is_digit in Hd. rewrite Hd in E.
  unfold bind at 1 in E. unfold get_variables in E. unfold bind at 1 in E.
  destruct (next_step s9 d rest Hs) as (s3 & N3 & (_ & V3 & _) & _);
    [now apply digit_not_CR |].
  rewrite N3 in N2. inversion N2. subst s3. rewrite V3 in E.
  change (variables s9) with 0 in E. cbv in E. inversion E. subst s'. exact Hs2.
Qed.

Lemma parse_literal_zero (M : Z) (l : locals) (sign : Z) (d : ascii)
    (rest : list ascii) (s : state) :
  is_digit d -> 0 <= parsed_clauses l < M -> file s = d :: rest ->
  exists s',
    parse_literal M l sign (code "0") s
    = ParseError "invalid digit after '0' in number" [] s'
    /\ file s' = rest /\ added s' = added s.
Proof.
  intros Hd Hpc Hs. unfold parse_literal. run.
  change (48 - 48) with 0.
  match goal with |- context [fueled ?f ?st] => change (fueled f st)
    with (literal_digits (S (length (file st))) 0 st) end.
  destruct (literal_digits_zero (length (file s)) d rest s Hd Hs)
    as (s' & E & A).
  rewrite E. exists s'. split; [reflexivity |]. split; [| exact A].
  cbn [literal_digits] in E.
  destruct (next_step s d rest Hs) as (s2 & N2 & _ & Hs2);
    [now apply digit_not_CR |].
  rewrite (bind_ok _ _ _ _ _ N2) in E.
  unfold is_digit in Hd. rewrite Hd in E. cbv in E. inversion E.
  subst s'. exact Hs2.
Qed.

Lemma body_iteration_zero (M : Z) (l : locals) (negative : bool) (d : ascii)
    (rest : list ascii) (s : state) :
  is_digit d -> 0 <= parsed_clauses l < M ->
  file s = render_literal negative ("0"%char :: d :: rest) ->
  exists s',
    body_iteration M l s = ParseError "invalid digit after '0' in number" [] s'
    /\ file s' = rest /\ added s' = added s.
Proof.
  intros Hd Hpc Hs. unfold render_literal in Hs.
  destruct negative; cbn [app] in Hs; unfold body_iteration; run.
  - read_char as s1 N1 R1 V1 A1 Hs1. read_char as s2 N2 R2 V2 A2 Hs2.
    change (isdigit 48) with true. run.
    destruct (parse_literal_zero M l (-1) d rest s2 Hd Hpc Hs2)
      as (s' & E & F & A).
    exists s'. split; [exact E |]. split; [exact F | congruence].
  - read_char as s2 N2 R2 V2 A2 Hs2.
    change (isdigit 48) with true. run.
    destruct (parse_literal_zero M l 1 d rest s2 Hd Hpc Hs2)
      as (s' & E & F & A).
    exists s'. split; [exact E |]. split; [exact F | congruence].
Qed.

(** X18.  No number of a file may start with a zero that is followed by
    a digit: behind text that is in order, such a number of variables, such
    a number of clauses and such a literal, with a minus or without, each
    end parsing with the error about the digit behind the zero, read no
    further than this digit, and nothing of the literal is added. *)
Theorem leading_zero_rejected (V M : Z) (h : header) (items : list item)
    (negative : bool) (d : ascii) (rest : list ascii) :
  is_digit d ->
  (Forall (fun l => comment_text (fst l)) (leading h) -> blanks (blanks1 h) ->
   exists s',
     parse (initial
              (flat_map (fun l => render_comment (fst l) (snd l)) (leading h)
               ++ list_ascii_of_string "p cnf " ++ blanks1 h
               ++ "0"%char :: d :: rest))
     = ParseError "invalid digit after '0' while parsing maximum variable" [] s'
     /\ file s' = rest)
  /\ (header_form V M h ->
      exists s',
        parse (initial (render_header_start h ++ "0"%char :: d :: rest))
        = ParseError "invalid digit after '0' while parsing number of clauses"
                     [] s'
        /\ file s' = rest)
  /\ (header_ok V M h -> Forall (item_ok V) items ->
      room M 0 (literals items) -> closed (literals items) < M ->
      exists s',
        parse (initial (render_header h ++ render_items items
                        ++ render_literal negative ("0"%char :: d :: rest)))
        = ParseError "invalid digit after '0' in number" [] s'
        /\ file s' = rest /\ added s' = literals items).
Proof.
  intros Hd. split; [| split].
  - intros Hcs Hb1. set (s := initial _).
    destruct (parse_header_start (leading h) (blanks1 h) "0" (d :: rest) s
                Hcs Hb1 zero_digit eq_refl) as (s1 & E1 & _ & Hs1).
    destruct (parse_numbers_zero d rest s1 Hd Hs1) as (s2 & E2 & Hs2 & _).
    exists s2. split; [| exact Hs2].
    unfold parse. unfold bind at 1. rewrite E1, E2. reflexivity.
  - intros Hh. set (s := initial _).
    destruct (parse_header_clauses V M h "0" (d :: rest) s Hh zero_digit eq_refl)
      as (s1 & E1 & Hs1 & _).
    destruct (clauses_digits_zero (length (file s1)) d rest s1 Hd Hs1)
      as (s2 & E2 & _).
    assert (Hs2 : file s2 = rest).
    { cbn [clauses_digits] in E2.
      destruct (next_step s1 d rest Hs1) as (s3 & N3 & _ & Hs3);
        [now apply digit_not_CR |].
      rewrite (bind_ok _ _ _ _ _ N3) in E2.
      assert (Hd' := Hd). unfold is_digit in Hd'. rewrite Hd' in E2.
      cbv in E2. inversion E2. subst s2. exact Hs3. }
    exists s2. split; [| exact Hs2].
    unfold parse. unfold bind at 1. rewrite E1. unfold parse_clauses.
    unfold bind at 1. unfold fueled.
    change (wrap64 (code "0" - code "0")) with 0. rewrite E2. reflexivity.
  - intros Hh Hitems Hroom Hlt. set (input := render_header h ++ _).
    destruct (parse_prefix V M h items
                (render_literal negative ("0"%char :: d :: rest))
                (initial input) Hh Hitems Hroom eq_refl)
      as (fuel & s1 & Hfuel & R1 & Hs1 & Hv1 & Ha1 & E).
    assert (Hpc0 : 0 <= closed (literals items)) by (unfold closed; lia).
    destruct (body_iteration_zero M
                (locals_after (mkLocals 0 0) (literals items))
                negative d rest s1 Hd) as (s' & E' & F' & A').
    { rewrite locals_after_closed. lia. }
    { exact Hs1. }
    exists s'. rewrite E. split; [| split].
    + apply body_loop_error; [lia | exact E'].
    + exact F'.
    + rewrite A', Ha1. reflexivity.
Qed.

Lemma leading_zero_rejected_witness :
  (exists s',
     parse (initial (list_ascii_of_string "p cnf 07"))
     = ParseError "invalid digit after '0' while parsing maximum variable" [] s'
     /\ file s' = [])
  /\ (exists s',
        parse (initial (list_ascii_of_string "p cnf 2 07"))
        = ParseError "invalid digit after '0' while parsing number of clauses"
                     [] s'
        /\ file s' = [])
  /\ (exists s',
        parse (initial (line "p cnf 2 1" ++ list_ascii_of_string "-07"))
        = ParseError "invalid digit after '0' in number" [] s'
        /\ file s' = [] /\ added s' = []).
Proof.
  destruct (leading_zero_rejected 2 1 (plain_header "2" "1") [] true "7" []
              eq_refl) as (A & B & C).
  split; [| split].
  - apply A; constructor.
  - apply B. unfold header_form.
    cbn [plain_header leading blanks1 blanks2 blanks3
         declared_variables declared_clauses].
    repeat match goal with
           | |- _ /\ _ => split
           | |- Forall _ [] => constructor
           | |- blanks [] => constructor
           | |- numeral _ => numeral_proof
           | |- _ = _ => reflexivity
           | |- _ <= _ => vm_compute; discriminate
           end.
  - apply C.
    + header_proof.
    + constructor.
    + exact I.
    + vm_compute. reflexivity.
Defined.

(** A line that the end of the file cuts short. *)
Lemma skip_line_eof (msg : string) (t : list ascii) :
  comment_text t ->
  forall (fuel : nat) (s : state),
    file s = t -> (length t < fuel)%nat ->
    exists s',
      skip_line msg fuel s = ParseError msg [] s'
      /\ file s' = [] /\ added s' = added s.
Proof.
  induction 1 as [|c t [Hlf Hcr] Ht IH]; intros fuel s Hs Hfuel;
    (destruct fuel as [|fuel]; [simpl in Hfuel; lia |]); cbn [skip_line].
  - rewrite (bind_ok _ _ _ _ _ (next_eof s Hs)).
    exists s. split; [reflexivity | split; [exact Hs | reflexivity]].
  - destruct (next_step s c t Hs Hcr) as (s1 & N1 & (_ & _ & A1) & Hs1).
    rewrite (bind_ok _ _ _ _ _ N1).
    pose proof (code_range c) as R. apply code_neq in Hlf.
    destruct (Z.eqb_spec (code c) (code LF)) as [E|_]; [contradiction |].
    destruct (Z.eqb_spec (code c) EOF) as [E|_]; [unfold EOF in E; lia |].
    cbn [negb].
    destruct (IH fuel s1 Hs1) as (s' & E' & F' & A'); [simpl in Hfuel; lia |].
    exists s'. split; [exact E' | split; [exact F' | congruence]].
Qed.

Lemma header_comments_eof (cs : list (list ascii * eol)) (t : list ascii) :
  Forall (fun l => comment_text (fst l)) cs -> comment_text t ->
  forall (fuel : nat) (s : state),
    file s = flat_map (fun l => render_comment (fst l) (snd l)) cs
             ++ "c"%char :: t ->
    (length cs < fuel)%nat ->
    exists s',
      header_comments fuel s
      = ParseError "unexpected end-of-file in header comment" [] s'
      /\ file s' = [] /\ added s' = added s.
Proof.
  intros Hcs Ht. induction Hcs as [|[t0 e] cs Ht0 Hcs IH]; intros fuel s Hs Hfuel;
    (destruct fuel as [|fuel]; [simpl in Hfuel; lia |]); cbn [header_comments].
  - simpl in Hs.
    destruct (next_step s "c" _ Hs) as (s1 & N1 & (_ & _ & A1) & Hs1);
      [discriminate |].
    rewrite (bind_ok _ _ _ _ _ N1). run.
    destruct (skip_line_eof "unexpected end-of-file in header comment" t Ht
                (S (length (file s1))) s1 Hs1) as (s' & E' & F' & A').
    { rewrite Hs1. lia. }
    exists s'. unfold fueled. rewrite E'.
    split; [reflexivity | split; [exact F' | congruence]].
  - cbn [flat_map fst snd] in Hs, Ht0. unfold render_comment at 1 in Hs.
    rewrite <- ?app_comm_cons, <- ?app_assoc in Hs.
    destruct (next_step s "c" _ Hs) as (s1 & N1 & (_ & _ & A1) & Hs1);
      [discriminate |].
    rewrite (bind_ok _ _ _ _ _ N1). run.
    destruct (skip_line_step "unexpected end-of-file in header comment"
                t0 e s1 _ Ht0 Hs1) as (s2 & N2 & (_ & _ & A2) & Hs2).
    rewrite N2.
    destruct (IH fuel s2 Hs2) as (s' & E' & F' & A'); [simpl in Hfuel; lia |].
    exists s'. split; [exact E' | split; [exact F' | congruence]].
Qed.

Lemma body_iteration_eof (M : Z) (l : locals) (t : list ascii) (s : state) :
  comment_text t -> file s = "c"%char :: t ->
  exists s',
    body_iteration M l s
    = ParseError "unexpected end-of-file in comment" [] s'
    /\ file s' = [] /\ added s' = added s.
Proof.
  intros Ht Hs. unfold body_iteration.
  destruct (next_step s "c" _ Hs) as (s1 & N1 & (_ & _ & A1) & Hs1);
    [discriminate |].
  rewrite (bind_ok _ _ _ _ _ N1). run.
  destruct (skip_line_eof "unexpected end-of-file in comment" t Ht
              (S (length (file s1))) s1 Hs1) as (s' & E' & F' & A').
  { rewrite Hs1. lia. }
  exists s'. unfold fueled. rewrite E'.
  split; [reflexivity | split; [exact F' | congruence]].
Qed.

(** X19.  A comment has to end with its line: a comment that the end of the
    file cuts short, without a new line behind it, makes parsing fail, with
    the error of the header before the header line and with the error of
    the body behind a header and clauses that are in order, also when all
    the declared clauses have been read.  The file has been read to its
    end then, and the literals before the comment have been added. *)
Theorem unterminated_comment_rejected (cs : list (list ascii * eol))
    (V M : Z) (h : header) (items : list item) (t : list ascii) :
  comment_text t ->
  (Forall (fun l => comment_text (fst l)) cs ->
   exists s',
     parse (initial
              (flat_map (fun l => render_comment (fst l) (snd l)) cs
               ++ "c"%char :: t))
     = ParseError "unexpected end-of-file in header comment" [] s'
     /\ file s' = [] /\ added s' = [])
  /\ (header_ok V M h -> Forall (item_ok V) items ->
      room M 0 (literals items) ->
      exists s',
        parse (initial (render_header h ++ render_items items
                        ++ "c"%char :: t))
        = ParseError "unexpected end-of-file in comment" [] s'
        /\ file s' = [] /\ added s' = literals items).
Proof.
  intros Ht. split.
  - intros Hcs. set (s := initial _).
    destruct (header_comments_eof cs t Hcs Ht
                (S (length (file s))) s eq_refl) as (s' & E & F & A).
    { pose proof (leading_length cs). subst s.
      cbn [file initial]. rewrite length_app. lia. }
    exists s'. split; [| split; [exact F | exact A]].
    unfold parse, parse_header. unfold bind at 1. unfold bind at 1.
    unfold fueled. rewrite E. reflexivity.
  - intros Hh Hitems Hroom. set (input := render_header h ++ _).
    destruct (parse_prefix V M h items ("c"%char :: t)
                (initial input) Hh Hitems Hroom eq_refl)
      as (fuel & s1 & Hfuel & R1 & Hs1 & Hv1 & Ha1 & E).
    destruct (body_iteration_eof M
                (locals_after (mkLocals 0 0) (literals items)) t s1 Ht Hs1)
      as (s' & E' & F' & A').
    exists s'. rewrite E. split; [| split].
    + apply body_loop_error; [lia | exact E'].
    + exact F'.
    + rewrite A', Ha1. reflexivity.
Qed.

Lemma unterminated_comment_rejected_witness :
  (exists s',
     parse (initial (line "c one" ++ list_ascii_of_string "c two"))
     = ParseError "unexpected end-of-file in header comment" [] s'
     /\ file s' = [] /\ added s' = [])
  /\ (exists s',
        parse (initial (line "p cnf 2 1" ++ line "1 -2 0"
                        ++ list_ascii_of_string "c two"))
        = ParseError "unexpected end-of-file in comment" [] s'
        /\ file s' = [] /\ added s' = [1; -2; 0]).
Proof.
  destruct (unterminated_comment_rejected
              [(list_ascii_of_string " one", Unix)]
              2 1 (plain_header "2" "1")
              [Lit false (text "1") Space;
               Lit true (text "2") Space;
               Lit false (text "0") (Newline Unix)]
              (list_ascii_of_string " two")) as (A & B).
  { repeat constructor; discriminate. }
  split.
  - apply A. repeat constructor; discriminate.
  - apply B.
    + header_proof.
    + items_proof.
    + vm_compute. repeat split; reflexivity.
Defined.

(** X20.  Only comment lines may stand before the header line: when the
    text behind the leading comments, if there are any, is at its end or
    goes on with a character that is neither [c] nor [p], parsing fails with
    the error that names the two.  An empty file and a file that starts
    with an empty line or with a blank are such texts. *)
Theorem header_line_expected (cs : list (list ascii * eol))
    (rest : list ascii) :
  Forall (fun l => comment_text (fst l)) cs -> not_header_start rest ->
  exists s',
    parse (initial (flat_map (fun l => render_comment (fst l) (snd l)) cs
                    ++ rest))
    = ParseError "expected 'p' or 'c'" [] s'
    /\ added s' = [].
Proof.
  intros Hcs Hrest. set (s := initial _).
  destruct (header_comments_text cs Hcs (S (length (file s))) s rest eq_refl)
    as (s1 & E & (_ & _ & A1) & Hs1).
  { pose proof (leading_length cs). subst s.
    cbn [file initial]. rewrite length_app. lia. }
  { intros c r ->. exact (proj1 Hrest). }
  unfold parse, parse_header. unfold bind at 1. unfold bind at 1.
  unfold fueled. rewrite E.
  destruct rest as [|c r].
  - rewrite (next_eof s1 Hs1). exists s1. run.
    split; [reflexivity | exact A1].
  - destruct Hrest as (Hc & Hp & Hcr).
    destruct (ascii_dec c CR) as [->|Hn].
    + destruct (Hcr eq_refl) as (r' & ->).
      destruct (next_eol_step s1 Dos r' Hs1) as (s2 & N2 & (_ & _ & A2) & Hs2).
      rewrite N2. exists s2. run.
      split; [reflexivity | rewrite A2, A1; reflexivity].
    + destruct (next_step s1 c r Hs1 Hn) as (s2 & N2 & (_ & _ & A2) & Hs2).
      rewrite N2. exists s2. apply code_neq in Hp.
      destruct (Z.eqb_spec (code c) (code "p")) as [Q|_]; [contradiction |].
      run. split; [reflexivity | rewrite A2, A1; reflexivity].
Qed.

Lemma header_line_expected_witness :
  exists s',
    parse (initial (line "c first" ++ line EmptyString ++ line "p cnf 1 0"))
    = ParseError "expected 'p' or 'c'" [] s'
    /\ added s' = [].
Proof.
  apply (header_line_expected [(list_ascii_of_string " first", Unix)]
           (line EmptyString ++ line "p cnf 1 0")).
  - repeat constructor; discriminate.
  - vm_compute. repeat split; discriminate.
Defined.

Example empty_file_rejected :
  message (parse (initial [])) = Some ("expected 'p' or 'c'"%string, []).
Proof.
  vm_compute. reflexivity.
Qed.
